(** * WebP conversion pipeline of umi-plugin-project: a shallow embedding

    The development embeds the image conversion pass ([convertToWebp],
    gen-webp.ts), the stylesheet rewriter ([processCssFiles],
    process-css.ts), the import loader ([loader],
    webpack-import-loader.ts) and the plugin entry (index.ts) of the
    repository, and states the properties of the specification over them.

    Conventions.
    - A JavaScript string is a [string]: a sequence of 8-bit characters.
      A [Buffer] is a [string] too, one character per byte.
    - A JavaScript number that the code uses as an integer (qualities,
      sizes, counters) is a [Z] or a [nat].
    - The file system is a finite map from absolute paths to contents.
      Side effects are threaded explicitly; every [fs.writeFileSync] is
      also appended to a write log.
    - A regular expression of the source is a term of [regex], written
      constructor by constructor after the literal, and run by a
      backtracking matcher that follows the ECMAScript semantics
      (leftmost match, greedy quantifiers, ordered alternatives). *)

From Stdlib Require Import ZArith Lia List Ascii String Bool Permutation.
From stdpp Require Import gmap strings list fin_maps.

Local Open Scope string_scope.
Local Open Scope list_scope.
Local Open Scope nat_scope.

(* ===================================================================== *)
(** * JavaScript string primitives *)
(* ===================================================================== *)

Module JS.

Definition Buffer := string.

(** [s.length] *)
Definition len (s : string) : nat := String.length s.

(** First [n] characters of [s]: [s.slice(0, n)] for [0 <= n]. *)
Fixpoint take (n : nat) (s : string) : string :=
  match n, s with
  | S n', String c s' => String c (take n' s')
  | _, _ => EmptyString
  end.

(** [s] without its first [n] characters: [s.slice(n)]. *)
Fixpoint drop (n : nat) (s : string) : string :=
  match n, s with
  | S n', String _ s' => drop n' s'
  | _, _ => s
  end.

(** [s.substring(i, j)] for [0 <= i]; JavaScript swaps the bounds when
    [j < i]. *)
Definition substring (i j : nat) (s : string) : string :=
  if j <? i then take (i - j) (drop j s) else take (j - i) (drop i s).

(** [s.startsWith(p)] *)
Fixpoint startsWith (p s : string) : bool :=
  match p, s with
  | EmptyString, _ => true
  | String a p', String b s' => Ascii.eqb a b && startsWith p' s'
  | String _ _, EmptyString => false
  end.

(** [s.endsWith(p)] *)
Definition endsWith (p s : string) : bool :=
  (len p <=? len s) && String.eqb (drop (len s - len p) s) p.

(** [s.indexOf(p)]: [None] stands for -1. *)
Fixpoint indexOf (p s : string) : option nat :=
  if startsWith p s then Some 0
  else match s with
       | EmptyString => None
       | String _ s' => option_map S (indexOf p s')
       end.

(** [s.includes(p)] *)
Definition includes (p s : string) : bool :=
  match indexOf p s with Some _ => true | None => false end.

(** [s[i]]: [None] stands for [undefined]. *)
Definition charAt (i : nat) (s : string) : option ascii := String.get i s.

(** White space and line terminators of ECMAScript that fit in a byte:
    TAB, LF, VT, FF, CR, SP and NBSP. *)
Definition isSpace (c : ascii) : bool :=
  let n := nat_of_ascii c in
  ((9 <=? n) && (n <=? 13)) || (n =? 32) || (n =? 160).

Fixpoint trimStart (s : string) : string :=
  match s with
  | String c s' => if isSpace c then trimStart s' else s
  | EmptyString => EmptyString
  end.

(** Reverse of a string, used for [trimEnd]. *)
Fixpoint rev_onto (s acc : string) : string :=
  match s with
  | EmptyString => acc
  | String c s' => rev_onto s' (String c acc)
  end.

Definition trimEnd (s : string) : string :=
  rev_onto (trimStart (rev_onto s EmptyString)) EmptyString.

(** [s.trim()] *)
Definition trim (s : string) : string := trimEnd (trimStart s).

(** [true] when every character of [s] satisfies [p]. *)
Fixpoint allChars (p : ascii -> bool) (s : string) : bool :=
  match s with
  | EmptyString => true
  | String c s' => p c && allChars p s'
  end.

(** ASCII upper-casing, the canonicalisation of the [i] flag. *)
Definition upper (c : ascii) : ascii :=
  let n := nat_of_ascii c in
  if (97 <=? n) && (n <=? 122) then ascii_of_nat (n - 32) else c.

(** Decimal digit value of a character. *)
Definition digit (c : ascii) : option nat :=
  let n := nat_of_ascii c in
  if (48 <=? n) && (n <=? 57) then Some (n - 48) else None.

(** The [n]-th capture (1-based) of a list of captures. *)
Definition capture (n : nat) (caps : list string) : option string :=
  match n with 0 => None | S n' => nth_error caps n' end.

(** [GetSubstitution] of ECMAScript: expansion of the dollar patterns of
    a replacement string. [m] is the matched text, [before] and [after]
    the text around it, [caps] the captures ([[]] for a string
    pattern). *)
Fixpoint expand (repl m before after : string) (caps : list string) : string :=
  match repl with
  | EmptyString => EmptyString
  | String "$" (String "$" r) => String "$" (expand r m before after caps)
  | String "$" (String "&" r) => m +:+ expand r m before after caps
  | String "$" (String "`" r) => before +:+ expand r m before after caps
  | String "$" (String "'" r) => after +:+ expand r m before after caps
  | String "$" (String d1 r) =>
      match digit d1 with
      | Some n1 =>
          let one :=
            match capture n1 caps with
            | Some c => c +:+ expand r m before after caps
            | None => String "$" (String d1 (expand r m before after caps))
            end in
          match r with
          | String d2 r2 =>
              match digit d2 with
              | Some n2 =>
                  match capture (10 * n1 + n2) caps with
                  | Some c => c +:+ expand r2 m before after caps
                  | None => one
                  end
              | None => one
              end
          | EmptyString => one
          end
      | None => String "$" (String d1 (expand r m before after caps))
      end
  | String c r => String c (expand r m before after caps)
  end.

(** [s.replace(pat, repl)] with a string pattern: the first occurrence
    only, the replacement expanded with no captures. *)
Definition replaceStr (pat repl s : string) : string :=
  match indexOf pat s with
  | None => s
  | Some i =>
      let before := take i s in
      let after := drop (i + len pat) s in
      before +:+ expand repl pat before after [] +:+ after
  end.

End JS.

(* ===================================================================== *)
(** * Regular expressions *)
(* ===================================================================== *)

Module Re.
Import JS.

(** One member of a character class. *)
Inductive citem : Type :=
| CChar (c : ascii)      (* a literal character *)
| CSpace.                (* the escape for white space *)

(** The pattern syntax used by the source. [Grp n r] is the capturing
    group whose opening parenthesis is the [n]-th of the pattern;
    non-capturing groups are plain sub-terms. *)
Inductive regex : Type :=
| Eps                                   (* the empty pattern *)
| Chr (c : ascii)                       (* a literal character *)
| Cls (neg : bool) (items : list citem) (* a class, negated when [neg] *)
| Cat (r1 r2 : regex)                   (* r1 r2 *)
| Alt (r1 r2 : regex)                   (* r1|r2 *)
| Star (r : regex)                      (* r*, greedy *)
| Grp (n : nat) (r : regex)             (* (r) *)
| NotAhead (r : regex)                  (* (?!r) *)
| Eos.                                  (* $ without the m flag *)

(** r+ and r?, both greedy. *)
Definition Plus (r : regex) : regex := Cat r (Star r).
Definition Opt (r : regex) : regex := Alt r Eps.

(** The characters of [s], one after the other. *)
Fixpoint Str (s : string) : regex :=
  match s with
  | EmptyString => Eps
  | String c s' => Cat (Chr c) (Str s')
  end.

Definition canon (icase : bool) (c : ascii) : ascii :=
  if icase then upper c else c.

Definition item_has (icase : bool) (c : ascii) (i : citem) : bool :=
  match i with
  | CChar d => Ascii.eqb (canon icase c) (canon icase d)
  | CSpace => isSpace c
  end.

Definition cls_has (icase : bool) (neg : bool) (items : list citem)
    (c : ascii) : bool :=
  xorb neg (existsb (item_has icase c) items).

(** Captures recorded so far, the most recent first. *)
Definition caps : Type := list (nat * string).

Fixpoint cap_get (n : nat) (cs : caps) : option string :=
  match cs with
  | [] => None
  | (k, v) :: cs' => if Nat.eqb k n then Some v else cap_get n cs'
  end.

(** Backtracking matcher in continuation-passing style. [rmatch ic r A s
    cs k] matches [r] at the start of [s] and hands the remaining text
    and the captures to [k]; when [k] fails the next alternative is
    tried. An iteration of [Star] that consumes nothing is refused, as
    in ECMAScript. *)
Fixpoint rmatch (ic : bool) (r : regex) :
    forall A : Type, string -> caps -> (string -> caps -> option A) -> option A :=
  match r with
  | Eps => fun A s cs k => k s cs
  | Chr c => fun A s cs k =>
      match s with
      | String a s' =>
          if Ascii.eqb (canon ic a) (canon ic c) then k s' cs else None
      | EmptyString => None
      end
  | Cls neg items => fun A s cs k =>
      match s with
      | String a s' => if cls_has ic neg items a then k s' cs else None
      | EmptyString => None
      end
  | Cat r1 r2 => fun A s cs k =>
      rmatch ic r1 A s cs (fun s1 cs1 => rmatch ic r2 A s1 cs1 k)
  | Alt r1 r2 => fun A s cs k =>
      match rmatch ic r1 A s cs k with
      | Some x => Some x
      | None => rmatch ic r2 A s cs k
      end
  | Star r1 => fun A s cs k =>
      (fix iter (fuel : nat) (s : string) (cs : caps) {struct fuel} : option A :=
         match fuel with
         | 0 => k s cs
         | S fuel' =>
             match rmatch ic r1 A s cs
                     (fun s1 cs1 =>
                        if len s1 <? len s then iter fuel' s1 cs1 else None)
             with
             | Some x => Some x
             | None => k s cs
             end
         end) (len s) s cs
  | Grp n r1 => fun A s cs k =>
      rmatch ic r1 A s cs
        (fun s1 cs1 => k s1 ((n, take (len s - len s1) s) :: cs1))
  | NotAhead r1 => fun A s cs k =>
      match rmatch ic r1 unit s cs (fun _ _ => Some tt) with
      | Some _ => None
      | None => k s cs
      end
  | Eos => fun A s cs k =>
      match s with
      | EmptyString => k s cs
      | String _ _ => None
      end
  end.

(** A successful match: where it starts, the matched text, the captures
    and the text after it. *)
Record mres : Type := MRes {
  m_index : nat;
  m_text : string;
  m_caps : caps;
  m_rest : string
}.

(** Capture [n] of a match; the empty string for a group that did not take part. *)
Definition group (n : nat) (m : mres) : string :=
  match cap_get n (m_caps m) with Some v => v | None => EmptyString end.

(** The captures 1..[n] of a match, as [replace] passes them on. *)
Definition groups (n : nat) (m : mres) : list string :=
  map (fun i => group i m) (seq 1 n).

(** Match [r] at the start of [s], which begins at offset [pos]. *)
Definition match_at (ic : bool) (r : regex) (pos : nat) (s : string)
    : option mres :=
  rmatch ic r mres s []
    (fun rest cs => Some (MRes pos (take (len s - len rest) s) cs rest)).

(** [r.exec(s)] from the start of [s] (at offset [pos] of the subject):
    the leftmost match. *)
Fixpoint search (ic : bool) (r : regex) (pos : nat) (s : string)
    : option mres :=
  match match_at ic r pos s with
  | Some m => Some m
  | None =>
      match s with
      | EmptyString => None
      | String _ s' => search ic r (S pos) s'
      end
  end.

(** [r.test(s)] for a fresh pattern object. *)
Definition test (ic : bool) (r : regex) (s : string) : bool :=
  match search ic r 0 s with Some _ => true | None => false end.

(** [s.replace(r, f)] without the g flag: the leftmost match only. *)
Definition replace1 (ic : bool) (r : regex) (f : mres -> string)
    (s : string) : string :=
  match search ic r 0 s with
  | None => s
  | Some m => take (m_index m) s +:+ f m +:+ m_rest m
  end.

(** The scan of a pattern with the g flag over a subject: every match
    from left to right, each with the unmatched text in front of it, and
    the unmatched text after the last one. After a match the scan goes
    on where the match ended; after an empty match it goes on one
    character further. *)
Definition scanres : Type := list (string * mres) * string.

Definition gap_cons (c : ascii) (r : scanres) : scanres :=
  match r with
  | ([], tl) => ([], String c tl)
  | ((g, m) :: ms, tl) => ((String c g, m) :: ms, tl)
  end.

Fixpoint scan (fuel : nat) (ic : bool) (r : regex) (pos : nat) (s : string)
    : scanres :=
  match fuel with
  | 0 => ([], s)
  | S fuel' =>
      match match_at ic r pos s with
      | Some m =>
          if len (m_rest m) <? len s then
            let '(ms, tl) := scan fuel' ic r (pos + len (m_text m)) (m_rest m) in
            ((EmptyString, m) :: ms, tl)
          else
            match s with
            | EmptyString => ([(EmptyString, m)], EmptyString)
            | String c s' =>
                let '(ms, tl) := gap_cons c (scan fuel' ic r (S pos) s') in
                ((EmptyString, m) :: ms, tl)
            end
      | None =>
          match s with
          | EmptyString => ([], EmptyString)
          | String c s' => gap_cons c (scan fuel' ic r (S pos) s')
          end
      end
  end.

Definition scanAll (ic : bool) (r : regex) (s : string) : scanres :=
  scan (S (len s)) ic r 0 s.

(** The loop [while ((m = r.exec(s)) !== null)] of a pattern with the g
    flag: the matches in order. *)
Definition execAll (ic : bool) (r : regex) (s : string) : list mres :=
  map snd (fst (scanAll ic r s)).

(** Text rebuilt from a scan with every match replaced by [f]. *)
Fixpoint splice (f : mres -> string) (ms : list (string * mres))
    (tl : string) : string :=
  match ms with
  | [] => tl
  | (g, m) :: ms' => g +:+ f m +:+ splice f ms' tl
  end.

(** [s.replace(r, f)] with the g flag and a function. *)
Definition replaceAll (ic : bool) (r : regex) (f : mres -> string)
    (s : string) : string :=
  let '(ms, tl) := scanAll ic r s in splice f ms tl.

(** [s.replace(r, repl)] with the g flag and a replacement string over a
    pattern of [n] groups. *)
Definition replaceAllStr (ic : bool) (r : regex) (n : nat) (repl : string)
    (s : string) : string :=
  replaceAll ic r
    (fun m => expand repl (m_text m) (take (m_index m) s) (m_rest m) (groups n m)) s.

End Re.

(* ===================================================================== *)
(** * Stylesheet rewriting (process-css.ts and css-processor.ts) *)
(* ===================================================================== *)

Module Css.
Import JS Re.

(** The double quote and the line feed, as characters and as strings. *)
Definition dquote : ascii := "034"%char.
Definition dq : string := String dquote EmptyString.
Definition nl : string := String "010"%char EmptyString.

(** A pattern made of consecutive parts. *)
Fixpoint Seq (rs : list regex) : regex :=
  match rs with
  | [] => Eps
  | r :: rs' => Cat r (Seq rs')
  end.

(** The class of the two quote characters. *)
Definition quoteCls : regex := Cls false [CChar "'"; CChar dquote].

(** The pattern [urlRegex] of the source, with the flags g and i:
    [url\(Q?((not Q or closing parenthesis)+\.(jpe?g|png))Q?\)], where Q
    is the class of the two quote characters. *)
Definition urlRegex : regex :=
  Seq [ Str "url("; Opt quoteCls;
        Grp 1 (Seq [ Plus (Cls true [CChar "'"; CChar dquote; CChar ")"]);
                     Chr ".";
                     Grp 2 (Alt (Seq [Str "jp"; Opt (Chr "e"); Chr "g"])
                                (Str "png")) ]);
        Opt quoteCls; Chr ")" ].

(** [/url\(/g] *)
Definition urlOpenRegex : regex := Str "url(".

(** [/,(?![^(]*\))/g] *)
Definition commaOutsideFunctions : regex :=
  Cat (Chr ",") (NotAhead (Cat (Star (Cls true [CChar "("])) (Chr ")"))).

(** [/\.(jpe?g|png)$/i] *)
Definition rasterExtRegex : regex :=
  Seq [ Chr "."; Grp 1 (Alt (Seq [Str "jp"; Opt (Chr "e"); Chr "g"]) (Str "png"));
        Eos ].

(** [/__WEBP_PLACEHOLDER__([^_]+)__([^_]+)__/g] *)
Definition placeholderRegex : regex :=
  Seq [ Str "__WEBP_PLACEHOLDER__"; Grp 1 (Plus (Cls true [CChar "_"]));
        Str "__"; Grp 2 (Plus (Cls true [CChar "_"])); Str "__" ].

(** The pattern built by [new RegExp] around [escapeRegExp(original)]:
    [([^{}]+{[^{}]*url\(Q?original Q?\)[^{}]*})] with the g flag, Q the
    class of the two quote characters.
    [escapeRegExp] puts a backslash in front of every character that is
    special in a pattern, so [original] is matched character by
    character. *)
Definition selectorRegex (original : string) : regex :=
  Grp 1 (Seq [ Plus (Cls true [CChar "{"; CChar "}"]); Chr "{";
               Star (Cls true [CChar "{"; CChar "}"]);
               Str "url("; Opt quoteCls; Str original; Opt quoteCls; Chr ")";
               Star (Cls true [CChar "{"; CChar "}"]); Chr "}" ]).

(** [isMultipleBackground] *)
Definition isMultipleBackground (cssRule : string) : bool :=
  let urlCount := length (execAll false urlOpenRegex cssRule) in
  if 1 <? urlCount then true
  else test false commaOutsideFunctions cssRule.

(** [while (startPos > 0 && cssContent[startPos] !== '{') startPos--] *)
Fixpoint ruleStart (cssContent : string) (startPos : nat) : nat :=
  match startPos with
  | 0 => 0
  | S p =>
      match charAt startPos cssContent with
      | Some "{"%char => startPos
      | _ => ruleStart cssContent p
      end
  end.

(** [while (endPos < cssContent.length && cssContent[endPos] !== '}')
    endPos++], run on the text from [endPos] on. *)
Fixpoint ruleEndFrom (endPos : nat) (rest : string) : nat :=
  match rest with
  | EmptyString => endPos
  | String c rest' =>
      if Ascii.eqb c "}" then endPos else ruleEndFrom (S endPos) rest'
  end.

Definition ruleEnd (cssContent : string) (endPos : nat) : nat :=
  ruleEndFrom endPos (drop endPos cssContent).

(** The text of the rule around [offset], as the callback extracts it. *)
Definition currentRule (cssContent : string) (offset : nat) : string :=
  substring (ruleStart cssContent offset + 1) (ruleEnd cssContent offset)
    cssContent.

Definition placeholder (imgPath webpPath : string) : string :=
  "__WEBP_PLACEHOLDER__" +:+ imgPath +:+ "__" +:+ webpPath +:+ "__".

(** [imgPath.replace(/\.(jpe?g|png)$/i, '.webp')] *)
Definition cssWebpPath (imgPath : string) : string :=
  replace1 true rasterExtRegex (fun _ => ".webp") imgPath.

(** Which references the callback passes over before it looks at the
    rule. process-css.ts also passes over remote images. *)
Definition skippedRef (remote : bool) (imgPath : string) : bool :=
  endsWith ".webp" imgPath || startsWith "data:" imgPath
  || (remote && (startsWith "http://" imgPath || startsWith "https://" imgPath)).

(** The callback of [cssContent.replace(urlRegex, ...)]. [remote] tells
    the two source files apart: [true] for process-css.ts. *)
Definition urlCallback (remote : bool) (cssContent : string) (m : mres)
    : string :=
  let imgPath := group 1 m in
  if skippedRef remote imgPath then m_text m
  else if isMultipleBackground (currentRule cssContent (m_index m))
  then m_text m
  else placeholder imgPath (cssWebpPath imgPath).

(** First stage: every selected reference becomes a placeholder. *)
Definition encodeUrls (remote : bool) (cssContent : string) : string :=
  replaceAll true urlRegex (urlCallback remote cssContent) cssContent.

(** The pairs collected by the [exec] loop over the placeholders. *)
Definition collectReplacements (cssContent : string) : list (string * string) :=
  map (fun m => (group 1 m, group 2 m)) (execAll false placeholderRegex cssContent).

(** [cssContent.replace(placeholderRegex, repl)] where [repl] is
    url( followed by the first capture in double quotes and a closing
    parenthesis. *)
Definition decodePlaceholders (cssContent : string) : string :=
  replaceAllStr false placeholderRegex 2 ("url(" +:+ dq +:+ "$1" +:+ dq +:+ ")")
    cssContent.

(** The selectors of the rules of [originalContent] that use [original],
    one per match of [selectorRegex]. *)
Definition selectorsUsing (original originalContent : string) : list string :=
  map (fun m =>
         let fullRule := group 1 m in
         match indexOf "{" fullRule with
         | Some i => trim (substring 0 i fullRule)
         | None => trim (substring 0 0 fullRule)
         end)
      (execAll false (selectorRegex original) originalContent).

Definition urlOf (p : string) : string := "url(" +:+ dq +:+ p +:+ dq +:+ ")".

(** The two blocks process-css.ts appends for one selector. *)
Definition fallbackPair (selector original webp : string) : string :=
  "html[data-webp-support=" +:+ dq +:+ "yes" +:+ dq +:+ "] {" +:+ nl +:+
  "  " +:+ selector +:+ " { background-image: " +:+ urlOf webp +:+ "; }" +:+ nl +:+
  "}" +:+ nl +:+ nl +:+
  "html[data-webp-support=" +:+ dq +:+ "no" +:+ dq +:+ "] {" +:+ nl +:+
  "  " +:+ selector +:+ " { background-image: " +:+ urlOf original +:+ "; }" +:+ nl +:+
  "}" +:+ nl +:+ nl.

(** The rule css-processor.ts appends inside its supports block. *)
Definition supportsRule (selector original webp : string) : string :=
  "  " +:+ selector +:+ " { background-image: " +:+ urlOf webp +:+ ", " +:+
  urlOf original +:+ "; }" +:+ nl.

Definition concatStr (l : list string) : string :=
  fold_right String.append EmptyString l.

(** Everything appended for the collected pairs, by the block to emit
    per selector. *)
Definition appendedRules (block : string -> string -> string -> string)
    (originalContent : string) (reps : list (string * string)) : string :=
  concatStr
    (map (fun '(original, webp) =>
            concatStr (map (fun sel => block sel original webp)
                           (selectorsUsing original originalContent)))
         reps).

(** The comment lines the two files put in front of what they append
    ([cssHeader] for process-css.ts), as UTF-8 bytes. *)
Definition cssHeader : string :=
  nl +:+ nl +:+ "/* WebP支持检测和替换 - 使用CSS变量方案 */" +:+ nl.

Definition supportsHeader : string :=
  nl +:+ nl +:+ "/* WebP支持检测和替换 */" +:+ nl +:+
  "@supports (background-image: url(data:image/webp;base64,UklGRh4AAABXRUJQVlA4TBEAAAAvAAAAAAfQ//73v/+BiOh/AAA=)) {" +:+ nl.

(** The body of the [forEach] of process-css.ts for one file: the new
    content when the file is written back, [None] when it is left
    alone. *)
Definition processCssContent (originalContent : string) : option string :=
  let cssContent := encodeUrls true originalContent in
  let webpReplacements := collectReplacements cssContent in
  if 0 <? length webpReplacements then
    Some (decodePlaceholders cssContent +:+ cssHeader +:+
          appendedRules fallbackPair originalContent webpReplacements)
  else None.

(** The same for css-processor.ts. *)
Definition processCssContent_supports (originalContent : string)
    : option string :=
  let cssContent := encodeUrls false originalContent in
  let webpReplacements := collectReplacements cssContent in
  if 0 <? length webpReplacements then
    Some (decodePlaceholders cssContent +:+ supportsHeader +:+
          appendedRules supportsRule originalContent webpReplacements +:+
          "}" +:+ nl)
  else None.

End Css.

(* ===================================================================== *)
(** * The file system and the glob patterns *)
(* ===================================================================== *)

Module Fs.
Import JS.

(** The files on disk and the log of the [fs.writeFileSync] calls, the
    latest last. Writing is taken to succeed. *)
Record World : Type := MkWorld {
  files : gmap string Buffer;
  writes : list (string * Buffer)
}.

(** [fs.existsSync(p)] *)
Definition existsSync (p : string) (w : World) : bool :=
  match files w !! p with Some _ => true | None => false end.

(** [fs.readFileSync(p)]: [None] when the call throws. *)
Definition readFileSync (p : string) (w : World) : option Buffer :=
  files w !! p.

(** [fs.writeFileSync(p, data)] *)
Definition writeFileSync (p : string) (data : Buffer) (w : World) : World :=
  MkWorld (<[p := data]> (files w)) (writes w ++ [(p, data)]).

(** [fs.unlinkSync(p)] *)
Definition unlinkSync (p : string) (w : World) : World :=
  MkWorld (delete p (files w)) (writes w).

(** The segments of a path between slashes. *)
Fixpoint segments (acc : string) (p : string) : list string :=
  match p with
  | EmptyString => [acc]
  | String c p' =>
      if Ascii.eqb c "/" then acc :: segments EmptyString p'
      else segments (acc +:+ String c EmptyString) p'
  end.

(** A file or directory name that a star of a glob pattern may match:
    not empty and not starting with a dot. *)
Definition plainName (n : string) : bool :=
  negb (String.eqb n EmptyString) && negb (startsWith "." n).

(** A name matched by [*.ext]. *)
Definition hasExt (ext : string) (n : string) : bool :=
  plainName n && endsWith ("." +:+ ext) n.

Definition isRasterName (n : string) : bool :=
  hasExt "jpg" n || hasExt "jpeg" n || hasExt "png" n.

(** The path of [p] relative to the directory [dir], when [p] lies
    under it. *)
Definition relativeTo (dir p : string) : option string :=
  if startsWith (dir +:+ "/") p then Some (drop (len dir + 1) p) else None.

(** Modelled from the documentation of the glob package, which is not
    part of the repository: whether [p] matches
    [path.join(distDir, '{static/**/*.{jpg,jpeg,png},*.{jpg,jpeg,png}}')]. *)
Definition matchesImageGlob (distDir p : string) : bool :=
  match relativeTo distDir p with
  | None => false
  | Some rel =>
      match List.rev (segments EmptyString rel) with
      | [] => false
      | [name] => isRasterName name
      | name :: dirs =>
          isRasterName name && forallb plainName dirs
          && match List.rev dirs with
             | d :: _ => String.eqb d "static"
             | [] => false
             end
      end
  end.

(** Modelled in the same way: whether [p] matches
    [path.join(outputPath, '**/*.css')]. *)
Definition matchesCssGlob (outputPath p : string) : bool :=
  match relativeTo outputPath p with
  | None => false
  | Some rel =>
      match List.rev (segments EmptyString rel) with
      | [] => false
      | name :: dirs => hasExt "css" name && forallb plainName dirs
      end
  end.

(** [glob.sync] of the two patterns over the files on disk. *)
Definition globImages (distDir : string) (w : World) : list string :=
  List.filter (matchesImageGlob distDir) (map fst (map_to_list (files w))).

Definition globCss (outputPath : string) (w : World) : list string :=
  List.filter (matchesCssGlob outputPath) (map fst (map_to_list (files w))).

End Fs.

(* ===================================================================== *)
(** * The adaptive quality search and the full pass (gen-webp.ts) *)
(* ===================================================================== *)

Module Convert.
Import JS Re Css Fs.

(** [WebpConverterConfig] with every default filled in. *)
Record Config : Type := MkConfig {
  quality : Z;
  lossless : bool;
  onlySmallerFiles : bool;
  minQuality : Z;
  processCss : bool;
  processImport : bool
}.

(** One call [sharp(buffer).webp({quality, lossless}).toBuffer()]. *)
Record Attempt : Type := MkAttempt {
  a_quality : Z;
  a_lossless : bool
}.

(** What the code logs about one image. *)
Inductive Outcome : Type :=
| AlreadyExists               (* the compact file is on disk: early return *)
| Smaller (savedSize : nat)   (* written, smaller than the original *)
| LargerKept                  (* written although not smaller *)
| LargerSkipped               (* not smaller and not written *)
| Failed.                     (* the catch branch *)

(** The counters of [convertToWebp]. *)
Record Stats : Type := MkStats {
  totalFiles : nat;
  smallerFiles : nat;
  skippedFiles : nat;
  totalSaved : nat
}.

Definition noStats : Stats := MkStats 0 0 0 0.

(** [/\.(jpg|jpeg|png)$/] *)
Definition imageExtRegex : regex :=
  Seq [ Chr "."; Grp 1 (Alt (Str "jpg") (Alt (Str "jpeg") (Str "png"))); Eos ].

(** [imagePath.replace(/\.(jpg|jpeg|png)$/, '.webp')] *)
Definition webpPathOf (imagePath : string) : string :=
  replace1 false imageExtRegex (fun _ => ".webp") imagePath.

Section Codec.

(** The codec, which the repository takes from the sharp package:
    [sharpWebp buffer quality lossless] is the buffer the promise
    resolves to, [None] when it rejects. *)
Variable sharpWebp : Buffer -> Z -> bool -> option Buffer.

(** The [while] loop of the search: as long as the buffer at hand is not
    smaller than the original and [currentQuality] has not dropped below
    the floor, encode again and lower [currentQuality] by 5. The result
    is the last buffer ([None] when the codec rejected) and the attempts
    made, in order. *)
Fixpoint lowerQuality (fuel : nat) (imageBuffer : Buffer) (originalSize : nat)
    (minQuality : Z) (webpBuffer : Buffer) (currentQuality : Z)
    : option Buffer * list Attempt :=
  match fuel with
  | 0 => (Some webpBuffer, [])
  | S fuel' =>
      if (originalSize <=? len webpBuffer) && (minQuality <=? currentQuality)%Z
      then
        match sharpWebp imageBuffer currentQuality false with
        | None => (None, [MkAttempt currentQuality false])
        | Some b =>
            let '(r, log) :=
              lowerQuality fuel' imageBuffer originalSize minQuality b
                (currentQuality - 5) in
            (r, MkAttempt currentQuality false :: log)
        end
      else (Some webpBuffer, [])
  end.

(** Iterations the loop can make from [currentQuality]: one per integer
    between the floor and [currentQuality] is more than enough. *)
Definition searchFuel (minQuality currentQuality : Z) : nat :=
  Z.to_nat (currentQuality - minQuality + 1).

(** Lines 107-139 of gen-webp.ts: the first encoding at the configured
    quality, then the search when that is not smaller, the mode is lossy
    and there is room above the floor. *)
Definition transcode (cfg : Config) (imageBuffer : Buffer)
    : option Buffer * list Attempt :=
  let originalSize := len imageBuffer in
  match sharpWebp imageBuffer (quality cfg) (lossless cfg) with
  | None => (None, [MkAttempt (quality cfg) (lossless cfg)])
  | Some webpBuffer =>
      if (originalSize <=? len webpBuffer) && negb (lossless cfg)
         && (minQuality cfg <? quality cfg)%Z
      then
        let currentQuality := (quality cfg - 5)%Z in
        let '(r, log) :=
          lowerQuality (searchFuel (minQuality cfg) currentQuality)
            imageBuffer originalSize (minQuality cfg) webpBuffer currentQuality in
        (r, MkAttempt (quality cfg) (lossless cfg) :: log)
      else (Some webpBuffer, [MkAttempt (quality cfg) (lossless cfg)])
  end.

(** The quality of the attempt that produced the returned buffer. *)
Fixpoint lastAttempt (log : list Attempt) : option Attempt :=
  match log with
  | [] => None
  | [a] => Some a
  | _ :: log' => lastAttempt log'
  end.

Definition acceptedQuality (log : list Attempt) : option Z :=
  option_map a_quality (lastAttempt log).

(** Lines 141-192: keep or drop the encoded buffer. *)
Definition retain (cfg : Config) (webpPath : string) (originalSize : nat)
    (webpBuffer : Buffer) (w : World) : World * Outcome :=
  let webpSize := len webpBuffer in
  if (webpSize <? originalSize) || negb (onlySmallerFiles cfg) then
    let w' := writeFileSync webpPath webpBuffer w in
    if webpSize <? originalSize
    then (w', Smaller (originalSize - webpSize))
    else (w', LargerKept)
  else (w, LargerSkipped).

Definition countOutcome (o : Outcome) (st : Stats) : Stats :=
  match o with
  | Smaller saved =>
      MkStats (totalFiles st) (S (smallerFiles st)) (skippedFiles st)
        (totalSaved st + saved)
  | LargerSkipped =>
      MkStats (totalFiles st) (smallerFiles st) (S (skippedFiles st))
        (totalSaved st)
  | _ => st
  end.

(** An image whose callback has reached its first [await]. *)
Record Job : Type := MkJob {
  j_path : string;
  j_buffer : Buffer;
  j_webpPath : string
}.

(** The callback of [imageFiles.map] up to its first [await]: count the
    file, read it, and return early when the compact file exists. These
    prefixes all run, in the order of [imageFiles], before any of the
    callbacks goes on. *)
Definition startJob (w : World) (imagePath : string) : Job + Outcome :=
  match readFileSync imagePath w with
  | None => inr Failed
  | Some imageBuffer =>
      let webpPath := webpPathOf imagePath in
      if existsSync webpPath w then inr AlreadyExists
      else inl (MkJob imagePath imageBuffer webpPath)
  end.

(** The rest of the callback, from the first [await] on. Only the part
    after the last [await] touches the disk and the counters, so the
    callbacks that go on take effect one after the other. *)
Definition finishJob (cfg : Config) (j : Job) (w : World)
    : World * Outcome * list Attempt :=
  match transcode cfg (j_buffer j) with
  | (None, log) => (w, Failed, log)
  | (Some webpBuffer, log) =>
      let '(w', o) := retain cfg (j_webpPath j) (len (j_buffer j)) webpBuffer w in
      (w', o, log)
  end.

(** One entry of the report of a pass. *)
Record Report : Type := MkReport {
  r_path : string;
  r_outcome : Outcome;
  r_attempts : list Attempt
}.

Fixpoint finishJobs (cfg : Config) (js : list Job) (w : World) (st : Stats)
    : World * Stats * list Report :=
  match js with
  | [] => (w, st, [])
  | j :: js' =>
      let '(w1, o, log) := finishJob cfg j w in
      let '(w2, st2, rs) := finishJobs cfg js' w1 (countOutcome o st) in
      (w2, st2, MkReport (j_path j) o log :: rs)
  end.

Definition jobsOf (l : list (string * (Job + Outcome))) : list Job :=
  omap (fun x => match snd x with inl j => Some j | inr _ => None end) l.

Definition earlyOf (l : list (string * (Job + Outcome))) : list Report :=
  omap (fun x => match snd x with
                 | inl _ => None
                 | inr o => Some (MkReport (fst x) o [])
                 end) l.

(** The order in which the pending conversions complete is not fixed by
    the code; [sched] stands for it. *)
Variable sched : list Job -> list Job.

(** The image part of [convertToWebp]. *)
Definition convertImages (cfg : Config) (distDir : string) (w : World)
    : World * Stats * list Report :=
  let imageFiles := globImages distDir w in
  let started := map (fun p => (p, startJob w p)) imageFiles in
  let st := MkStats (length imageFiles) 0 0 0 in
  let '(w', st', rs) := finishJobs cfg (sched (jobsOf started)) w st in
  (w', st', earlyOf started ++ rs).

(** [processCssFiles] of process-css.ts: every stylesheet under
    [outputPath] in turn; the number of files written back. *)
Fixpoint processCssList (cssFiles : list string) (w : World) : World * nat :=
  match cssFiles with
  | [] => (w, 0)
  | cssFilePath :: rest =>
      match readFileSync cssFilePath w with
      | None => processCssList rest w
      | Some cssContent =>
          match processCssContent cssContent with
          | Some newContent =>
              let '(w', n) :=
                processCssList rest (writeFileSync cssFilePath newContent w) in
              (w', S n)
          | None => processCssList rest w
          end
      end
  end.

Definition processCssFiles (outputPath : string) (w : World) : World * nat :=
  processCssList (globCss outputPath w) w.

(** [convertToWebp]: the images, then the stylesheets when [processCss]
    is set. *)
Definition convertToWebp (cfg : Config) (distDir : string) (w : World)
    : World * Stats * list Report :=
  let '(w1, st, rs) := convertImages cfg distDir w in
  if processCss cfg then (fst (processCssFiles distDir w1), st, rs)
  else (w1, st, rs).

End Codec.

End Convert.

(* ===================================================================== *)
(** * The import loader (webpack-import-loader.ts) *)
(* ===================================================================== *)

Module Loader.
Import JS Re Css Fs Convert.

Inductive ImportType : Type := TImport | TRequire.
Inductive QuoteType : Type := QSingle | QDouble.

Record ImportPattern : Type := MkPattern {
  p_regex : regex;
  p_type : ImportType;
  p_quoteType : QuoteType
}.

(** White space, one or more and zero or more. *)
Definition ws1 : regex := Plus (Cls false [CSpace]).
Definition ws0 : regex := Star (Cls false [CSpace]).

(** [IMAGE_PATH_PATTERN]: [\.(?:jpe?g|png)(?:!webp)?] *)
Definition imagePathPattern : regex :=
  Seq [ Chr "."; Alt (Seq [Str "jp"; Opt (Chr "e"); Chr "g"]) (Str "png");
        Opt (Str "!webp") ].

(** The quoted path of a statement: group 2 is the path with its
    extension and marker, group 3 the part in front of the extension.
    [q] is the quote character of the pattern. *)
Definition quotedPath (q : ascii) : regex :=
  Seq [ Cls false [CChar q];
        Grp 2 (Seq [Grp 3 (Plus (Cls true [CChar q])); imagePathPattern]);
        Cls false [CChar q] ].

(** [import\s+([^\s]+)\s+from\s+Q((not Q)+ IMAGE_PATH_PATTERN)Q] with
    the g flag, Q the quote character. *)
Definition importRegex (q : ascii) : regex :=
  Seq [ Str "import"; ws1; Grp 1 (Plus (Cls true [CSpace])); ws1;
        Str "from"; ws1; quotedPath q ].

(** [const\s+([^\s=]+)\s*=\s*require\s*\(\s*Q(...)Q\s*\)] with the g
    flag. *)
Definition requireRegex (q : ascii) : regex :=
  Seq [ Str "const"; ws1; Grp 1 (Plus (Cls true [CSpace; CChar "="])); ws0;
        Chr "="; ws0; Str "require"; ws0; Chr "("; ws0; quotedPath q; ws0;
        Chr ")" ].

Definition importPatterns : list ImportPattern :=
  [ MkPattern (importRegex "'") TImport QSingle;
    MkPattern (importRegex dquote) TImport QDouble;
    MkPattern (requireRegex "'") TRequire QSingle;
    MkPattern (requireRegex dquote) TRequire QDouble ].

(** [DISABLE_COMMENT_PATTERN]:
    [/\/\*\*\s*disabled-webp-convert-plugin\s*\*\//] *)
Definition disableCommentPattern : regex :=
  Seq [ Str "/**"; ws0; Str "disabled-webp-convert-plugin"; ws0; Str "*/" ].

(** [/!webp$/] *)
Definition skipMarkRegex : regex := Seq [Str "!webp"; Eos].

(** [/\.(js|jsx|ts|tsx)$/] and [/node_modules/] *)
Definition scriptExtRegex : regex :=
  Seq [ Chr ".";
        Grp 1 (Alt (Str "js") (Alt (Str "jsx") (Alt (Str "ts") (Str "tsx"))));
        Eos ].
Definition nodeModulesRegex : regex := Str "node_modules".

(** [ImportInfo]. The field [fileInfo] only describes the extension of
    the path and is read nowhere; it is left out. *)
Record ImportInfo : Type := MkImport {
  i_type : ImportType;
  i_quoteType : QuoteType;
  i_variableName : string;
  i_path : string;
  i_fullMatch : string;
  i_startIndex : nat;
  i_endIndex : nat;
  i_imagePath : option string;
  i_resolveError : option string;
  i_skipWebpConversion : bool
}.

(** The options the loader receives; [None] is [undefined]. *)
Record LoaderOptions : Type := MkOptions {
  o_quality : option Z;
  o_lossless : option bool;
  o_onlySmallerFiles : option bool;
  o_minQuality : option Z
}.

(** [x || d] on an optional number: 0 is falsy. *)
Definition orNum (x : option Z) (d : Z) : Z :=
  match x with
  | Some v => if (v =? 0)%Z then d else v
  | None => d
  end.

Definition orBool (x : option bool) : bool :=
  match x with Some b => b | None => false end.

(** The settings the loader derives from its options. [onlySmallerFiles]
    is read as it is, so [undefined] counts as [false]. *)
Definition loaderConfig (o : LoaderOptions) : Config :=
  MkConfig (orNum (o_quality o) 85) (orBool (o_lossless o))
    (orBool (o_onlySmallerFiles o)) (orNum (o_minQuality o) 70) true true.

(** What a run of the loader reads and changes: the disk, the set
    [processedImagePaths], the set of temporary compact files and the
    codec calls, by image path. *)
Record LState : Type := MkLState {
  l_world : World;
  l_processed : gset string;
  l_temp : gset string;
  l_attempts : list (string * list Attempt);
  l_modifiedSource : string;
  l_imports : list ImportInfo
}.

(** [importPath.replace(/!webp$/, '')] *)
Definition stripMark (importPath : string) : string :=
  replace1 false skipMarkRegex (fun _ => EmptyString) importPath.

(** [modifiedSource.replace(fullMatch, fullMatch.replace(path, newPath))] *)
Definition patch (fullMatch path newPath modifiedSource : string) : string :=
  replaceStr fullMatch (replaceStr path newPath fullMatch) modifiedSource.

(** [s.lastIndexOf('/')]: [None] stands for -1. *)
Fixpoint lastSlash (pos : nat) (s : string) : option nat :=
  match s with
  | EmptyString => None
  | String c s' =>
      match lastSlash (S pos) s' with
      | Some i => Some i
      | None => if Ascii.eqb c "/" then Some pos else None
      end
  end.

(** [contextPath.substring(0, contextPath.lastIndexOf('/'))] *)
Definition contextDir (contextPath : string) : string :=
  match lastSlash 0 contextPath with
  | Some i => substring 0 i contextPath
  | None => EmptyString
  end.

(** The development branch (lines 216-247): only the markers are
    removed. *)
Definition devStep (modifiedSource : string) (m : mres) : string :=
  let importPath := group 2 m in
  if endsWith "!webp" importPath
  then patch (m_text m) importPath (stripMark importPath) modifiedSource
  else modifiedSource.

Definition devLoader (source : string) : string :=
  fold_left
    (fun acc pattern => fold_left devStep (execAll false (p_regex pattern) source) acc)
    importPatterns source.

Section Run.

Variable sharpWebp : Buffer -> Z -> bool -> option Buffer.

(** [loaderContext.resolve(context, request, callback)] of webpack: the
    resolved path, or the message of the error. *)
Variable resolve : string -> string -> string + string.

(** Whether [webpLoaderContext.addTmpWebpFile] is there to call. *)
Variable hasTmpTracker : bool.

(** How the body of the [while] loop ends for one match. *)
Inductive Ending : Type :=
| Continued                            (* the [continue] statement *)
| Completed (rewritePath : bool)       (* the end of the [try] block *)
| Caught (message : string).           (* the [catch] block *)

(** The [try] block of the loop body for the match [m] (lines 320-464):
    the state after it and how it ended. *)
Definition tryBlock (cfg : Config) (resourcePath : string)
    (cleanPath : string) (skipWebpConversion : bool) (st : LState)
    : LState * option string * Ending :=
  match resolve (contextDir resourcePath) cleanPath with
  | inr message => (st, None, Caught message)
  | inl imagePath =>
      if bool_decide (imagePath ∈ l_processed st) then
        (st, Some imagePath, Continued)
      else if existsSync imagePath (l_world st) && negb skipWebpConversion then
        let st1 :=
          MkLState (l_world st) ({[imagePath]} ∪ l_processed st) (l_temp st)
            (l_attempts st) (l_modifiedSource st) (l_imports st) in
        match readFileSync imagePath (l_world st1) with
        | None => (st1, Some imagePath, Caught "ENOENT")
        | Some imageBuffer =>
            let '(r, log) := transcode sharpWebp cfg imageBuffer in
            let st2 :=
              MkLState (l_world st1) (l_processed st1) (l_temp st1)
                (l_attempts st1 ++ [(imagePath, log)])
                (l_modifiedSource st1) (l_imports st1) in
            match r with
            | None => (st2, Some imagePath, Caught "sharp")
            | Some webpBuffer =>
                let '(w', o) :=
                  retain cfg (webpPathOf imagePath) (len imageBuffer)
                    webpBuffer (l_world st2) in
                match o with
                | LargerSkipped => (st2, Some imagePath, Completed false)
                | _ =>
                    (MkLState w' (l_processed st2)
                       (if hasTmpTracker
                        then {[webpPathOf imagePath]} ∪ l_temp st2
                        else l_temp st2)
                       (l_attempts st2) (l_modifiedSource st2) (l_imports st2),
                     Some imagePath, Completed true)
                end
            end
        end
      else (st, Some imagePath, Completed false)
  end.

(** The whole loop body for one match (lines 294-492). *)
Definition processMatch (cfg : Config) (resourcePath : string)
    (isFileDisabled : bool) (pattern : ImportPattern) (st : LState) (m : mres)
    : LState :=
  let importPath := group 2 m in
  let hasSkipWebpMark := endsWith "!webp" importPath in
  let cleanPath := if hasSkipWebpMark then stripMark importPath else importPath in
  let skip := isFileDisabled || hasSkipWebpMark in
  let '(st1, imagePath, ending) := tryBlock cfg resourcePath cleanPath skip st in
  match ending with
  | Continued => st1
  | _ =>
      let importInfo :=
        MkImport (p_type pattern) (p_quoteType pattern) (group 1 m) importPath
          (m_text m) (m_index m) (m_index m + len (m_text m)) imagePath
          (match ending with Caught e => Some e | _ => None end) skip in
      let rewritePath :=
        match ending with Completed b => b | _ => false end in
      let src :=
        if hasSkipWebpMark then
          patch (m_text m) importPath (stripMark importPath) (l_modifiedSource st1)
        else if rewritePath then
          patch (m_text m) importPath (webpPathOf importPath) (l_modifiedSource st1)
        else l_modifiedSource st1 in
      MkLState (l_world st1) (l_processed st1) (l_temp st1) (l_attempts st1)
        src (l_imports st1 ++ [importInfo])
  end.

(** [self.findIndex(t => t.fullMatch === fullMatch)] *)
Fixpoint findIndex (fullMatch : string) (self : list ImportInfo) : option nat :=
  match self with
  | [] => None
  | t :: self' =>
      if String.eqb (i_fullMatch t) fullMatch then Some 0
      else option_map S (findIndex fullMatch self')
  end.

(** [imports.filter((item, index, self) => index === self.findIndex(...))] *)
Fixpoint dedupFrom (index : nat) (items self : list ImportInfo)
    : list ImportInfo :=
  match items with
  | [] => []
  | item :: items' =>
      if bool_decide (findIndex (i_fullMatch item) self = Some index)
      then item :: dedupFrom (S index) items' self
      else dedupFrom (S index) items' self
  end.

Definition dedupImports (imports : list ImportInfo) : list ImportInfo :=
  dedupFrom 0 imports imports.

(** [processImports] (lines 287-527): every match of every pattern over
    [source], then the list of imports without duplicates. *)
Definition scanImports (cfg : Config) (resourcePath : string)
    (isFileDisabled : bool) (source : string) (st : LState) : LState :=
  fold_left
    (fun acc pattern =>
       fold_left (processMatch cfg resourcePath isFileDisabled pattern)
         (execAll false (p_regex pattern) source) acc)
    importPatterns st.

(** The shared state the loader finds when it starts. *)
Record Shared : Type := MkShared {
  s_world : World;
  s_processed : gset string;
  s_temp : gset string
}.

Record LoaderResult : Type := MkResult {
  out_source : string;
  out_imports : list ImportInfo;
  out_shared : Shared;
  out_attempts : list (string * list Attempt)
}.

(** [loader]: [isProduction] is [process.env.NODE_ENV === 'production']. *)
Definition loader (isProduction : bool) (options : LoaderOptions)
    (resourcePath source : string) (sh : Shared) : LoaderResult :=
  if negb (test false scriptExtRegex resourcePath)
     || test false nodeModulesRegex resourcePath
  then MkResult source [] sh []
  else if negb isProduction then MkResult (devLoader source) [] sh []
  else
    let isFileDisabled := test false disableCommentPattern (take 500 source) in
    let st0 := MkLState (s_world sh) (s_processed sh) (s_temp sh) [] source [] in
    let st := scanImports (loaderConfig options) resourcePath isFileDisabled
                source st0 in
    MkResult (l_modifiedSource st) (dedupImports (l_imports st))
      (MkShared (l_world st) (l_processed st) (l_temp st)) (l_attempts st).

End Run.

End Loader.

(* ===================================================================== *)
(** * The plugin entry (index.ts) *)
(* ===================================================================== *)

Module Plugin.
Import JS Fs Convert.














(** The singleton of context.ts. *)
Record Context : Type := MkContext {
  processedImagePaths : gset string;
  tempWebpFiles : gset string
}.

(** The callback given to [forEachTempWebpFile]: delete the file when it
    exists. *)
Definition cleanTemp (w : World) (tmp : list string) : World :=
  fold_left (fun acc filePath =>
               if existsSync filePath acc then unlinkSync filePath acc else acc)
            tmp w.

Section Build.

Variable sharpWebp : Buffer -> Z -> bool -> option Buffer.
Variable sched : list Job -> list Job.

(** [api.onBuildComplete]: nothing on a failed build or outside
    production; otherwise the temporary files are removed, both sets are
    cleared when there was a temporary file, and the full pass runs. *)
Definition onBuildComplete (err isProduction : bool) (config : Config)
    (distDir : string) (ctx : Context) (w : World)
    : Context * World * option (Stats * list Report) :=
  if err || negb isProduction then (ctx, w, None)
  else
    let '(ctx1, w1) :=
      if 0 <? size (tempWebpFiles ctx)
      then (MkContext ∅ ∅, cleanTemp w (elements (tempWebpFiles ctx)))
      else (ctx, w) in
    let '(w2, st, rs) := convertToWebp sharpWebp sched config distDir w1 in
    (ctx1, w2, Some (st, rs)).


End Build.

End Plugin.

(* ===================================================================== *)
(** * escapeRegExp (process-css.ts, css-processor.ts) *)
(* ===================================================================== *)

Module Escape.
Import JS Re.

(** The class of [/[.*+?^${}()|[\]\\]/g]: the fourteen characters that
    are special in a pattern. *)
Definition specialChars : list ascii :=
  [ "."; "*"; "+"; "?"; "^"; "$"; "{"; "}"; "("; ")"; "|"; "["; "]"; "\" ]%char.

Definition specialRegex : regex := Cls false (map CChar specialChars).

(** [string.replace(/[.*+?^${}()|[\]\\]/g, '\\$&')]: the replacement
    string is a backslash followed by the pattern for the matched
    text. *)
Definition escapeRegExp (s : string) : string :=
  replaceAllStr false specialRegex 0 "\$&" s.

End Escape.

(* ===================================================================== *)
(** * extractFileInfo (webpack-import-loader.ts, the plugin class) *)
(* ===================================================================== *)

Module FileInfo.
Import JS Re Css.

(** ASCII lower-casing; [toLowerCase] on text whose letters are
    ASCII. *)
Definition lower (c : ascii) : ascii :=
  let n := nat_of_ascii c in
  if (65 <=? n) && (n <=? 90) then ascii_of_nat (n + 32) else c.

Fixpoint toLowerCase (s : string) : string :=
  match s with
  | EmptyString => EmptyString
  | String c s' => String (lower c) (toLowerCase s')
  end.

Record FileInfo : Type := MkFileInfo {
  f_path : string;
  f_ext : string;
  f_isImage : bool
}.

(** [/\.([^.]+)(?:!webp)?$/], the pattern of the loader. *)
Definition extRegex : regex :=
  Seq [ Chr "."; Grp 1 (Plus (Cls true [CChar "."])); Opt (Str "!webp"); Eos ].

(** [/\.([^.]+)$/], the pattern of the plugin class. *)
Definition plainExtRegex : regex :=
  Seq [ Chr "."; Grp 1 (Plus (Cls true [CChar "."])); Eos ].

(** [/^jpe?g$|^png$/]: both alternatives are anchored at the start, so
    the pattern is tried at position 0 only. *)
Definition imageExtTest : regex :=
  Alt (Seq [Str "jp"; Opt (Chr "e"); Chr "g"; Eos]) (Seq [Str "png"; Eos]).

Definition isImageExt (ext : string) : bool :=
  match match_at false imageExtTest 0 ext with Some _ => true | None => false end.

(** The body shared by the two versions, over the pattern each uses. *)
Definition extractWith (r : regex) (filePath : string) : FileInfo :=
  let ext :=
    match search false r 0 filePath with
    | Some extMatch => toLowerCase (group 1 extMatch)
    | None => EmptyString
    end in
  MkFileInfo filePath ext (isImageExt ext).

(** [extractFileInfo] of webpack-import-loader.ts. *)
Definition extractFileInfo (filePath : string) : FileInfo :=
  extractWith extRegex filePath.

(** [WebpackImportWebpPlugin.extractFileInfo] *)
Definition extractFileInfo_plugin (filePath : string) : FileInfo :=
  extractWith plainExtRegex filePath.

End FileInfo.

(* ===================================================================== *)
(** * injectWebPDetector (the HTML injector) *)
(* ===================================================================== *)

Module Html.
Import JS Css Fs.

(** The script wrapped in its tag. *)
Definition scriptTag (scriptContent : string) : string :=
  "<script>" +:+ nl +:+ scriptContent +:+ nl +:+ "</script>".

(** What the callback of [htmlFiles.forEach] does to the text of one
    page: [None] when the page is skipped, the text written back
    otherwise. *)
Definition injectInto (scriptContent htmlContent : string) : option string :=
  if includes "--webp-support" htmlContent || includes "detectWebP" htmlContent
  then None
  else
    let tag := scriptTag scriptContent in
    Some (if includes "</head>" htmlContent then
            replaceStr "</head>" (tag +:+ nl +:+ "</head>") htmlContent
          else if includes "<body>" htmlContent then
            replaceStr "<body>" ("<body>" +:+ nl +:+ tag) htmlContent
          else tag +:+ nl +:+ htmlContent).

(** Modelled from the documentation of the glob package, as the two
    patterns of the conversion: whether [p] matches
    [path.join(outputPath, '**/*.html')]. *)
Definition matchesHtmlGlob (outputPath p : string) : bool :=
  match relativeTo outputPath p with
  | None => false
  | Some rel =>
      match List.rev (segments EmptyString rel) with
      | [] => false
      | name :: dirs => hasExt "html" name && forallb plainName dirs
      end
  end.

Definition globHtml (outputPath : string) (w : World) : list string :=
  List.filter (matchesHtmlGlob outputPath) (map fst (map_to_list (files w))).

(** The loop over the pages: the disk after it and the number of pages
    written. *)
Fixpoint injectList (scriptContent : string) (htmlFiles : list string)
    (w : World) : World * nat :=
  match htmlFiles with
  | [] => (w, 0)
  | htmlFilePath :: rest =>
      match readFileSync htmlFilePath w with
      | None => injectList scriptContent rest w
      | Some htmlContent =>
          match injectInto scriptContent htmlContent with
          | None => injectList scriptContent rest w
          | Some newContent =>
              let '(w', n) :=
                injectList scriptContent rest
                  (writeFileSync htmlFilePath newContent w) in
              (w', S n)
          end
      end
  end.

(** [injectWebPDetector]: [None] when the script cannot be read, which
    throws before any page is looked at. [scriptPath] is the path of
    webp-detector.js next to the module. *)
Definition injectWebPDetector (scriptPath outputPath : string) (w : World)
    : option (World * nat) :=
  match readFileSync scriptPath w with
  | None => None
  | Some scriptContent =>
      Some (injectList scriptContent (globHtml outputPath w) w)
  end.

End Html.

(* ===================================================================== *)
(** * The type declarations appended by the plugin (index.ts) *)
(* ===================================================================== *)

Module Typings.
Import JS Css Fs.

(** One [declare module] block of the template. *)
Definition declareModule (pattern : string) : string :=
  "declare module '" +:+ pattern +:+ "' {" +:+ nl +:+
  "  const src: string;" +:+ nl +:+
  "  export default src;" +:+ nl +:+
  "}" +:+ nl.

(** The template literal [webpTypes]. *)
Definition webpTypes : string :=
  nl +:+ "// WebP图片类型声明" +:+ nl +:+
  declareModule "*.jpg!webp" +:+ nl +:+
  declareModule "*.jpeg!webp" +:+ nl +:+
  declareModule "*.png!webp".

(** [fs.appendFileSync(p, data)]: the file is created when it is not
    there. *)
Definition appendFileSync (p : string) (data : string) (w : World) : World :=
  match readFileSync p w with
  | Some old => writeFileSync p (old +:+ data) w
  | None => writeFileSync p data w
  end.

(** The callback of [api.onGenerateFiles]; [typingsPath] is
    [path.join(api.paths.absTmpPath, 'typings.d.ts')]. *)
Definition onGenerateFiles (typingsPath : string) (w : World) : World :=
  if existsSync typingsPath w then
    match readFileSync typingsPath w with
    | Some existingContent =>
        if negb (includes "*.jpg!webp" existingContent)
        then appendFileSync typingsPath webpTypes w
        else w
    | None => w
    end
  else w.

End Typings.

(* ===================================================================== *)
(** * The list of temporary files of the plugin class *)
(* ===================================================================== *)

Module Tracker.
Import JS Fs.

(** [webpLoaderContext.addTmpWebpFile] of [WebpackImportWebpPlugin]:
    the array [tempWebpFiles] after the call. *)
Definition addTmpWebpFile (filePath : string) (tempWebpFiles : list string)
    : list string :=
  if bool_decide (filePath ∈ tempWebpFiles) then tempWebpFiles
  else tempWebpFiles ++ [filePath].

End Tracker.

(* ===================================================================== *)
(** * Notions used to state and prove the properties *)
(* ===================================================================== *)

Module Notions.
Import JS Re Css Fs Convert Loader Plugin.

(** ** Strings *)

(** [t] is what is left of [s] after some prefix. *)
Definition suffix (t s : string) : Prop := exists pre, s = pre +:+ t.

(** The last character of a string. *)
Fixpoint lastChar (s : string) : option ascii :=
  match s with
  | EmptyString => None
  | String c EmptyString => Some c
  | String _ s' => lastChar s'
  end.

(** Any character but the underscore. *)
Definition notUnderscore (c : ascii) : bool := negb (Ascii.eqb c "_").

(** ** The matcher *)

(** The iteration inside [rmatch] for [Star r], as a function of its
    own. *)
Definition starIter (ic : bool) (r : regex) (A : Type)
    (k : string -> caps -> option A) : nat -> string -> caps -> option A :=
  fix iter (fuel : nat) (s : string) (cs : caps) {struct fuel} : option A :=
    match fuel with
    | 0 => k s cs
    | S fuel' =>
        match rmatch ic r A s cs
                (fun s1 cs1 => if len s1 <? len s then iter fuel' s1 cs1 else None)
        with
        | Some x => Some x
        | None => k s cs
        end
    end.

(** Zero or more steps of [R], each consuming something. *)
Inductive steps (R : string -> caps -> string -> caps -> Prop)
    : string -> caps -> string -> caps -> Prop :=
| steps_nil s cs : steps R s cs s cs
| steps_cons s cs s1 cs1 s2 cs2 :
    R s cs s1 cs1 -> len s1 < len s -> steps R s1 cs1 s2 cs2 ->
    steps R s cs s2 cs2.

(** [shape ic r s cs s' cs'] holds when [r] may consume the text between
    [s] and [s'], turning the captures [cs] into [cs']. A negative
    lookahead is left unconstrained, so the relation contains every
    match and possibly more. *)
Fixpoint shape (ic : bool) (r : regex)
    : string -> caps -> string -> caps -> Prop :=
  match r with
  | Eps => fun s cs s' cs' => s' = s /\ cs' = cs
  | Chr c => fun s cs s' cs' =>
      exists a, s = String a s' /\ canon ic a = canon ic c /\ cs' = cs
  | Cls neg items => fun s cs s' cs' =>
      exists a, s = String a s' /\ cls_has ic neg items a = true /\ cs' = cs
  | Cat r1 r2 => fun s cs s' cs' =>
      exists s1 cs1, shape ic r1 s cs s1 cs1 /\ shape ic r2 s1 cs1 s' cs'
  | Alt r1 r2 => fun s cs s' cs' =>
      shape ic r1 s cs s' cs' \/ shape ic r2 s cs s' cs'
  | Star r1 => steps (shape ic r1)
  | Grp n r1 => fun s cs s' cs' =>
      exists cs1, shape ic r1 s cs s' cs1
                  /\ cs' = (n, take (len s - len s') s) :: cs1
  | NotAhead _ => fun s cs s' cs' => s' = s /\ cs' = cs
  | Eos => fun s cs s' cs' => s = EmptyString /\ s' = EmptyString /\ cs' = cs
  end.

(** Whether a character sequence stops being in a class at the start
    of [s]. *)
Definition stopsAt (f : ascii -> bool) (s : string) : bool :=
  match s with
  | EmptyString => true
  | String c _ => negb (f c)
  end.

(** The scan with the fuel [scanAll] gives it. *)
Definition scanFrom (ic : bool) (r : regex) (pos : nat) (s : string) : scanres :=
  scan (S (len s)) ic r pos s.

(** A scan result with text put in front of it. *)
Fixpoint gap_app (g : string) (r : scanres) : scanres :=
  match g with
  | EmptyString => r
  | String c g' => gap_cons c (gap_app g' r)
  end.

(** The text a scan result stands for when every match is replaced by
    [f]. *)
Definition spliceR (f : mres -> string) (r : scanres) : string :=
  splice f (fst r) (snd r).

(** A pattern without capturing groups. *)
Fixpoint groupFree (r : regex) : bool :=
  match r with
  | Eps | Chr _ | Cls _ _ | Eos | NotAhead _ => true
  | Cat r1 r2 | Alt r1 r2 => groupFree r1 && groupFree r2
  | Star r1 => groupFree r1
  | Grp _ _ => false
  end.

(** ** The quality search and the full pass *)

(** The attempts of a search that starts at [q] and makes [n] encodings,
    each 5 below the one before. *)
Definition descending (q : Z) (n : nat) : list Attempt :=
  map (fun j : nat => MkAttempt (q - 5 * Z.of_nat j) false) (seq 0 n).

(** A path that ends in one of the three extensions. *)
Definition rasterPath (p : string) : Prop :=
  exists stem ext, p = stem +:+ ext /\ (ext = ".jpg" \/ ext = ".jpeg" \/ ext = ".png").

(** Whether the rest of the callback writes the compact file of [j]. *)
Definition keeps (sharpWebp : Buffer -> Z -> bool -> option Buffer)
    (cfg : Config) (j : Job) : bool :=
  match transcode sharpWebp cfg (j_buffer j) with
  | (Some buf, _) => (len buf <? len (j_buffer j)) || negb (onlySmallerFiles cfg)
  | (None, _) => false
  end.

(** ** Stylesheets *)






Definition placeholderMark : string := "__WEBP_PLACEHOLDER__".

(** Whether the callback turns the reference [m] into a placeholder. *)
Definition selected (remote : bool) (css : string) (m : mres) : bool :=
  negb (skippedRef remote (group 1 m))
  && negb (isMultipleBackground (currentRule css (m_index m))).

(** A selected reference with the path in double quotes; any other
    reference as it is. *)
Definition requote (remote : bool) (css : string) (m : mres) : string :=
  if selected remote css m then urlOf (group 1 m) else m_text m.

(** The replacement [decodePlaceholders] makes for a match. *)
Definition decodeOne (m : mres) : string := urlOf (group 1 m).

(** Text made of plain parts and placeholders. *)
Inductive part : Type :=
| Plain (t : string)
| Holder (p w : string).

Definition partText (x : part) : string :=
  match x with Plain t => t | Holder p w => placeholder p w end.

Definition partDecoded (x : part) : string :=
  match x with Plain t => t | Holder p w => urlOf p end.

Fixpoint pairsOf (xs : list part) : list (string * string) :=
  match xs with
  | [] => []
  | Plain _ :: xs' => pairsOf xs'
  | Holder p w :: xs' => (p, w) :: pairsOf xs'
  end.

Definition partOk (x : part) : Prop :=
  match x with
  | Plain t => allChars notUnderscore t = true
  | Holder p w =>
      p <> EmptyString /\ w <> EmptyString
      /\ allChars notUnderscore p = true /\ allChars notUnderscore w = true
  end.

Definition textOf (xs : list part) : string := concatStr (map partText xs).
Definition decodedOf (xs : list part) : string := concatStr (map partDecoded xs).

(** The encoded text as a list of parts. *)
Fixpoint partsOf (remote : bool) (css : string) (ms : list (string * mres))
    (tl : string) : list part :=
  match ms with
  | [] => [Plain tl]
  | (g, m) :: ms' =>
      Plain g
      :: (if selected remote css m
          then Holder (group 1 m) (cssWebpPath (group 1 m))
          else Plain (m_text m))
      :: partsOf remote css ms' tl
  end.


(** ** The loader *)

(** The items whose matched text is not in [seen] and did not occur
    earlier in the list. *)
Fixpoint firstOccurrences (seen : list string) (items : list ImportInfo)
    : list ImportInfo :=
  match items with
  | [] => []
  | item :: items' =>
      if bool_decide (i_fullMatch item ∈ seen)
      then firstOccurrences (seen ++ [i_fullMatch item]) items'
      else item :: firstOccurrences (seen ++ [i_fullMatch item]) items'
  end.




(** ** The plugin *)


(** ** What a pass reports *)

Definition savedBy (r : Report) : nat :=
  match r_outcome r with Smaller saved => saved | _ => 0 end.

Definition isSmaller (r : Report) : bool :=
  match r_outcome r with Smaller _ => true | _ => false end.

Definition isSkipped (r : Report) : bool :=
  match r_outcome r with LargerSkipped => true | _ => false end.

(** The sum of the sizes saved. *)
Fixpoint savedIn (rs : list Report) : nat :=
  match rs with
  | [] => 0
  | r :: rs' => savedBy r + savedIn rs'
  end.

(** ** Characters and escaping *)

Definition notDot (c : ascii) : bool := negb (Ascii.eqb c ".").
Definition notBang (c : ascii) : bool := negb (Ascii.eqb c "!").
Definition notDollar (c : ascii) : bool := negb (Ascii.eqb c "$").
Definition isAscii (c : ascii) : bool := nat_of_ascii c <? 128.

(** One of the characters [escapeRegExp] looks for. *)
Definition isSpecial (c : ascii) : bool :=
  existsb (Ascii.eqb c) Escape.specialChars.

(** The text with a backslash in front of every special character. *)
Fixpoint backslashed (s : string) : string :=
  match s with
  | EmptyString => EmptyString
  | String c s' =>
      if isSpecial c then String "\" (String c (backslashed s'))
      else String c (backslashed s')
  end.

(** The text with the backslash in front of a character taken away. *)
Fixpoint unescaped (s : string) : string :=
  match s with
  | EmptyString => EmptyString
  | String "\" (String c s') => String c (unescaped s')
  | String c s' => String c (unescaped s')
  end.

(** ** Import paths *)

(** One of the three extensions the patterns look for, and what may
    follow it. *)
Definition isImageSuffix (x : string) : Prop :=
  x = ".jpg" \/ x = ".jpeg" \/ x = ".png".

Definition isMark (x : string) : Prop := x = EmptyString \/ x = "!webp".

Definition notSlash (c : ascii) : bool := negb (Ascii.eqb c "/").


(** ** The files the loader writes *)

(** Every file written since the disk was [w0] is in the set of
    temporary files. *)
Definition writesTracked (w0 : World) (w : World) (temp : gset string) : Prop :=
  exists added,
    writes w = writes w0 ++ added
    /\ forall q c, (q, c) ∈ added -> q ∈ temp.

End Notions.

(* ===================================================================== *)
(** * Sample inputs *)
(* ===================================================================== *)

Module Samples.
Import JS Re Css Fs Convert Loader Plugin Notions.

(** ** Images and codecs *)

(** A buffer of [n] bytes. *)
Fixpoint bytes (n : nat) : Buffer :=
  match n with 0 => EmptyString | S n' => String "x" (bytes n') end.

(** A codec whose output for a 100-byte image is 110 bytes at quality
    80, 105 bytes at 75 and 98 bytes at 70 and below. *)
Definition sampleCodec (b : Buffer) (q : Z) (lossless : bool) : option Buffer :=
  if (80 <=? q)%Z then Some (bytes 110)
  else if (75 <=? q)%Z then Some (bytes 105)
  else Some (bytes 98).

Definition sampleEnc (j : nat) : Buffer :=
  match j with 0 => bytes 110 | 1 => bytes 105 | _ => bytes 98 end.

(** The policy of the example of the specification. *)
Definition samplePolicy : Config := MkConfig 80 false true 60 true true.

(** The policy of the defaults. *)
Definition defaultPolicy : Config := MkConfig 85 false true 70 true true.

Definition smallCodec (b : Buffer) (q : Z) (lossless : bool) : option Buffer :=
  Some "abc".



(** Conversions that complete in the order they were started. *)
Definition inOrder (js : list Job) : list Job := js.

(** A build output with two images and a stylesheet. *)
Definition sampleDist : World :=
  MkWorld (<["/dist/static/a.png" := "0123456789"]>
           (<["/dist/b.jpg" := "01"]>
            (<["/dist/umi.css" := ".banner { background-image: url(images/a.jpg); }"]> ∅)))
          [].

(** ** Stylesheets *)

(** The rule of the specification. *)
Definition bannerCss : string :=
  ".banner { background-image: url(images/a.jpg); }".





(** ** Sources *)

(** A resolver that knows one image. *)
Definition sampleResolve (context request : string) : string + string :=
  if String.eqb request "./logo.png" then inl "/src/logo.png"
  else inr "Module not found".

Definition sampleShared : Shared :=
  MkShared (MkWorld (<["/src/logo.png" := "0123456789"]> ∅) []) ∅ ∅.

Definition sampleOptions : LoaderOptions :=
  MkOptions (Some 80%Z) (Some false) (Some true) (Some 60%Z).

Definition runSample (isProduction : bool) (source : string) : LoaderResult :=
  loader smallCodec sampleResolve true isProduction sampleOptions
    "/src/index.tsx" source sampleShared.

Definition emptyState : LState :=
  MkLState (s_world sampleShared) ∅ ∅ [] EmptyString [].

(** Two imports of one image, the second one marked. *)
Definition twoImports : string :=
  "import a from './logo.png';" +:+ nl +:+ "import b from './logo.png!webp';".




(** Options that leave [onlySmallerFiles] out, and a codec whose output
    is larger than the sample image. *)
Definition bareOptions : LoaderOptions := MkOptions (Some 80%Z) None None (Some 60%Z).

Definition inflatingCodec (b : Buffer) (q : Z) (lossless : bool) : option Buffer :=
  Some (b +:+ "0123").

(** A disk with an image of the sources, its temporary compact file and
    nothing in the output directory, and the context that tracks the
    temporary file. *)
Definition trackedWorld : World :=
  MkWorld (<["/src/logo.png" := "0123456789"]>
           (<["/src/logo.webp" := "abc"]> ∅)) [].

Definition trackedContext : Context :=
  MkContext {["/src/logo.png"]} {["/src/logo.webp"]}.


(** An output directory with a stylesheet, a page and a script. *)
Definition siteWorld : World :=
  MkWorld (<["/dist/umi.css" := bannerCss]>
           (<["/dist/index.html" := "<html><head></head><body></body></html>"]>
            (<["/plugin/webp-detector.js" := "detectWebP();"]> ∅))) [].

End Samples.

(* ===================================================================== *)
(** * Facts about strings *)
(* ===================================================================== *)

Module JSFacts.
Import JS Notions.

Lemma app_cons c (a b : string) : String c a +:+ b = String c (a +:+ b).
Proof. reflexivity. Qed.

Lemma app_nil_l (s : string) : EmptyString +:+ s = s.
Proof. reflexivity. Qed.

Lemma len_cons c s : len (String c s) = S (len s).
Proof. reflexivity. Qed.

Lemma len_nil : len EmptyString = 0.
Proof. reflexivity. Qed.

Lemma app_nil_r (s : string) : s +:+ EmptyString = s.
Proof. induction s as [|c s IH]; [reflexivity|]. rewrite app_cons, IH. reflexivity. Qed.

Lemma app_assoc (a b c : string) : (a +:+ b) +:+ c = a +:+ (b +:+ c).
Proof. induction a as [|x a IH]; [reflexivity|]. rewrite !app_cons, IH. reflexivity. Qed.

Lemma len_app (a b : string) : len (a +:+ b) = len a + len b.
Proof.
  induction a as [|x a IH]; [reflexivity|].
  rewrite app_cons, !len_cons, IH. reflexivity.
Qed.

Lemma take_app (a b : string) : take (len a) (a +:+ b) = a.
Proof.
  induction a as [|x a IH]; [destruct b; reflexivity|].
  rewrite app_cons, len_cons. cbn [take]. rewrite IH. reflexivity.
Qed.

Lemma drop_app (a b : string) : drop (len a) (a +:+ b) = b.
Proof. induction a as [|x a IH]; [reflexivity|]. rewrite app_cons, len_cons. exact IH. Qed.

Lemma take_drop n s : take n s +:+ drop n s = s.
Proof.
  revert s. induction n as [|n IH]; intros [|c s]; try reflexivity.
  cbn [take drop]. rewrite app_cons, IH. reflexivity.
Qed.


Lemma app_eq_nil (a b : string) : a +:+ b = EmptyString -> a = EmptyString /\ b = EmptyString.
Proof. destruct a; [rewrite app_nil_l; intros ->; split; reflexivity|rewrite app_cons; discriminate]. Qed.

Lemma suffix_refl s : suffix s s.
Proof. exists EmptyString. reflexivity. Qed.

Lemma suffix_trans a b c : suffix a b -> suffix b c -> suffix a c.
Proof. intros [p ->] [q ->]. exists (q +:+ p). rewrite app_assoc. reflexivity. Qed.

Lemma suffix_cons c s : suffix s (String c s).
Proof. exists (String c EmptyString). reflexivity. Qed.

Lemma suffix_len t s : suffix t s -> len t <= len s.
Proof. intros [p ->]. rewrite len_app. lia. Qed.

Lemma suffix_take t s : suffix t s -> s = take (len s - len t) s +:+ t.
Proof.
  intros [p ->]. rewrite len_app.
  replace (len p + len t - len t) with (len p) by lia.
  rewrite take_app. reflexivity.
Qed.

Lemma suffix_take_eq pre t : take (len (pre +:+ t) - len t) (pre +:+ t) = pre.
Proof.
  rewrite len_app. replace (len pre + len t - len t) with (len pre) by lia.
  apply take_app.
Qed.

Lemma suffix_same_len t s : suffix t s -> len s <= len t -> t = s.
Proof.
  intros [p ->] H. rewrite len_app in H. destruct p; [reflexivity|].
  rewrite len_cons in H. lia.
Qed.

Lemma allChars_app p a b : allChars p (a +:+ b) = allChars p a && allChars p b.
Proof.
  induction a as [|x a IH]; [reflexivity|].
  rewrite app_cons. cbn [allChars]. rewrite IH, andb_assoc. reflexivity.
Qed.

Lemma startsWith_app p s : startsWith p (p +:+ s) = true.
Proof.
  induction p as [|c p IH]; [reflexivity|].
  rewrite app_cons. cbn [startsWith]. rewrite Ascii.eqb_refl, IH. reflexivity.
Qed.

Lemma startsWith_true p s : startsWith p s = true -> s = p +:+ drop (len p) s.
Proof.
  revert s. induction p as [|c p IH]; intros s H; [reflexivity|].
  destruct s as [|d s]; [discriminate|]. cbn [startsWith] in H.
  apply andb_true_iff in H as [H1 H2]. apply Ascii.eqb_eq in H1. subst d.
  rewrite app_cons, len_cons. cbn [drop]. f_equal. apply IH. exact H2.
Qed.

Lemma startsWith_spec p s : startsWith p s = true <-> exists r, s = p +:+ r.
Proof.
  split.
  - intros H. eexists. apply startsWith_true. exact H.
  - intros [r ->]. apply startsWith_app.
Qed.

Lemma endsWith_app a p : endsWith p (a +:+ p) = true.
Proof.
  unfold endsWith. rewrite len_app.
  replace (len a + len p - len p) with (len a) by lia.
  rewrite drop_app, String.eqb_refl.
  replace (len p <=? len a + len p) with true by (symmetry; apply Nat.leb_le; lia).
  reflexivity.
Qed.

Lemma endsWith_spec p s : endsWith p s = true <-> exists a, s = a +:+ p.
Proof.
  split.
  - unfold endsWith. intros H. apply andb_true_iff in H as [H1 H2].
    apply String.eqb_eq in H2. exists (take (len s - len p) s).
    pose proof (take_drop (len s - len p) s) as E. rewrite H2 in E.
    symmetry. exact E.
  - intros [a ->]. apply endsWith_app.
Qed.

Lemma lastChar_app a b : b <> EmptyString -> lastChar (a +:+ b) = lastChar b.
Proof.
  intros Hb. induction a as [|c a IH]; [reflexivity|].
  rewrite app_cons. cbn [lastChar].
  destruct (a +:+ b) eqn:E; [|exact IH].
  apply app_eq_nil in E as [_ E]. contradiction.
Qed.

Lemma endsWith_lastChar p s :
  endsWith p s = true -> p <> EmptyString -> lastChar s = lastChar p.
Proof.
  intros H Hp. apply endsWith_spec in H as [a ->]. apply lastChar_app. exact Hp.
Qed.

(** Two ways of cutting one text: one prefix extends the other. *)
Lemma app_eq_app : forall a x b y,
  a +:+ x = b +:+ y ->
  (exists t, b = a +:+ t /\ x = t +:+ y) \/ (exists t, a = b +:+ t /\ y = t +:+ x).
Proof.
  induction a as [|c a IH]; intros x b y H.
  - left. exists b. rewrite app_nil_l in *. auto.
  - destruct b as [|d b].
    + right. exists (String c a). rewrite app_nil_l in *. auto.
    + rewrite !app_cons in H. injection H as -> H.
      destruct (IH _ _ _ H) as [(t & -> & ->)|(t & -> & ->)].
      * left. exists t. rewrite app_cons. auto.
      * right. exists t. rewrite app_cons. auto.
Qed.


End JSFacts.

(* ===================================================================== *)
(** * Facts about the matcher *)
(* ===================================================================== *)

Module ReFacts.
Import JS Re JSFacts Notions.

Lemma rmatch_Star ic r A s cs k :
  rmatch ic (Star r) A s cs k = starIter ic r A k (len s) s cs.
Proof. reflexivity. Qed.

Lemma starIter_0 ic r A k s cs : starIter ic r A k 0 s cs = k s cs.
Proof. reflexivity. Qed.

Lemma starIter_S ic r A k fuel s cs :
  starIter ic r A k (S fuel) s cs =
  match rmatch ic r A s cs
          (fun s1 cs1 => if len s1 <? len s then starIter ic r A k fuel s1 cs1 else None)
  with
  | Some x => Some x
  | None => k s cs
  end.
Proof. reflexivity. Qed.

(** The matcher depends on its continuation only through its values. *)
Lemma rmatch_ext ic r :
  forall A s cs (k k' : string -> caps -> option A),
    (forall s' cs', k s' cs' = k' s' cs') ->
    rmatch ic r A s cs k = rmatch ic r A s cs k'.
Proof.
  induction r as [|c|neg items|r1 IH1 r2 IH2|r1 IH1 r2 IH2|r IH|n r IH|r IH|];
    intros A s cs k k' H; cbn [rmatch].
  - apply H.
  - destruct s as [|a s]; [reflexivity|].
    destruct (Ascii.eqb (canon ic a) (canon ic c)); [apply H|reflexivity].
  - destruct s as [|a s]; [reflexivity|].
    destruct (cls_has ic neg items a); [apply H|reflexivity].
  - apply IH1. intros s1 cs1. apply IH2. exact H.
  - rewrite (IH1 A s cs k k' H), (IH2 A s cs k k' H). reflexivity.
  - change (starIter ic r A k (len s) s cs = starIter ic r A k' (len s) s cs).
    generalize (len s). intros fuel. revert s cs.
    induction fuel as [|fuel IHf]; intros s cs; [apply H|].
    rewrite !starIter_S.
    rewrite (IH A s cs _ (fun s1 cs1 =>
               if len s1 <? len s
               then starIter ic r A k' fuel s1 cs1 else None)).
    + rewrite H. reflexivity.
    + intros s1 cs1. destruct (len s1 <? len s); [apply IHf|reflexivity].
  - apply IH. intros s1 cs1. apply H.
  - rewrite H. reflexivity.
  - destruct s; [apply H|reflexivity].
Qed.

(** A continuation that always fails makes the match fail. *)
Lemma rmatch_fail ic r :
  forall A s cs, rmatch ic r A s cs (fun _ _ => None) = None.
Proof.
  induction r as [|c|neg items|r1 IH1 r2 IH2|r1 IH1 r2 IH2|r IH|n r IH|r IH|];
    intros A s cs; cbn [rmatch].
  - reflexivity.
  - destruct s as [|a s]; [reflexivity|].
    destruct (Ascii.eqb (canon ic a) (canon ic c)); reflexivity.
  - destruct s as [|a s]; [reflexivity|].
    destruct (cls_has ic neg items a); reflexivity.
  - rewrite (rmatch_ext ic r1 A s cs _ (fun _ _ => None)); [apply IH1|].
    intros s1 cs1. apply IH2.
  - rewrite IH1, IH2. reflexivity.
  - change (starIter ic r A (fun _ _ => None) (len s) s cs = None).
    generalize (len s). intros fuel. revert s cs.
    induction fuel as [|fuel IHf]; intros s cs; [reflexivity|].
    rewrite starIter_S.
    rewrite (rmatch_ext ic r A s cs _ (fun _ _ => None)); [rewrite IH; reflexivity|].
    intros s1 cs1. destruct (len s1 <? len s); [apply IHf|reflexivity].
  - apply IH.
  - destruct (rmatch ic r unit s cs (fun _ _ => Some tt)); reflexivity.
  - destruct s; reflexivity.
Qed.

(** Any fuel from the length of the subject on gives the same result. *)
Lemma starIter_fuel ic r A k :
  forall f1 f2 s cs, len s <= f1 -> len s <= f2 ->
    starIter ic r A k f1 s cs = starIter ic r A k f2 s cs.
Proof.
  assert (Hzero : forall f s cs, len s = 0 ->
            starIter ic r A k f s cs = k s cs).
  { intros [|f] s cs Hs; [reflexivity|]. rewrite starIter_S.
    rewrite (rmatch_ext ic r A s cs _ (fun _ _ => None)); [rewrite rmatch_fail; reflexivity|].
    intros s1 cs1. rewrite Hs. reflexivity. }
  induction f1 as [|f1 IH]; intros f2 s cs H1 H2.
  - rewrite (Hzero f2 s cs) by lia. reflexivity.
  - destruct f2 as [|f2].
    + rewrite (Hzero (S f1) s cs) by lia. reflexivity.
    + rewrite !starIter_S.
      rewrite (rmatch_ext ic r A s cs _
                 (fun s1 cs1 => if len s1 <? len s
                                then starIter ic r A k f2 s1 cs1 else None));
        [reflexivity|].
      intros s1 cs1. destruct (len s1 <? len s) eqn:E; [|reflexivity].
      apply Nat.ltb_lt in E. apply IH; lia.
Qed.

(** The equation of the greedy star: one more iteration that consumes
    something and then the star again, or else the continuation. *)
Lemma star_unfold ic r A s cs k :
  rmatch ic (Star r) A s cs k =
  match rmatch ic r A s cs
          (fun s1 cs1 => if len s1 <? len s
                         then rmatch ic (Star r) A s1 cs1 k else None)
  with
  | Some x => Some x
  | None => k s cs
  end.
Proof.
  rewrite rmatch_Star.
  rewrite (starIter_fuel ic r A k (len s) (S (len s)) s cs) by lia.
  rewrite starIter_S.
  rewrite (rmatch_ext ic r A s cs _
             (fun s1 cs1 => if len s1 <? len s
                            then rmatch ic (Star r) A s1 cs1 k else None));
    [reflexivity|].
  intros s1 cs1. destruct (len s1 <? len s) eqn:E; [|reflexivity].
  apply Nat.ltb_lt in E. rewrite rmatch_Star. apply starIter_fuel; lia.
Qed.

(** ** What a match can be *)

(** Soundness of the matcher: a result comes from the continuation, at
    the end of a match of the right shape. *)
Lemma rmatch_sound ic r :
  forall A s cs (k : string -> caps -> option A) x,
    rmatch ic r A s cs k = Some x ->
    exists s' cs', shape ic r s cs s' cs' /\ k s' cs' = Some x.
Proof.
  induction r as [|c|neg items|r1 IH1 r2 IH2|r1 IH1 r2 IH2|r IH|n r IH|r IH|];
    intros A s cs k x H; cbn [rmatch] in H; cbn [shape].
  - exists s, cs. auto.
  - destruct s as [|a s]; [discriminate|].
    destruct (Ascii.eqb (canon ic a) (canon ic c)) eqn:E; [|discriminate].
    apply Ascii.eqb_eq in E. exists s, cs. split; [|exact H]. exists a. auto.
  - destruct s as [|a s]; [discriminate|].
    destruct (cls_has ic neg items a) eqn:E; [|discriminate].
    exists s, cs. split; [|exact H]. exists a. auto.
  - apply IH1 in H as (s1 & cs1 & H1 & H). apply IH2 in H as (s2 & cs2 & H2 & H).
    exists s2, cs2. split; [|exact H]. exists s1, cs1. auto.
  - destruct (rmatch ic r1 A s cs k) eqn:E.
    + injection H as ->. apply IH1 in E as (s1 & cs1 & H1 & H).
      exists s1, cs1. auto.
    + apply IH2 in H as (s1 & cs1 & H1 & H). exists s1, cs1. auto.
  - change (starIter ic r A k (len s) s cs = Some x) in H.
    revert H. generalize (len s). intros fuel. revert s cs.
    induction fuel as [|fuel IHf]; intros s cs H.
    + exists s, cs. split; [constructor|exact H].
    + rewrite starIter_S in H.
      destruct (rmatch ic r A s cs _) eqn:E.
      * injection H as ->. apply IH in E as (s1 & cs1 & H1 & E).
        destruct (len s1 <? len s) eqn:El; [|discriminate].
        apply Nat.ltb_lt in El. apply IHf in E as (s2 & cs2 & H2 & E).
        exists s2, cs2. split; [|exact E]. econstructor; eauto.
      * exists s, cs. split; [constructor|exact H].
  - apply IH in H as (s1 & cs1 & H1 & H). eexists _, _. split; [|exact H].
    exists cs1. auto.
  - destruct (rmatch ic r unit s cs (fun _ _ => Some tt)); [discriminate|].
    exists s, cs. auto.
  - destruct s; [|discriminate]. exists EmptyString, cs. auto.
Qed.

(** What is left after a match is a suffix of the subject. *)
Lemma shape_suffix ic r : forall s cs s' cs', shape ic r s cs s' cs' -> suffix s' s.
Proof.
  induction r as [|c|neg items|r1 IH1 r2 IH2|r1 IH1 r2 IH2|r IH|n r IH|r IH|];
    intros s cs s' cs' H; cbn [shape] in H.
  - destruct H as [-> _]. apply suffix_refl.
  - destruct H as (a & -> & _). apply suffix_cons.
  - destruct H as (a & -> & _). apply suffix_cons.
  - destruct H as (s1 & cs1 & H1 & H2).
    eapply suffix_trans; [eapply IH2|eapply IH1]; eauto.
  - destruct H as [H|H]; eauto.
  - induction H as [|s cs s1 cs1 s2 cs2 H1 Hl H2 IHs]; [apply suffix_refl|].
    eapply suffix_trans; [exact IHs|eapply IH; eauto].
  - destruct H as (cs1 & H & _). eauto.
  - destruct H as [-> _]. apply suffix_refl.
  - destruct H as (-> & -> & _). apply suffix_refl.
Qed.

(** ** A match at a position and the leftmost match *)

Lemma match_at_sound ic r pos s m :
  match_at ic r pos s = Some m ->
  m_index m = pos
  /\ s = m_text m +:+ m_rest m
  /\ shape ic r s [] (m_rest m) (m_caps m).
Proof.
  unfold match_at. intros H. apply rmatch_sound in H as (s' & cs' & Hs & H).
  injection H as <-. cbn [m_index m_text m_rest m_caps].
  split; [reflexivity|]. split; [|exact Hs].
  apply suffix_take. eapply shape_suffix. exact Hs.
Qed.

Lemma match_at_len ic r pos s m :
  match_at ic r pos s = Some m -> len s = len (m_text m) + len (m_rest m).
Proof.
  intros H. apply match_at_sound in H as (_ & H & _).
  rewrite H at 1. apply len_app.
Qed.

(** The result of [match_at] does not depend on the offset, except for
    the index it records. *)
Lemma match_at_pos ic r pos pos' s :
  match_at ic r pos' s
  = option_map (fun m => MRes pos' (m_text m) (m_caps m) (m_rest m))
      (match_at ic r pos s).
Proof.
  unfold match_at.
  assert (G : forall (k1 k2 : string -> caps -> option mres) (f : mres -> mres),
             (forall s' cs', k2 s' cs' = option_map f (k1 s' cs')) ->
             forall r s cs, rmatch ic r mres s cs k2
                            = option_map f (rmatch ic r mres s cs k1)).
  { intros k1 k2 f Hk r0. revert k1 k2 Hk.
    induction r0 as [|c|neg items|r1 IH1 r2 IH2|r1 IH1 r2 IH2|r0 IH|n r0 IH|r0 IH|];
      intros k1 k2 Hk s0 cs0; cbn [rmatch].
    - apply Hk.
    - destruct s0 as [|a s0]; [reflexivity|].
      destruct (Ascii.eqb (canon ic a) (canon ic c)); [apply Hk|reflexivity].
    - destruct s0 as [|a s0]; [reflexivity|].
      destruct (cls_has ic neg items a); [apply Hk|reflexivity].
    - apply IH1. intros s1 cs1. apply IH2. exact Hk.
    - rewrite (IH1 k1 k2 Hk), (IH2 k1 k2 Hk).
      destruct (rmatch ic r1 mres s0 cs0 k1); reflexivity.
    - change (starIter ic r0 mres k2 (len s0) s0 cs0
              = option_map f (starIter ic r0 mres k1 (len s0) s0 cs0)).
      generalize (len s0). intros fuel. revert s0 cs0.
      induction fuel as [|fuel IHf]; intros s0 cs0; [apply Hk|].
      rewrite !starIter_S.
      rewrite (IH (fun s1 cs1 => if len s1 <? len s0
                                 then starIter ic r0 mres k1 fuel s1 cs1 else None)
                  (fun s1 cs1 => if len s1 <? len s0
                                 then starIter ic r0 mres k2 fuel s1 cs1 else None)).
      + destruct (rmatch ic r0 mres s0 cs0 _); [reflexivity|apply Hk].
      + intros s1 cs1. destruct (len s1 <? len s0); [apply IHf|reflexivity].
    - apply IH. intros s1 cs1. apply Hk.
    - destruct (rmatch ic r0 unit s0 cs0 (fun _ _ => Some tt)); [reflexivity|apply Hk].
    - destruct s0; [apply Hk|reflexivity]. }
  apply G. intros s' cs'. reflexivity.
Qed.

Lemma match_at_none_pos ic r pos pos' s :
  match_at ic r pos s = None -> match_at ic r pos' s = None.
Proof. intros H. rewrite (match_at_pos ic r pos pos'), H. reflexivity. Qed.

Lemma match_at_some_pos ic r pos pos' s m :
  match_at ic r pos s = Some m ->
  match_at ic r pos' s = Some (MRes pos' (m_text m) (m_caps m) (m_rest m)).
Proof. intros H. rewrite (match_at_pos ic r pos pos'), H. reflexivity. Qed.

(** [search] returns the match at the first position that has one. *)
Lemma search_sound ic r : forall s pos m,
  search ic r pos s = Some m ->
  exists pre t, s = pre +:+ t /\ match_at ic r (pos + len pre) t = Some m.
Proof.
  induction s as [|c s IH]; intros pos m H; cbn [search] in H.
  - destruct (match_at ic r pos EmptyString) eqn:E; [|discriminate].
    injection H as ->. exists EmptyString, EmptyString.
    rewrite len_nil, Nat.add_0_r. auto.
  - destruct (match_at ic r pos (String c s)) eqn:E.
    + injection H as ->. exists EmptyString, (String c s).
      rewrite len_nil, Nat.add_0_r. auto.
    + apply IH in H as (pre & t & -> & H). exists (String c pre), t.
      rewrite len_cons, Nat.add_succ_r. auto.
Qed.

Lemma search_found ic r : forall pre t pos,
  match_at ic r 0 t <> None -> search ic r pos (pre +:+ t) <> None.
Proof.
  induction pre as [|c pre IH]; intros t pos H.
  - rewrite app_nil_l. destruct t as [|c t]; cbn [search].
    + destruct (match_at ic r pos EmptyString) eqn:E; [discriminate|].
      apply (match_at_none_pos _ _ _ 0) in E. contradiction.
    + destruct (match_at ic r pos (String c t)) eqn:E; [discriminate|].
      apply (match_at_none_pos _ _ _ 0) in E. contradiction.
  - rewrite app_cons. cbn [search].
    destruct (match_at ic r pos (String c (pre +:+ t))); [discriminate|].
    apply IH. exact H.
Qed.

Lemma search_none ic r : forall s pos,
  search ic r pos s = None ->
  forall pre t, s = pre +:+ t -> match_at ic r 0 t = None.
Proof.
  intros s pos H pre t ->.
  destruct (match_at ic r 0 t) eqn:E; [|reflexivity].
  exfalso. apply (search_found ic r pre t pos); [rewrite E; discriminate|exact H].
Qed.

(** The text [replace1] returns. *)
Lemma replace1_none ic r f s :
  search ic r 0 s = None -> replace1 ic r f s = s.
Proof. unfold replace1. intros ->. reflexivity. Qed.

Lemma replace1_some ic r f s m :
  search ic r 0 s = Some m ->
  exists pre, s = pre +:+ m_text m +:+ m_rest m
              /\ shape ic r (m_text m +:+ m_rest m) [] (m_rest m) (m_caps m)
              /\ replace1 ic r f s = pre +:+ f m +:+ m_rest m.
Proof.
  unfold replace1. intros E. rewrite E.
  apply search_sound in E as (pre & t & -> & E).
  apply match_at_sound in E as (Hi & Ht & Hs).
  exists pre. rewrite <- Ht. split; [reflexivity|]. split; [exact Hs|].
  rewrite Hi. cbn [Nat.add]. rewrite take_app. reflexivity.
Qed.

(** ** Running the matcher on text of a known form *)

(** A literal pattern, without the i flag, matches its own text and
    nothing else. *)
Lemma rmatch_Str lit : forall A s cs (k : string -> caps -> option A),
  rmatch false (Str lit) A s cs k
  = if startsWith lit s then k (drop (len lit) s) cs else None.
Proof.
  induction lit as [|c lit IH]; intros A s cs k; [reflexivity|].
  cbn [Str rmatch]. destruct s as [|a s]; [reflexivity|].
  cbn [startsWith canon]. rewrite (Ascii.eqb_sym a c).
  destruct (Ascii.eqb c a); [|reflexivity].
  rewrite IH. reflexivity.
Qed.


Lemma rmatch_Cls ic neg items A a s cs (k : string -> caps -> option A) :
  rmatch ic (Cls neg items) A (String a s) cs k
  = if cls_has ic neg items a then k s cs else None.
Proof. reflexivity. Qed.

Lemma rmatch_Cls_nil ic neg items A cs (k : string -> caps -> option A) :
  rmatch ic (Cls neg items) A EmptyString cs k = None.
Proof. reflexivity. Qed.

Lemma rmatch_Chr ic c A a s cs (k : string -> caps -> option A) :
  rmatch ic (Chr c) A (String a s) cs k
  = if Ascii.eqb (canon ic a) (canon ic c) then k s cs else None.
Proof. reflexivity. Qed.


Lemma rmatch_Cat ic r1 r2 A s cs (k : string -> caps -> option A) :
  rmatch ic (Cat r1 r2) A s cs k
  = rmatch ic r1 A s cs (fun s1 cs1 => rmatch ic r2 A s1 cs1 k).
Proof. reflexivity. Qed.

Lemma rmatch_Grp ic n r A s cs (k : string -> caps -> option A) :
  rmatch ic (Grp n r) A s cs k
  = rmatch ic r A s cs (fun s1 cs1 => k s1 ((n, take (len s - len s1) s) :: cs1)).
Proof. reflexivity. Qed.

Lemma rmatch_Eps ic A s cs (k : string -> caps -> option A) :
  rmatch ic Eps A s cs k = k s cs.
Proof. reflexivity. Qed.

(** A greedy star over a class runs to the end of the run of class
    characters; when the continuation accepts there, that is the
    result. *)
Lemma star_cls_run ic neg items A (k : string -> caps -> option A) x :
  forall p s cs,
    allChars (cls_has ic neg items) p = true ->
    stopsAt (cls_has ic neg items) s = true ->
    k s cs = Some x ->
    rmatch ic (Star (Cls neg items)) A (p +:+ s) cs k = Some x.
Proof.
  induction p as [|c p IH]; intros s cs Hp Hs Hk.
  - rewrite app_nil_l, star_unfold.
    destruct s as [|c s]; [rewrite rmatch_Cls_nil; exact Hk|]. cbn [stopsAt] in Hs.
    apply negb_true_iff in Hs. rewrite rmatch_Cls, Hs. exact Hk.
  - cbn [allChars] in Hp. apply andb_true_iff in Hp as [Hc Hp].
    rewrite app_cons, star_unfold, rmatch_Cls, Hc.
    rewrite len_cons.
    replace (len (p +:+ s) <? S (len (p +:+ s))) with true
      by (symmetry; apply Nat.ltb_lt; lia).
    rewrite (IH s cs Hp Hs Hk). reflexivity.
Qed.

(** The same for one or more, which needs a first character. *)
Lemma plus_cls_run ic neg items A (k : string -> caps -> option A) x p s cs :
  p <> EmptyString ->
  allChars (cls_has ic neg items) p = true ->
  stopsAt (cls_has ic neg items) s = true ->
  k s cs = Some x ->
  rmatch ic (Plus (Cls neg items)) A (p +:+ s) cs k = Some x.
Proof.
  intros Hne Hp Hs Hk. destruct p as [|c p]; [contradiction|].
  cbn [allChars] in Hp. apply andb_true_iff in Hp as [Hc Hp].
  unfold Plus. rewrite app_cons, rmatch_Cat, rmatch_Cls, Hc.
  apply star_cls_run; assumption.
Qed.

(** ** The scan of a subject *)

Lemma scanAll_scanFrom ic r s : scanAll ic r s = scanFrom ic r 0 s.
Proof. reflexivity. Qed.

Lemma scan_S fuel ic r pos s :
  scan (S fuel) ic r pos s =
  match match_at ic r pos s with
  | Some m =>
      if len (m_rest m) <? len s then
        let '(ms, tl) := scan fuel ic r (pos + len (m_text m)) (m_rest m) in
        ((EmptyString, m) :: ms, tl)
      else
        match s with
        | EmptyString => ([(EmptyString, m)], EmptyString)
        | String c s' =>
            let '(ms, tl) := gap_cons c (scan fuel ic r (S pos) s') in
            ((EmptyString, m) :: ms, tl)
        end
  | None =>
      match s with
      | EmptyString => ([], EmptyString)
      | String c s' => gap_cons c (scan fuel ic r (S pos) s')
      end
  end.
Proof. reflexivity. Qed.

Lemma scan_fuel ic r : forall f1 f2 pos s,
  len s < f1 -> len s < f2 -> scan f1 ic r pos s = scan f2 ic r pos s.
Proof.
  induction f1 as [|f1 IH]; intros f2 pos s H1 H2; [lia|].
  destruct f2 as [|f2]; [lia|]. rewrite !scan_S.
  destruct (match_at ic r pos s) as [m|] eqn:E.
  - destruct (len (m_rest m) <? len s) eqn:El.
    + apply Nat.ltb_lt in El.
      rewrite (IH f2 (pos + len (m_text m)) (m_rest m)) by lia. reflexivity.
    + destruct s as [|c s]; [reflexivity|]. rewrite len_cons in H1, H2.
      rewrite (IH f2 (S pos) s) by lia. reflexivity.
  - destruct s as [|c s]; [reflexivity|]. rewrite len_cons in H1, H2.
    rewrite (IH f2 (S pos) s) by lia. reflexivity.
Qed.

Lemma scanFrom_nil ic r pos :
  match_at ic r pos EmptyString = None -> scanFrom ic r pos EmptyString = ([], EmptyString).
Proof. unfold scanFrom. rewrite scan_S. intros ->. reflexivity. Qed.

Lemma scanFrom_skip ic r pos c s :
  match_at ic r pos (String c s) = None ->
  scanFrom ic r pos (String c s) = gap_cons c (scanFrom ic r (S pos) s).
Proof.
  unfold scanFrom. intros H. rewrite len_cons, scan_S, H. reflexivity.
Qed.

Lemma scanFrom_match ic r pos s m :
  match_at ic r pos s = Some m ->
  len (m_rest m) < len s ->
  scanFrom ic r pos s
  = ((EmptyString, m) :: fst (scanFrom ic r (pos + len (m_text m)) (m_rest m)),
     snd (scanFrom ic r (pos + len (m_text m)) (m_rest m))).
Proof.
  unfold scanFrom. intros H Hl. rewrite scan_S, H.
  replace (len (m_rest m) <? len s) with true by (symmetry; apply Nat.ltb_lt; exact Hl).
  rewrite (scan_fuel ic r (len s) (S (len (m_rest m)))) by lia.
  destruct (scan (S (len (m_rest m))) ic r (pos + len (m_text m)) (m_rest m)).
  reflexivity.
Qed.

Lemma spliceR_gap_cons f c r : spliceR f (gap_cons c r) = String c (spliceR f r).
Proof. destruct r as [[|[g m] ms] tl]; reflexivity. Qed.

Lemma spliceR_gap_app f g r : spliceR f (gap_app g r) = g +:+ spliceR f r.
Proof.
  induction g as [|c g IH]; [reflexivity|].
  cbn [gap_app]. rewrite spliceR_gap_cons, IH. reflexivity.
Qed.

Lemma matches_gap_cons c r : map snd (fst (gap_cons c r)) = map snd (fst r).
Proof. destruct r as [[|[g m] ms] tl]; reflexivity. Qed.

Lemma matches_gap_app g r : map snd (fst (gap_app g r)) = map snd (fst r).
Proof.
  induction g as [|c g IH]; [reflexivity|].
  cbn [gap_app]. rewrite matches_gap_cons. exact IH.
Qed.

Lemma replaceAll_spliceR ic r f s :
  replaceAll ic r f s = spliceR f (scanFrom ic r 0 s).
Proof.
  unfold replaceAll, spliceR. rewrite scanAll_scanFrom.
  destruct (scanFrom ic r 0 s). reflexivity.
Qed.

Lemma execAll_scanFrom ic r s :
  execAll ic r s = map snd (fst (scanFrom ic r 0 s)).
Proof. reflexivity. Qed.

(** A scan cuts its subject into pieces: putting the matched texts back
    gives the subject. *)
Lemma scan_partition ic r : forall n pos s,
  len s < n -> spliceR m_text (scanFrom ic r pos s) = s.
Proof.
  induction n as [|n IH]; intros pos s Hn; [lia|].
  destruct (match_at ic r pos s) as [m|] eqn:E.
  - destruct (Nat.ltb_spec (len (m_rest m)) (len s)) as [Hl|Hl].
    + rewrite (scanFrom_match ic r pos s m E Hl). unfold spliceR. cbn [fst snd splice].
      fold (spliceR m_text (scanFrom ic r (pos + len (m_text m)) (m_rest m))).
      rewrite IH by lia. rewrite app_nil_l.
      apply match_at_sound in E as (_ & E & _). symmetry. exact E.
    + pose proof (match_at_sound ic r pos s m E) as (_ & Ht & _).
      pose proof (match_at_len ic r pos s m E) as Hlen.
      assert (Hz : m_text m = EmptyString).
      { destruct (m_text m); [reflexivity|]. rewrite len_cons in Hlen. lia. }
      unfold scanFrom. rewrite scan_S, E.
      replace (len (m_rest m) <? len s) with false by (symmetry; apply Nat.ltb_ge; exact Hl).
      destruct s as [|c s]; [unfold spliceR; cbn [fst snd splice]; rewrite Hz; reflexivity|].
      rewrite len_cons in Hn. rewrite len_cons.
      pose proof (IH (S pos) s ltac:(lia)) as IHs. unfold scanFrom in IHs.
      destruct (gap_cons c (scan (S (len s)) ic r (S pos) s)) as [ms tl] eqn:Eg.
      unfold spliceR. cbn [fst snd splice]. rewrite Hz, !app_nil_l.
      change (splice m_text ms tl) with (spliceR m_text (ms, tl)).
      rewrite <- Eg, spliceR_gap_cons, IHs. reflexivity.
  - destruct s as [|c s].
    + rewrite scanFrom_nil by exact E. reflexivity.
    + rewrite scanFrom_skip by exact E. rewrite spliceR_gap_cons.
      rewrite len_cons in Hn. rewrite IH by lia. reflexivity.
Qed.

Lemma replaceAll_id ic r s : replaceAll ic r m_text s = s.
Proof. rewrite replaceAll_spliceR. apply (scan_partition ic r (S (len s))). lia. Qed.

(** Replacing by functions that agree on the matches found gives the
    same text. *)
Lemma splice_ext f g ms tl :
  (forall m, m ∈ map snd ms -> f m = g m) -> splice f ms tl = splice g ms tl.
Proof.
  induction ms as [|[gp m] ms IH]; intros H; [reflexivity|].
  cbn [splice]. rewrite (H m) by (left). rewrite IH; [reflexivity|].
  intros m' Hm'. apply H. right. exact Hm'.
Qed.

Lemma replaceAll_ext ic r f g s :
  (forall m, m ∈ execAll ic r s -> f m = g m) ->
  replaceAll ic r f s = replaceAll ic r g s.
Proof.
  intros H. rewrite !replaceAll_spliceR. unfold spliceR.
  apply splice_ext. exact H.
Qed.

(** ** Where the pieces of a scan come from *)

Lemma elem_gap_cons c (r : scanres) m :
  m ∈ map snd (fst (gap_cons c r)) <-> m ∈ map snd (fst r).
Proof. rewrite matches_gap_cons. reflexivity. Qed.

(** Every match of a scan is the match at some suffix of the subject. *)
Lemma scan_matches ic r : forall n pos s m,
  len s < n ->
  m ∈ map snd (fst (scanFrom ic r pos s)) ->
  exists pos' t, suffix t s /\ match_at ic r pos' t = Some m.
Proof.
  induction n as [|n IH]; intros pos s m Hn Hm; [lia|].
  destruct (match_at ic r pos s) as [m0|] eqn:E.
  - destruct (Nat.ltb_spec (len (m_rest m0)) (len s)) as [Hl|Hl].
    + rewrite (scanFrom_match ic r pos s m0 E Hl) in Hm. cbn [fst map snd] in Hm.
      apply elem_of_cons in Hm as [->|Hm].
      * exists pos, s. split; [apply suffix_refl|exact E].
      * apply IH in Hm as (pos' & t & Hs & Ht); [|lia].
        exists pos', t. split; [|exact Ht].
        eapply suffix_trans; [exact Hs|].
        apply match_at_sound in E as (_ & E & _). exists (m_text m0). exact E.
    + unfold scanFrom in Hm. rewrite scan_S, E in Hm.
      replace (len (m_rest m0) <? len s) with false in Hm
        by (symmetry; apply Nat.ltb_ge; exact Hl).
      destruct s as [|c s].
      * cbn [fst map snd] in Hm. apply list_elem_of_singleton in Hm as ->.
        exists pos, EmptyString. split; [apply suffix_refl|exact E].
      * rewrite len_cons in Hn.
        destruct (gap_cons c (scan (len (String c s)) ic r (S pos) s)) as [ms tl] eqn:Eg.
        cbn [fst map snd] in Hm. apply elem_of_cons in Hm as [->|Hm].
        -- exists pos, (String c s). split; [apply suffix_refl|exact E].
        -- change ms with (fst (ms, tl)) in Hm. rewrite <- Eg in Hm.
           apply elem_gap_cons in Hm. rewrite len_cons in Hm.
           apply (IH (S pos) s m) in Hm as (pos' & t & Hs & Ht); [|lia].
           exists pos', t. split; [|exact Ht].
           eapply suffix_trans; [exact Hs|apply suffix_cons].
  - destruct s as [|c s].
    + rewrite scanFrom_nil in Hm by exact E. inversion Hm.
    + rewrite scanFrom_skip in Hm by exact E. apply elem_gap_cons in Hm.
      rewrite len_cons in Hn. apply IH in Hm as (pos' & t & Hs & Ht); [|lia].
      exists pos', t. split; [|exact Ht].
      eapply suffix_trans; [exact Hs|apply suffix_cons].
Qed.

(** ** Captures *)

Lemma shape_groupFree ic r : forall s cs s' cs',
  groupFree r = true -> shape ic r s cs s' cs' -> cs' = cs.
Proof.
  induction r as [|c|neg items|r1 IH1 r2 IH2|r1 IH1 r2 IH2|r IH|n r IH|r IH|];
    intros s cs s' cs' Hg H; cbn [shape groupFree] in *.
  - tauto.
  - destruct H as (a & _ & _ & H). exact H.
  - destruct H as (a & _ & _ & H). exact H.
  - apply andb_true_iff in Hg as [G1 G2].
    destruct H as (s1 & cs1 & H1 & H2).
    rewrite (IH2 _ _ _ _ G2 H2). exact (IH1 _ _ _ _ G1 H1).
  - apply andb_true_iff in Hg as [G1 G2]. destruct H as [H|H]; eauto.
  - induction H as [|s cs s1 cs1 s2 cs2 H1 Hl H2 IHs]; [reflexivity|].
    rewrite IHs. exact (IH _ _ _ _ Hg H1).
  - discriminate.
  - tauto.
  - tauto.
Qed.

Lemma allChars_suffix P t s : suffix t s -> allChars P s = true -> allChars P t = true.
Proof.
  intros [pre ->]. rewrite allChars_app. intros H.
  apply andb_true_iff in H as [_ H]. exact H.
Qed.

Lemma allChars_take P n s : allChars P s = true -> allChars P (take n s) = true.
Proof.
  intros H. rewrite <- (take_drop n s), allChars_app in H.
  apply andb_true_iff in H as [H _]. exact H.
Qed.

(** The captures of a match are pieces of the subject. *)
Lemma shape_caps ic P r : forall s cs s' cs',
  shape ic r s cs s' cs' ->
  allChars P s = true ->
  Forall (fun c => allChars P (snd c) = true) cs ->
  Forall (fun c => allChars P (snd c) = true) cs'.
Proof.
  induction r as [|c|neg items|r1 IH1 r2 IH2|r1 IH1 r2 IH2|r IH|n r IH|r IH|];
    intros s cs s' cs' H Hs Hc; cbn [shape] in H.
  - destruct H as [_ ->]. exact Hc.
  - destruct H as (a & _ & _ & ->). exact Hc.
  - destruct H as (a & _ & _ & ->). exact Hc.
  - destruct H as (s1 & cs1 & H1 & H2).
    eapply IH2; [exact H2| |eapply IH1; eauto].
    eapply allChars_suffix; [eapply shape_suffix; exact H1|exact Hs].
  - destruct H as [H|H]; eauto.
  - induction H as [|s cs s1 cs1 s2 cs2 H1 Hl H2 IHs]; [exact Hc|].
    apply IHs.
    + eapply allChars_suffix; [eapply shape_suffix; exact H1|exact Hs].
    + eapply IH; eauto.
  - destruct H as (cs1 & H & ->). constructor.
    + cbn [snd]. apply allChars_take, Hs.
    + eapply IH; eauto.
  - destruct H as [_ ->]. exact Hc.
  - destruct H as (_ & _ & ->). exact Hc.
Qed.

Lemma cap_get_Forall (P : string -> Prop) n cs v :
  Forall (fun c => P (snd c)) cs -> cap_get n cs = Some v -> P v.
Proof.
  induction 1 as [|[k x] cs Hx Hcs IH]; cbn [cap_get]; [discriminate|].
  destruct (Nat.eqb k n); [|exact IH]. intros E. injection E as <-. exact Hx.
Qed.

(** A capture of a match found in a text satisfies what every character
    of the text satisfies. *)
Lemma group_allChars ic P r pos t n m :
  match_at ic r pos t = Some m -> allChars P t = true ->
  allChars P (group n m) = true.
Proof.
  intros E Ht. apply match_at_sound in E as (_ & E & Hs). unfold group.
  destruct (cap_get n (m_caps m)) as [v|] eqn:Ec; [|reflexivity].
  assert (Hc : Forall (fun c : nat * string => allChars P (snd c) = true) (m_caps m)).
  { eapply shape_caps; [exact Hs|exact Ht|constructor]. }
  exact (cap_get_Forall (fun x => allChars P x = true) n _ v Hc Ec).
Qed.

(** A literal pattern consumes its own text. *)
Lemma shape_Str lit : forall s cs s' cs',
  shape false (Str lit) s cs s' cs' -> s = lit +:+ s' /\ cs' = cs.
Proof.
  induction lit as [|c lit IH]; intros s cs s' cs' H; cbn [Str shape] in H.
  - destruct H as [-> ->]. auto.
  - destruct H as (s1 & cs1 & (a & -> & Ha & ->) & H). cbn [canon] in Ha. subst a.
    apply IH in H as [-> ->]. auto.
Qed.


End ReFacts.

(* ===================================================================== *)
(** * Facts about the quality search *)
(* ===================================================================== *)

Module ConvertFacts.
Import JS Re Css Fs Convert Notions.

Lemma descending_S q n :
  descending q (S n) = MkAttempt q false :: descending (q - 5) n.
Proof.
  unfold descending. cbn [seq map]. f_equal.
  - f_equal. lia.
  - rewrite <- seq_shift, map_map. apply map_ext. intros j. f_equal. lia.
Qed.

Lemma lastAttempt_cons a b l : lastAttempt (a :: b :: l) = lastAttempt (b :: l).
Proof. reflexivity. Qed.

Lemma lastAttempt_descending q n :
  lastAttempt (descending q (S n)) = Some (MkAttempt (q - 5 * Z.of_nat n) false).
Proof.
  revert q. induction n as [|n IH]; intros q.
  - reflexivity.
  - rewrite descending_S. specialize (IH (q - 5)%Z).
    rewrite descending_S in IH |- *. rewrite lastAttempt_cons, IH.
    do 2 f_equal. lia.
Qed.

Section Search.

Variable sharpWebp : Buffer -> Z -> bool -> option Buffer.

(** The loop stops at once when the buffer at hand is smaller or the
    quality is below the floor. *)
Lemma lowerQuality_stop fuel img o minQ buf cq :
  len buf < o \/ (cq < minQ)%Z ->
  lowerQuality sharpWebp fuel img o minQ buf cq = (Some buf, []).
Proof.
  intros H. destruct fuel as [|fuel]; [reflexivity|]. cbn [lowerQuality].
  destruct H as [H|H].
  - apply Nat.leb_gt in H. rewrite H. reflexivity.
  - apply Z.leb_gt in H. rewrite H, andb_false_r. reflexivity.
Qed.

(** With the fuel [searchFuel] provides, the loop runs until its own
    condition fails: [n] further attempts, the last of which is smaller
    or is the last one above the floor. *)
Lemma lowerQuality_run (enc : nat -> Buffer) n :
  forall fuel img o minQ buf cq,
    searchFuel minQ cq <= fuel ->
    o <= len buf ->
    (forall j, j <= n -> sharpWebp img (cq - 5 * Z.of_nat j) false = Some (enc j)) ->
    (forall j, j < n -> o <= len (enc j)) ->
    (minQ <= cq - 5 * Z.of_nat n)%Z ->
    len (enc n) < o \/ (cq - 5 * Z.of_nat (S n) < minQ)%Z ->
    lowerQuality sharpWebp fuel img o minQ buf cq
    = (Some (enc n), descending cq (S n)).
Proof.
  revert enc. induction n as [|n IH]; intros enc fuel img o minQ buf cq Hf Hb Hs Hl Hq Hstop.
  - destruct fuel as [|fuel]; [unfold searchFuel in Hf; lia|].
    cbn [lowerQuality].
    assert (Hc : (o <=? len buf) && (minQ <=? cq)%Z = true).
    { apply andb_true_intro; split; [apply Nat.leb_le; lia|apply Z.leb_le; lia]. }
    rewrite Hc. specialize (Hs 0 (le_n 0)). replace (cq - 5 * Z.of_nat 0)%Z with cq in Hs by lia.
    rewrite Hs. rewrite lowerQuality_stop.
    + rewrite descending_S. reflexivity.
    + destruct Hstop; [left; assumption|right; lia].
  - destruct fuel as [|fuel]; [unfold searchFuel in Hf; lia|].
    cbn [lowerQuality].
    assert (Hc : (o <=? len buf) && (minQ <=? cq)%Z = true).
    { apply andb_true_intro; split; [apply Nat.leb_le; lia|apply Z.leb_le; lia]. }
    rewrite Hc. pose proof (Hs 0 (Nat.le_0_l _)) as H0.
    replace (cq - 5 * Z.of_nat 0)%Z with cq in H0 by lia. rewrite H0.
    rewrite (IH (fun j => enc (S j)) fuel img o minQ (enc 0) (cq - 5)%Z).
    + rewrite (descending_S cq (S n)). reflexivity.
    + unfold searchFuel in *. lia.
    + apply Hl. lia.
    + intros j Hj. rewrite <- (Hs (S j)) by lia. f_equal. lia.
    + intros j Hj. apply Hl. lia.
    + lia.
    + destruct Hstop as [H|H]; [left; exact H|right; lia].
Qed.

(** The same for the whole of [transcode]: attempt 0 is the encoding at
    the configured quality. *)
Lemma transcode_run (cfg : Config) (img : Buffer) (enc : nat -> Buffer) k :
  lossless cfg = false ->
  (minQuality cfg < quality cfg)%Z ->
  1 <= k ->
  (forall j, j <= k ->
     sharpWebp img (quality cfg - 5 * Z.of_nat j) false = Some (enc j)) ->
  (forall j, j < k -> len img <= len (enc j)) ->
  (minQuality cfg <= quality cfg - 5 * Z.of_nat k)%Z ->
  len (enc k) < len img \/ (quality cfg - 5 * Z.of_nat (S k) < minQuality cfg)%Z ->
  transcode sharpWebp cfg img = (Some (enc k), descending (quality cfg) (S k)).
Proof.
  intros Hl Hq Hk Hs Hn Hfloor Hstop. unfold transcode. rewrite Hl.
  pose proof (Hs 0 (Nat.le_0_l _)) as H0.
  replace (quality cfg - 5 * Z.of_nat 0)%Z with (quality cfg) in H0 by lia.
  rewrite H0.
  assert (Hc : (len img <=? len (enc 0)) && negb false
               && (minQuality cfg <? quality cfg)%Z = true).
  { rewrite andb_true_r. apply andb_true_intro; split.
    - apply Nat.leb_le, Hn. lia.
    - apply Z.ltb_lt, Hq. }
  rewrite Hc. destruct k as [|k]; [lia|].
  rewrite (lowerQuality_run (fun j => enc (S j)) k).
  - rewrite (descending_S (quality cfg) (S k)). reflexivity.
  - lia.
  - apply Hn. lia.
  - intros j Hj. rewrite <- (Hs (S j)) by lia. f_equal. lia.
  - intros j Hj. apply Hn. lia.
  - lia.
  - destruct Hstop as [H|H]; [left; exact H|right; lia].
Qed.

(** The retention decision: the buffer is written exactly when it is
    smaller or [onlySmallerFiles] is off. *)
Lemma retain_spec cfg webpPath o buf w :
  retain cfg webpPath o buf w =
  if (len buf <? o) then (writeFileSync webpPath buf w, Smaller (o - len buf))
  else if onlySmallerFiles cfg then (w, LargerSkipped)
  else (writeFileSync webpPath buf w, LargerKept).
Proof.
  unfold retain. destruct (len buf <? o), (onlySmallerFiles cfg); reflexivity.
Qed.

End Search.

End ConvertFacts.

(* ===================================================================== *)
(** * Facts about a pass over the build output *)
(* ===================================================================== *)

Module PassFacts.
Import JS Re Css Fs Convert JSFacts ReFacts Notions.

(** ** Paths *)

Lemma segments_nonempty : forall p acc, segments acc p <> [].
Proof.
  induction p as [|c p IH]; intros acc; cbn [segments]; [discriminate|].
  destruct (Ascii.eqb c "/"); [discriminate|apply IH].
Qed.

Lemma segments_last : forall p acc l name,
  segments acc p = l ++ [name] -> exists pre, acc +:+ p = pre +:+ name.
Proof.
  induction p as [|c p IH]; intros acc l name H; cbn [segments] in H.
  - destruct l as [|x l]; cbn [app] in H; [|destruct l; cbn [app] in H; discriminate].
    injection H as ->. exists EmptyString. rewrite app_nil_r. reflexivity.
  - destruct (Ascii.eqb c "/") eqn:E.
    + destruct l as [|x l]; cbn [app] in H.
      * injection H as _ H. exfalso. exact (segments_nonempty _ _ H).
      * injection H as -> H. apply IH in H as (pre & H).
        rewrite app_nil_l in H. exists (x +:+ String c pre).
        rewrite app_assoc, app_cons, <- H. reflexivity.
    + apply IH in H as (pre & H). exists pre. rewrite <- H.
      rewrite app_assoc. reflexivity.
Qed.

Lemma hasExt_lastChar ext n :
  hasExt ext n = true -> lastChar n = lastChar ("." +:+ ext) /\ n <> EmptyString.
Proof.
  unfold hasExt. intros H. apply andb_true_iff in H as [H1 H2]. split.
  - apply endsWith_lastChar; [exact H2|discriminate].
  - intros ->. discriminate.
Qed.

Lemma rev_cons_inv {A} (l : list A) x xs : List.rev l = x :: xs -> l = List.rev xs ++ [x].
Proof. intros H. rewrite <- (rev_involutive l), H. reflexivity. Qed.

(** The last segment of a path that lies under a directory ends the
    path. *)
Lemma relative_last dir p rel name dirs :
  relativeTo dir p = Some rel ->
  List.rev (segments EmptyString rel) = name :: dirs ->
  exists pre, p = pre +:+ name.
Proof.
  unfold relativeTo. intros H1 H2.
  destruct (startsWith (dir +:+ "/") p) eqn:E; [|discriminate].
  injection H1 as <-. apply startsWith_true in E.
  apply rev_cons_inv in H2. apply segments_last in H2 as (pre & H2).
  rewrite app_nil_l in H2. rewrite len_app in E. cbn [len String.length] in E.
  exists ((dir +:+ "/") +:+ pre). rewrite app_assoc, <- H2. exact E.
Qed.

Lemma isRasterName_raster n : isRasterName n = true -> rasterPath n.
Proof.
  unfold isRasterName, hasExt. intros H.
  apply orb_true_iff in H as [H|H]; [apply orb_true_iff in H as [H|H]|];
    apply andb_true_iff in H as [_ H]; apply endsWith_spec in H as [a ->];
    exists a; eexists; (split; [reflexivity|]); auto.
Qed.

Lemma rasterPath_app pre n : rasterPath n -> rasterPath (pre +:+ n).
Proof.
  intros (stem & ext & -> & H). exists (pre +:+ stem), ext.
  rewrite app_assoc. auto.
Qed.

Lemma matchesImageGlob_raster d p : matchesImageGlob d p = true -> rasterPath p.
Proof.
  unfold matchesImageGlob. intros H.
  destruct (relativeTo d p) as [rel|] eqn:Er; [|discriminate].
  destruct (List.rev (segments EmptyString rel)) as [|name dirs] eqn:Es; [discriminate|].
  destruct (relative_last _ _ _ _ _ Er Es) as [pre ->].
  apply rasterPath_app, isRasterName_raster.
  destruct dirs; [exact H|].
  apply andb_true_iff in H as [H _]. apply andb_true_iff in H as [H _]. exact H.
Qed.

Lemma rasterPath_lastChar p : rasterPath p -> lastChar p = Some "g"%char.
Proof.
  intros (stem & ext & -> & H). rewrite lastChar_app.
  - destruct H as [->|[->| ->]]; reflexivity.
  - destruct H as [->|[->| ->]]; discriminate.
Qed.

Lemma matchesCssGlob_lastChar d p :
  matchesCssGlob d p = true -> lastChar p = Some "s"%char.
Proof.
  unfold matchesCssGlob. intros H.
  destruct (relativeTo d p) as [rel|] eqn:Er; [|discriminate].
  destruct (List.rev (segments EmptyString rel)) as [|name dirs] eqn:Es; [discriminate|].
  destruct (relative_last _ _ _ _ _ Er Es) as [pre ->].
  apply andb_true_iff in H as [H _]. apply hasExt_lastChar in H as [H Hn].
  rewrite lastChar_app by exact Hn. exact H.
Qed.

(** ** The compact path *)

(** A match of [imageExtRegex] reaches the end of the subject. *)
Lemma imageExt_shape_end s cs s' cs' :
  shape false imageExtRegex s cs s' cs' -> s' = EmptyString.
Proof.
  unfold imageExtRegex. cbn [Seq shape].
  intros (s1 & cs1 & _ & s2 & cs2 & _ & s3 & cs3 & (_ & H3 & _) & H4 & _).
  congruence.
Qed.

(** The compact path of an image path is the path with its extension
    replaced. *)
Lemma webpPathOf_raster p :
  rasterPath p -> exists stem, webpPathOf p = stem +:+ ".webp".
Proof.
  intros (stem & ext & -> & H). unfold webpPathOf.
  destruct (search false imageExtRegex 0 (stem +:+ ext)) as [m|] eqn:E.
  - destruct (replace1_some false imageExtRegex (fun _ => ".webp") _ m E)
      as (pre & _ & Hs & ->).
    apply imageExt_shape_end in Hs. rewrite Hs. exists pre. reflexivity.
  - exfalso. revert E. apply search_found.
    destruct H as [->|[->| ->]]; vm_compute; discriminate.
Qed.

Lemma webpPathOf_lastChar p :
  rasterPath p -> lastChar (webpPathOf p) = Some "p"%char.
Proof.
  intros H. destruct (webpPathOf_raster p H) as [stem ->].
  rewrite lastChar_app; [reflexivity|discriminate].
Qed.

(** ** Discovery *)

Lemma elem_of_globImages d w p :
  p ∈ globImages d w <-> is_Some (files w !! p) /\ matchesImageGlob d p = true.
Proof.
  unfold globImages. rewrite list_elem_of_In, filter_In, <- list_elem_of_In.
  rewrite list_elem_of_fmap. split.
  - intros [([q v] & -> & H) Hm]. apply elem_of_map_to_list in H.
    split; [exists v; exact H|exact Hm].
  - intros [[v H] Hm]. split; [|exact Hm]. exists (p, v).
    split; [reflexivity|]. apply elem_of_map_to_list. exact H.
Qed.

Lemma elem_of_globCss d w p :
  p ∈ globCss d w -> matchesCssGlob d p = true.
Proof.
  unfold globCss. rewrite list_elem_of_In, filter_In. tauto.
Qed.

(** ** The jobs of a pass *)

Lemma startJob_inl w p j :
  startJob w p = inl j <->
  exists b, files w !! p = Some b
            /\ existsSync (webpPathOf p) w = false
            /\ j = MkJob p b (webpPathOf p).
Proof.
  unfold startJob, readFileSync. split.
  - destruct (files w !! p) as [b|]; [|discriminate].
    destruct (existsSync (webpPathOf p) w) eqn:E; [discriminate|].
    intros H. injection H as <-. exists b. auto.
  - intros (b & -> & -> & ->). reflexivity.
Qed.

Lemma startJob_inr w p o :
  startJob w p = inr o ->
  (o = AlreadyExists /\ existsSync (webpPathOf p) w = true)
  \/ (o = Failed /\ files w !! p = None).
Proof.
  unfold startJob, readFileSync.
  destruct (files w !! p) as [b|]; [|intros H; injection H as <-; auto].
  destruct (existsSync (webpPathOf p) w) eqn:E; [|discriminate].
  intros H. injection H as <-. auto.
Qed.

Lemma elem_of_jobsOf w l j :
  j ∈ jobsOf (map (fun p => (p, startJob w p)) l) <->
  exists p, p ∈ l /\ startJob w p = inl j.
Proof.
  unfold jobsOf. rewrite list_elem_of_omap. split.
  - intros ([p x] & Hin & H). apply list_elem_of_fmap in Hin as (q & E & Hq).
    injection E as -> ->. cbn [snd] in H.
    destruct (startJob w q) as [j'|] eqn:Es; [|discriminate].
    injection H as ->. exists q. auto.
  - intros (p & Hp & Hs). exists (p, startJob w p). split.
    + apply list_elem_of_fmap. exists p. auto.
    + cbn [snd]. rewrite Hs. reflexivity.
Qed.

Lemma elem_of_earlyOf w l r :
  r ∈ earlyOf (map (fun p => (p, startJob w p)) l) <->
  exists p o, p ∈ l /\ startJob w p = inr o /\ r = MkReport p o [].
Proof.
  unfold earlyOf. rewrite list_elem_of_omap. split.
  - intros ([p x] & Hin & H). apply list_elem_of_fmap in Hin as (q & E & Hq).
    injection E as -> ->. cbn [snd fst] in H.
    destruct (startJob w q) as [|o] eqn:Es; [discriminate|].
    injection H as <-. exists q, o. auto.
  - intros (p & o & Hp & Hs & ->). exists (p, startJob w p). split.
    + apply list_elem_of_fmap. exists p. auto.
    + cbn [snd fst]. rewrite Hs. reflexivity.
Qed.

(** The stylesheet pass touches only the stylesheets it lists and
    creates no file. *)
Lemma processCssList_files l : forall w,
  let w' := fst (processCssList l w) in
  (forall q, q ∉ l -> files w' !! q = files w !! q)
  /\ (forall q, is_Some (files w' !! q) <-> is_Some (files w !! q)).
Proof.
  induction l as [|c l IH]; intros w; cbn zeta; [split; [reflexivity|tauto]|].
  cbn [processCssList]. unfold readFileSync.
  destruct (files w !! c) as [content|] eqn:Ec.
  - destruct (processCssContent content) as [new|].
    + specialize (IH (writeFileSync c new w)). cbn zeta in IH.
      destruct (processCssList l (writeFileSync c new w)) as [w' n]. cbn [fst] in *.
      destruct IH as [IH1 IH2]. split.
      * intros q Hq. apply not_elem_of_cons in Hq as [Hne Hq].
        rewrite IH1 by exact Hq. cbn [writeFileSync files].
        apply lookup_insert_ne. congruence.
      * intros q. rewrite IH2. cbn [writeFileSync files].
        destruct (decide (c = q)) as [->|Hne].
        -- rewrite lookup_insert_eq, Ec. split; eauto.
        -- rewrite lookup_insert_ne by exact Hne. tauto.
    + specialize (IH w). cbn zeta in IH. destruct IH as [IH1 IH2]. split; [|exact IH2].
      intros q Hq. apply not_elem_of_cons in Hq as [_ Hq]. apply IH1, Hq.
  - specialize (IH w). cbn zeta in IH. destruct IH as [IH1 IH2]. split; [|exact IH2].
    intros q Hq. apply not_elem_of_cons in Hq as [_ Hq]. apply IH1, Hq.
Qed.

Section Pass.

Variable sharpWebp : Buffer -> Z -> bool -> option Buffer.

Lemma finishJob_world cfg j w :
  fst (fst (finishJob sharpWebp cfg j w))
  = if keeps sharpWebp cfg j
    then match fst (transcode sharpWebp cfg (j_buffer j)) with
         | Some buf => writeFileSync (j_webpPath j) buf w
         | None => w
         end
    else w.
Proof.
  unfold finishJob, keeps.
  destruct (transcode sharpWebp cfg (j_buffer j)) as [[buf|] log]; [|reflexivity].
  rewrite ConvertFacts.retain_spec. cbn [fst].
  destruct (len buf <? len (j_buffer j)), (onlySmallerFiles cfg); reflexivity.
Qed.

Lemma keeps_transcode cfg j :
  keeps sharpWebp cfg j = true -> exists buf, fst (transcode sharpWebp cfg (j_buffer j)) = Some buf.
Proof.
  unfold keeps. destruct (transcode sharpWebp cfg (j_buffer j)) as [[buf|] log];
    [eauto|discriminate].
Qed.

Lemma finishJobs_cons cfg j js w st :
  finishJobs sharpWebp cfg (j :: js) w st =
  let r1 := finishJob sharpWebp cfg j w in
  let r2 := finishJobs sharpWebp cfg js (fst (fst r1))
              (countOutcome (snd (fst r1)) st) in
  (fst (fst r2), snd (fst r2),
   MkReport (j_path j) (snd (fst r1)) (snd r1) :: snd r2).
Proof.
  cbn [finishJobs]. destruct (finishJob sharpWebp cfg j w) as [[w1 o] log].
  cbn [fst snd]. destruct (finishJobs sharpWebp cfg js w1 (countOutcome o st)) as [[w2 st2] rs].
  reflexivity.
Qed.

(** Jobs that keep nothing leave the disk and the write log alone. *)
Lemma finishJobs_nokeep cfg js : forall w st,
  (forall j, j ∈ js -> keeps sharpWebp cfg j = false) ->
  fst (fst (finishJobs sharpWebp cfg js w st)) = w.
Proof.
  induction js as [|j js IH]; intros w st H; [reflexivity|].
  rewrite finishJobs_cons. cbn zeta. cbn [fst snd].
  rewrite finishJob_world, (H j) by (left). apply IH.
  intros j' Hj'. apply H. right. exact Hj'.
Qed.

Lemma finishJobs_reports cfg js : forall w st r,
  r ∈ snd (finishJobs sharpWebp cfg js w st) ->
  exists j, j ∈ js /\ r_path r = j_path j.
Proof.
  induction js as [|j js IH]; intros w st r H; [inversion H|].
  rewrite finishJobs_cons in H. cbn zeta in H. cbn [fst snd] in H.
  apply elem_of_cons in H as [->|H].
  - exists j. split; [left|reflexivity].
  - apply IH in H as (j' & Hj' & E). exists j'. split; [right; exact Hj'|exact E].
Qed.

(** The files after the jobs: every kept compact file is there, every
    file that was there still is, and only compact paths of the jobs
    can have changed. *)
Lemma finishJobs_files cfg js : forall w st,
  let w' := fst (fst (finishJobs sharpWebp cfg js w st)) in
  (forall j, j ∈ js -> keeps sharpWebp cfg j = true -> is_Some (files w' !! j_webpPath j))
  /\ (forall q, (forall j, j ∈ js -> q <> j_webpPath j) -> files w' !! q = files w !! q)
  /\ (forall q, is_Some (files w !! q) -> is_Some (files w' !! q)).
Proof.
  induction js as [|j js IH]; intros w st; cbn zeta.
  - split; [intros j H; inversion H|]. split; auto.
  - rewrite finishJobs_cons. cbn zeta. cbn [fst snd].
    set (w1 := fst (fst (finishJob sharpWebp cfg j w))).
    specialize (IH w1 (countOutcome (snd (fst (finishJob sharpWebp cfg j w))) st)).
    cbn zeta in IH. destruct IH as (IH1 & IH2 & IH3).
    assert (Hmono : forall q, is_Some (files w !! q) -> is_Some (files w1 !! q)).
    { intros q Hq. subst w1. rewrite finishJob_world.
      destruct (keeps sharpWebp cfg j); [|exact Hq].
      destruct (fst (transcode sharpWebp cfg (j_buffer j))); [|exact Hq].
      cbn [writeFileSync files]. destruct (decide (j_webpPath j = q)) as [->|Hne].
      - rewrite lookup_insert_eq. eauto.
      - rewrite lookup_insert_ne by exact Hne. exact Hq. }
    split; [|split].
    + intros j' Hj' Hk. apply elem_of_cons in Hj' as [->|Hj']; [|apply IH1; assumption].
      apply IH3. subst w1. rewrite finishJob_world, Hk.
      destruct (keeps_transcode cfg j Hk) as [buf ->].
      cbn [writeFileSync files]. rewrite lookup_insert_eq. eauto.
    + intros q Hq. rewrite IH2 by (intros j' Hj'; apply Hq; right; exact Hj').
      subst w1. rewrite finishJob_world.
      destruct (keeps sharpWebp cfg j); [|reflexivity].
      destruct (fst (transcode sharpWebp cfg (j_buffer j))); [|reflexivity].
      cbn [writeFileSync files]. apply lookup_insert_ne.
      intros E. apply (Hq j); [left|]. symmetry. exact E.
    + intros q Hq. apply IH3, Hmono, Hq.
Qed.

End Pass.

End PassFacts.

(* ===================================================================== *)
(** * Facts about the stylesheet rewriting *)
(* ===================================================================== *)

Module CssFacts.
Import JS Re Css JSFacts ReFacts Notions.

(** ** Counting the url( occurrences *)





(** ** The comma outside functions *)







(** ** The placeholders *)

Lemma cls_notUnderscore c :
  cls_has false true [CChar "_"] c = notUnderscore c.
Proof.
  unfold cls_has, notUnderscore. cbn [existsb item_has canon xorb].
  rewrite orb_false_r. reflexivity.
Qed.

Lemma allChars_ext f g s : (forall c, f c = g c) -> allChars f s = allChars g s.
Proof.
  intros H. induction s as [|c s IH]; [reflexivity|].
  cbn [allChars]. rewrite H, IH. reflexivity.
Qed.

Lemma allChars_cls s :
  allChars (cls_has false true [CChar "_"]) s = allChars notUnderscore s.
Proof. apply allChars_ext, cls_notUnderscore. Qed.

Lemma placeholder_app p w rest :
  placeholder p w +:+ rest
  = placeholderMark +:+ (p +:+ ("__" +:+ (w +:+ ("__" +:+ rest)))).
Proof.
  unfold placeholder, placeholderMark. rewrite !app_assoc. reflexivity.
Qed.

(** The placeholder of two underscore-free, non-empty paths is matched
    as a whole, with the two paths as captures. *)
Lemma placeholder_match p w rest pos :
  p <> EmptyString -> w <> EmptyString ->
  allChars notUnderscore p = true -> allChars notUnderscore w = true ->
  match_at false placeholderRegex pos (placeholder p w +:+ rest)
  = Some (MRes pos (placeholder p w) [(2, w); (1, p)] rest).
Proof.
  intros Hp Hw Ap Aw. rewrite <- allChars_cls in Ap, Aw.
  unfold match_at, placeholderRegex. cbn [Seq].
  rewrite rmatch_Cat, rmatch_Str. fold placeholderMark.
  remember (placeholder p w +:+ rest) as S eqn:ES.
  rewrite placeholder_app in ES.
  assert (H1 : startsWith placeholderMark S = true)
    by (rewrite ES; apply startsWith_app).
  assert (H2 : drop (len placeholderMark) S
               = p +:+ ("__" +:+ (w +:+ ("__" +:+ rest))))
    by (rewrite ES; apply drop_app).
  rewrite H1, H2. clear H1 H2.
  rewrite rmatch_Cat, rmatch_Grp.
  apply plus_cls_run; [exact Hp|exact Ap|reflexivity|].
  rewrite suffix_take_eq.
  rewrite rmatch_Cat, rmatch_Str, startsWith_app, drop_app.
  rewrite rmatch_Cat, rmatch_Grp.
  apply plus_cls_run; [exact Hw|exact Aw|reflexivity|].
  rewrite suffix_take_eq.
  rewrite rmatch_Cat, rmatch_Str, startsWith_app, drop_app, rmatch_Eps.
  f_equal. f_equal. subst S. rewrite <- placeholder_app. apply suffix_take_eq.
Qed.

(** The pattern does not match at a character other than the
    underscore, nor at the end of the text. *)
Lemma placeholder_skip c s pos :
  notUnderscore c = true ->
  match_at false placeholderRegex pos (String c s) = None.
Proof.
  intros H. unfold match_at, placeholderRegex. cbn [Seq].
  rewrite rmatch_Cat, rmatch_Str. cbn [startsWith].
  unfold notUnderscore in H. apply negb_true_iff in H.
  rewrite Ascii.eqb_sym, H. reflexivity.
Qed.

Lemma placeholder_nil pos :
  match_at false placeholderRegex pos EmptyString = None.
Proof. reflexivity. Qed.

(** Text without underscores is passed over by the scan. *)
Lemma scan_plain t : forall X pos,
  allChars notUnderscore t = true ->
  scanFrom false placeholderRegex pos (t +:+ X)
  = gap_app t (scanFrom false placeholderRegex (pos + len t) X).
Proof.
  induction t as [|c t IH]; intros X pos H.
  - rewrite app_nil_l, len_nil, Nat.add_0_r. reflexivity.
  - cbn [allChars] in H. apply andb_true_iff in H as [Hc Ht].
    rewrite app_cons, scanFrom_skip by (apply placeholder_skip; exact Hc).
    rewrite IH by exact Ht. rewrite len_cons, Nat.add_succ_r. reflexivity.
Qed.

Lemma len_placeholder_lt p w rest : len rest < len (placeholder p w +:+ rest).
Proof.
  rewrite placeholder_app, !len_app. change (len placeholderMark) with 20. lia.
Qed.

Lemma scan_placeholder p w X pos :
  p <> EmptyString -> w <> EmptyString ->
  allChars notUnderscore p = true -> allChars notUnderscore w = true ->
  scanFrom false placeholderRegex pos (placeholder p w +:+ X)
  = ((EmptyString, MRes pos (placeholder p w) [(2, w); (1, p)] X)
       :: fst (scanFrom false placeholderRegex (pos + len (placeholder p w)) X),
     snd (scanFrom false placeholderRegex (pos + len (placeholder p w)) X)).
Proof.
  intros Hp Hw Ap Aw.
  rewrite (scanFrom_match _ _ _ _ _ (placeholder_match p w X pos Hp Hw Ap Aw)).
  - reflexivity.
  - apply len_placeholder_lt.
Qed.

(** ** Text made of plain parts and placeholders *)

Lemma decodePlaceholders_spliceR s :
  decodePlaceholders s = spliceR decodeOne (scanFrom false placeholderRegex 0 s).
Proof.
  unfold decodePlaceholders, replaceAllStr. rewrite replaceAll_spliceR.
  unfold spliceR. apply splice_ext. intros m _. reflexivity.
Qed.

(** The scan of such a text finds exactly the placeholders. *)
Lemma scan_parts : forall xs pos,
  Forall partOk xs ->
  spliceR decodeOne (scanFrom false placeholderRegex pos (textOf xs)) = decodedOf xs
  /\ map (fun m => (group 1 m, group 2 m))
         (map snd (fst (scanFrom false placeholderRegex pos (textOf xs))))
     = pairsOf xs.
Proof.
  induction xs as [|x xs IH]; intros pos H.
  - unfold textOf, decodedOf. cbn [map concatStr fold_right].
    rewrite scanFrom_nil by apply placeholder_nil. split; reflexivity.
  - inversion H as [|? ? Hx Hxs]; subst.
    unfold textOf, decodedOf in *. cbn [map concatStr fold_right].
    fold (concatStr (map partText xs)). fold (concatStr (map partDecoded xs)).
    destruct x as [t|p w]; cbn [partText partDecoded pairsOf partOk] in *.
    + rewrite scan_plain by exact Hx.
      rewrite spliceR_gap_app, matches_gap_app.
      destruct (IH (pos + len t) Hxs) as [IH1 IH2]. rewrite IH1, IH2.
      split; reflexivity.
    + destruct Hx as (Hp & Hw & Ap & Aw).
      rewrite scan_placeholder by assumption.
      destruct (IH (pos + len (placeholder p w)) Hxs) as [IH1 IH2].
      unfold spliceR in *. cbn [fst snd splice map].
      rewrite IH1, IH2. split; reflexivity.
Qed.

Lemma decode_parts xs :
  Forall partOk xs ->
  decodePlaceholders (textOf xs) = decodedOf xs
  /\ collectReplacements (textOf xs) = pairsOf xs.
Proof.
  intros H. rewrite decodePlaceholders_spliceR.
  unfold collectReplacements. rewrite execAll_scanFrom.
  apply scan_parts. exact H.
Qed.

(** ** The references the first stage selects *)

Lemma urlCallback_selected remote css m :
  urlCallback remote css m
  = if selected remote css m
    then placeholder (group 1 m) (cssWebpPath (group 1 m)) else m_text m.
Proof.
  unfold urlCallback, selected.
  destruct (skippedRef remote (group 1 m)); [reflexivity|].
  destruct (isMultipleBackground (currentRule css (m_index m))); reflexivity.
Qed.

Lemma textOf_cons x xs : textOf (x :: xs) = partText x +:+ textOf xs.
Proof. reflexivity. Qed.

Lemma decodedOf_cons x xs : decodedOf (x :: xs) = partDecoded x +:+ decodedOf xs.
Proof. reflexivity. Qed.

Lemma textOf_partsOf remote css ms tl :
  textOf (partsOf remote css ms tl) = splice (urlCallback remote css) ms tl.
Proof.
  induction ms as [|[g m] ms IH].
  - cbn [partsOf splice]. rewrite textOf_cons. apply app_nil_r.
  - cbn [partsOf splice]. rewrite !textOf_cons, IH, urlCallback_selected.
    destruct (selected remote css m); reflexivity.
Qed.

Lemma decodedOf_partsOf remote css ms tl :
  decodedOf (partsOf remote css ms tl) = splice (requote remote css) ms tl.
Proof.
  induction ms as [|[g m] ms IH].
  - cbn [partsOf splice]. rewrite decodedOf_cons. apply app_nil_r.
  - cbn [partsOf splice]. rewrite !decodedOf_cons, IH. unfold requote.
    destruct (selected remote css m); reflexivity.
Qed.

Lemma pairs_partsOf remote css ms tl :
  pairsOf (partsOf remote css ms tl)
  = map (fun m => (group 1 m, cssWebpPath (group 1 m)))
        (List.filter (selected remote css) (map snd ms)).
Proof.
  induction ms as [|[g m] ms IH]; [reflexivity|].
  cbn [partsOf pairsOf map snd List.filter].
  destruct (selected remote css m); cbn [pairsOf map]; rewrite IH; reflexivity.
Qed.

(** ** What a reference captures *)

Lemma shape_Cat ic r1 r2 s cs s' cs' :
  shape ic (Cat r1 r2) s cs s' cs' ->
  exists s1 cs1, shape ic r1 s cs s1 cs1 /\ shape ic r2 s1 cs1 s' cs'.
Proof. exact (fun H => H). Qed.

Lemma shape_Grp ic n r s cs s' cs' :
  shape ic (Grp n r) s cs s' cs' ->
  exists cs1, shape ic r s cs s' cs1 /\ cs' = (n, take (len s - len s') s) :: cs1.
Proof. exact (fun H => H). Qed.

Lemma shape_Cls ic neg items s cs s' cs' :
  shape ic (Cls neg items) s cs s' cs' ->
  exists a, s = String a s' /\ cls_has ic neg items a = true /\ cs' = cs.
Proof. exact (fun H => H). Qed.

(** One or more characters of a class: the text consumed, which is not
    empty and lies in the class. *)
Lemma shape_star_cls ic neg items : forall s cs s' cs',
  shape ic (Star (Cls neg items)) s cs s' cs' ->
  exists g, s = g +:+ s' /\ allChars (cls_has ic neg items) g = true /\ cs' = cs.
Proof.
  intros s cs s' cs' H. cbn [shape] in H.
  induction H as [s cs|s cs s1 cs1 s2 cs2 H1 Hl H2 IH].
  - exists EmptyString. auto.
  - destruct H1 as (a & -> & Ha & ->). destruct IH as (g & -> & Hg & ->).
    exists (String a g). cbn [allChars]. rewrite Ha, Hg. auto.
Qed.

Lemma shape_plus_cls ic neg items s cs s' cs' :
  shape ic (Plus (Cls neg items)) s cs s' cs' ->
  exists g, s = g +:+ s' /\ g <> EmptyString
            /\ allChars (cls_has ic neg items) g = true /\ cs' = cs.
Proof.
  unfold Plus. intros H. apply shape_Cat in H as (s1 & cs1 & H1 & H2).
  apply shape_Cls in H1 as (a & -> & Ha & ->).
  apply shape_star_cls in H2 as (g & -> & Hg & ->).
  exists (String a g). cbn [allChars]. rewrite Ha, Hg.
  split; [reflexivity|]. split; [discriminate|]. auto.
Qed.

Lemma take_nonempty n s : 0 < n -> s <> EmptyString -> take n s <> EmptyString.
Proof. destruct n; [lia|]. destruct s; [contradiction|]. discriminate. Qed.

(** The path of a reference is not empty. *)
Lemma url_group1_nonempty pos t m :
  match_at true urlRegex pos t = Some m -> group 1 m <> EmptyString.
Proof.
  intros E. apply match_at_sound in E as (_ & _ & H).
  unfold urlRegex in H. cbn [Seq] in H.
  apply shape_Cat in H as (s1 & cs1 & _ & H).
  apply shape_Cat in H as (s2 & cs2 & _ & H).
  apply shape_Cat in H as (s3 & cs3 & HG & H).
  apply shape_Cat in H as (s4 & cs4 & HD & H).
  apply shape_Cat in H as (s5 & cs5 & HE & HF).
  apply shape_groupFree in HD; [|reflexivity].
  apply shape_groupFree in HE; [|reflexivity].
  apply shape_groupFree in HF; [|reflexivity].
  apply shape_Grp in HG as (c & HR & ->). subst cs4 cs5.
  unfold group. rewrite HF. cbn [cap_get Nat.eqb].
  apply shape_Cat in HR as (sa & csa & HP & HR).
  apply shape_plus_cls in HP as (g & -> & Hg & _).
  apply shape_suffix, suffix_len in HR.
  apply take_nonempty.
  - rewrite len_app in *. destruct g; [contradiction|]. rewrite len_cons. lia.
  - intros Hn. apply app_eq_nil in Hn as [Hn _]. contradiction.
Qed.

Lemma allChars_notUnderscore_webp : allChars notUnderscore ".webp" = true.
Proof. reflexivity. Qed.

(** The compact path of an underscore-free, non-empty path is
    underscore-free and not empty. *)
Lemma cssWebpPath_ok p :
  p <> EmptyString -> allChars notUnderscore p = true ->
  cssWebpPath p <> EmptyString /\ allChars notUnderscore (cssWebpPath p) = true.
Proof.
  intros Hp Ap. unfold cssWebpPath.
  destruct (search true rasterExtRegex 0 p) as [m|] eqn:E.
  - destruct (replace1_some true rasterExtRegex (fun _ => ".webp") p m E)
      as (pre & Hs & _ & ->).
    rewrite Hs, !allChars_app in Ap.
    apply andb_true_iff in Ap as [A1 A2]. apply andb_true_iff in A2 as [_ A2].
    split.
    + intros Hn. apply app_eq_nil in Hn as [_ Hn].
      apply app_eq_nil in Hn as [Hn _]. discriminate.
    + rewrite !allChars_app, A1, A2. reflexivity.
  - rewrite replace1_none by exact E. auto.
Qed.

Lemma allChars_splice P f ms tl :
  allChars P (splice f ms tl) = true ->
  Forall (fun gm => allChars P (fst gm) = true /\ allChars P (f (snd gm)) = true) ms
  /\ allChars P tl = true.
Proof.
  induction ms as [|[g m] ms IH]; intros H; cbn [splice] in H.
  - split; [constructor|exact H].
  - rewrite !allChars_app in H.
    apply andb_true_iff in H as [H1 H2]. apply andb_true_iff in H2 as [H2 H3].
    destruct (IH H3) as [IH1 IH2]. split; [|exact IH2].
    constructor; [split; assumption|exact IH1].
Qed.

(** The parts of the encoded text of an underscore-free stylesheet are
    all well formed. *)
Lemma partsOf_ok remote css :
  allChars notUnderscore css = true ->
  Forall partOk (partsOf remote css (fst (scanFrom true urlRegex 0 css))
                   (snd (scanFrom true urlRegex 0 css))).
Proof.
  intros Hcss.
  pose proof (scan_partition true urlRegex (S (len css)) 0 css ltac:(lia)) as Hp.
  pose proof (fun m => scan_matches true urlRegex (S (len css)) 0 css m ltac:(lia)) as Hm.
  destruct (scanFrom true urlRegex 0 css) as [ms tl]. cbn [fst snd] in *.
  unfold spliceR in Hp. cbn [fst snd] in Hp.
  pose proof Hcss as Hall. rewrite <- Hp in Hall.
  apply allChars_splice in Hall as [Hms Htl].
  clear Hp. induction ms as [|[g m] ms IH]; cbn [partsOf].
  - constructor; [exact Htl|constructor].
  - inversion Hms as [|? ? [Hg Ht] Hms']; subst. cbn [fst snd] in *.
    constructor; [exact Hg|]. constructor.
    + destruct (selected remote css m); [|exact Ht]. cbn [partOk].
      destruct (Hm m) as (pos' & t & Hs & Hmt); [left|].
      assert (A1 : allChars notUnderscore (group 1 m) = true).
      { eapply group_allChars; [exact Hmt|].
        eapply allChars_suffix; [exact Hs|exact Hcss]. }
      pose proof (url_group1_nonempty pos' t m Hmt) as N1.
      destruct (cssWebpPath_ok (group 1 m) N1 A1) as [N2 A2]. auto.
    + apply IH; [|exact Hms']. intros m' Hm'. apply Hm. right. exact Hm'.
Qed.

(** ** What the two stages do to a stylesheet *)

(** For a stylesheet without underscores the second stage undoes the
    first, up to the quotes: the decoded text is the stylesheet with
    every selected reference requoted, and the pairs collected are those
    of the selected references, in order. *)
Lemma decode_encode remote css :
  allChars notUnderscore css = true ->
  let ms := fst (scanAll true urlRegex css) in
  let tl := snd (scanAll true urlRegex css) in
  decodePlaceholders (encodeUrls remote css) = splice (requote remote css) ms tl
  /\ collectReplacements (encodeUrls remote css)
     = map (fun m => (group 1 m, cssWebpPath (group 1 m)))
           (List.filter (selected remote css) (map snd ms)).
Proof.
  intros Hcss. cbv zeta. rewrite scanAll_scanFrom.
  pose proof (partsOf_ok remote css Hcss) as Hok.
  unfold encodeUrls. rewrite replaceAll_spliceR. unfold spliceR.
  rewrite <- textOf_partsOf.
  destruct (decode_parts _ Hok) as [H1 H2].
  rewrite H1, H2, decodedOf_partsOf, pairs_partsOf. split; reflexivity.
Qed.

(** ** The round trip of one placeholder *)






End CssFacts.

(* ===================================================================== *)
(** * Facts about the loader *)
(* ===================================================================== *)

Module LoaderFacts.
Import JS Re Css Fs Convert Loader Notions.

(** ** The list of imports without duplicates *)

Lemma findIndex_lt fm self i : findIndex fm self = Some i -> i < length self.
Proof.
  revert i. induction self as [|t self IH]; intros i H; cbn in *; [discriminate|].
  destruct (String.eqb (i_fullMatch t) fm).
  - injection H as <-. lia.
  - destruct (findIndex fm self) as [k|]; cbn in H; [|discriminate].
    injection H as <-. specialize (IH k eq_refl). lia.
Qed.

Lemma findIndex_None fm self :
  findIndex fm self = None <-> fm ∉ map i_fullMatch self.
Proof.
  induction self as [|t self IH]; cbn.
  - split; [intros _; apply not_elem_of_nil|reflexivity].
  - rewrite not_elem_of_cons.
    destruct (String.eqb_spec (i_fullMatch t) fm) as [E|E].
    + split; [discriminate|]. intros [H _]. congruence.
    + destruct (findIndex fm self) as [k|]; cbn.
      * split; [discriminate|]. intros [_ H]. apply IH in H. discriminate.
      * split; [|reflexivity]. intros _. split; [congruence|]. apply IH. reflexivity.
Qed.

Lemma findIndex_app fm pre l :
  findIndex fm (pre ++ l) =
  match findIndex fm pre with
  | Some i => Some i
  | None => option_map (fun i => length pre + i) (findIndex fm l)
  end.
Proof.
  induction pre as [|t pre IH]; cbn.
  - destruct (findIndex fm l); reflexivity.
  - destruct (String.eqb (i_fullMatch t) fm); [reflexivity|].
    rewrite IH. destruct (findIndex fm pre); cbn; [reflexivity|].
    destruct (findIndex fm l); reflexivity.
Qed.

Lemma dedupFrom_firstOccurrences pre items :
  dedupFrom (length pre) items (pre ++ items)
  = firstOccurrences (map i_fullMatch pre) items.
Proof.
  revert pre. induction items as [|item items IH]; intros pre; [reflexivity|].
  cbn [dedupFrom firstOccurrences].
  assert (Hnext : dedupFrom (S (length pre)) items (pre ++ item :: items)
                  = firstOccurrences (map i_fullMatch pre ++ [i_fullMatch item]) items).
  { specialize (IH (pre ++ [item])).
    rewrite length_app, Nat.add_1_r, <- app_assoc in IH. cbn [app] in IH.
    rewrite IH, map_app. reflexivity. }
  rewrite Hnext, findIndex_app.
  destruct (findIndex (i_fullMatch item) pre) as [i|] eqn:E.
  - pose proof (findIndex_lt _ _ _ E) as Hlt.
    rewrite bool_decide_eq_false_2 by (intros H; injection H; lia).
    rewrite bool_decide_eq_true_2; [reflexivity|].
    destruct (decide (i_fullMatch item ∈ map i_fullMatch pre)) as [Hi|Hi]; [exact Hi|].
    apply findIndex_None in Hi. congruence.
  - cbn [findIndex]. rewrite String.eqb_refl. cbn [option_map].
    rewrite Nat.add_0_r, bool_decide_eq_true_2 by reflexivity.
    rewrite bool_decide_eq_false_2; [reflexivity|].
    apply findIndex_None. exact E.
Qed.

Lemma dedupImports_firstOccurrences l :
  dedupImports l = firstOccurrences [] l.
Proof. exact (dedupFrom_firstOccurrences [] l). Qed.

Lemma firstOccurrences_elem seen items t :
  t ∈ map i_fullMatch (firstOccurrences seen items)
  <-> t ∈ map i_fullMatch items /\ t ∉ seen.
Proof.
  revert seen. induction items as [|item items IH]; intros seen; cbn [firstOccurrences map].
  - rewrite elem_of_nil. tauto.
  - case_bool_decide as Hin.
    + rewrite IH, elem_of_cons, not_elem_of_app, list_elem_of_singleton.
      split.
      * intros [H1 [H2 H3]]. tauto.
      * intros [[->|H1] H2]; [contradiction|]. split; [exact H1|]. split; [exact H2|].
        intros ->. contradiction.
    + cbn [map]. rewrite !elem_of_cons, IH, not_elem_of_app, list_elem_of_singleton.
      split.
      * intros [->|[H1 [H2 H3]]]; tauto.
      * intros [[->|H1] H2]; [left; reflexivity|].
        destruct (decide (t = i_fullMatch item)) as [->|Hne]; [left; reflexivity|].
        right. tauto.
Qed.

Lemma firstOccurrences_NoDup seen items :
  NoDup (map i_fullMatch (firstOccurrences seen items)).
Proof.
  revert seen. induction items as [|item items IH]; intros seen; cbn [firstOccurrences].
  - constructor.
  - case_bool_decide as Hin; [apply IH|].
    cbn [map]. apply NoDup_cons. split; [|apply IH].
    rewrite firstOccurrences_elem, not_elem_of_app, list_elem_of_singleton.
    tauto.
Qed.

(** ** What the loader writes *)

(** The loader keeps or drops the buffer its search ends with by the
    rule of the full pass: it is written, and the statement is pointed
    at it, exactly when it is smaller than the image or
    [onlySmallerFiles] is off. *)
Lemma tryBlock_retention
    (sharpWebp : Buffer -> Z -> bool -> option Buffer)
    (resolve : string -> string -> string + string) (hasTmpTracker : bool)
    (cfg : Config) (resourcePath cleanPath imagePath : string) (st : LState)
    (img buf : Buffer) (log : list Attempt) :
  resolve (contextDir resourcePath) cleanPath = inl imagePath ->
  imagePath ∉ l_processed st ->
  readFileSync imagePath (l_world st) = Some img ->
  transcode sharpWebp cfg img = (Some buf, log) ->
  let r := tryBlock sharpWebp resolve hasTmpTracker cfg resourcePath cleanPath
             false st in
  l_world (fst (fst r))
  = (if (len buf <? len img) || negb (onlySmallerFiles cfg)
     then writeFileSync (webpPathOf imagePath) buf (l_world st)
     else l_world st)
  /\ snd r = Completed ((len buf <? len img) || negb (onlySmallerFiles cfg)).
Proof.
  intros Hr Hp Hread Ht. cbv zeta. unfold tryBlock. rewrite Hr.
  rewrite bool_decide_eq_false_2 by exact Hp.
  assert (He : existsSync imagePath (l_world st) = true).
  { unfold existsSync. unfold readFileSync in Hread. rewrite Hread. reflexivity. }
  rewrite He. cbn [negb andb l_world]. rewrite Hread, Ht.
  cbn [l_world]. unfold retain.
  destruct (len buf <? len img), (onlySmallerFiles cfg); cbn; split; reflexivity.
Qed.

End LoaderFacts.

(* ===================================================================== *)
(** * The quality search (C1, C2) *)
(* ===================================================================== *)

Module SearchClaims.
Import JS Re Css Fs Convert ConvertFacts Notions Samples.

(** C1. When the encoding at the configured quality is not smaller than
    the original, the mode is lossy and the quality is above the floor,
    the search encodes again at the quality lowered by 5 per attempt, as
    long as the result is not smaller and the quality is at least the
    floor: if attempt [k] (at [quality - 5k], still at or above
    [minQuality]) is the first that is smaller, then exactly the
    attempts 0..k are made, the buffer of attempt [k] is returned, its
    quality is the accepted one, and the retention step writes it with
    the outcome Smaller. *)
Theorem quality_search_accepts_first_smaller
    (sharpWebp : Buffer -> Z -> bool -> option Buffer) (cfg : Config)
    (img : Buffer) (enc : nat -> Buffer) (k : nat) :
  lossless cfg = false ->
  (minQuality cfg < quality cfg)%Z ->
  1 <= k ->
  (forall j, j <= k ->
     sharpWebp img (quality cfg - 5 * Z.of_nat j)%Z false = Some (enc j)) ->
  (forall j, j < k -> len img <= len (enc j)) ->
  (minQuality cfg <= quality cfg - 5 * Z.of_nat k)%Z ->
  len (enc k) < len img ->
  transcode sharpWebp cfg img = (Some (enc k), descending (quality cfg) (S k))
  /\ acceptedQuality (snd (transcode sharpWebp cfg img))
     = Some (quality cfg - 5 * Z.of_nat k)%Z
  /\ forall webpPath w,
       retain cfg webpPath (len img) (enc k) w
       = (writeFileSync webpPath (enc k) w, Smaller (len img - len (enc k))).
Proof.
  intros Hl Hq Hk Hs Hn Hfloor Hsmall.
  assert (Ht : transcode sharpWebp cfg img
               = (Some (enc k), descending (quality cfg) (S k))).
  { apply transcode_run; auto. }
  split; [exact Ht|]. split.
  - rewrite Ht. unfold acceptedQuality. cbn [snd].
    rewrite lastAttempt_descending. reflexivity.
  - intros webpPath w. rewrite retain_spec.
    apply Nat.ltb_lt in Hsmall. rewrite Hsmall. reflexivity.
Qed.

(** The example of the specification: policy quality 80 and floor 60,
    sizes 110, 105 and 98 percent of the original at 80, 75 and 70. The
    accepted quality is 70 and the outcome is Smaller. *)
Lemma quality_search_example :
  (lossless samplePolicy = false
   /\ (minQuality samplePolicy < quality samplePolicy)%Z
   /\ 1 <= 2
   /\ (forall j, j <= 2 ->
         sampleCodec (bytes 100) (quality samplePolicy - 5 * Z.of_nat j)%Z false
         = Some (sampleEnc j))
   /\ (forall j, j < 2 -> len (bytes 100) <= len (sampleEnc j))
   /\ (minQuality samplePolicy <= quality samplePolicy - 5 * Z.of_nat 2)%Z
   /\ len (sampleEnc 2) < len (bytes 100))
  /\ (transcode sampleCodec samplePolicy (bytes 100)
      = (Some (bytes 98), [MkAttempt 80 false; MkAttempt 75 false; MkAttempt 70 false])
      /\ acceptedQuality (snd (transcode sampleCodec samplePolicy (bytes 100)))
         = Some 70%Z
      /\ forall webpPath w,
           retain samplePolicy webpPath (len (bytes 100)) (bytes 98) w
           = (writeFileSync webpPath (bytes 98) w, Smaller 2)).
Proof.
  assert (H1 : forall j, j <= 2 ->
             sampleCodec (bytes 100) (quality samplePolicy - 5 * Z.of_nat j)%Z false
             = Some (sampleEnc j)).
  { intros [|[|[|j]]] Hj; try reflexivity. exfalso; lia. }
  assert (H2 : forall j, j < 2 -> len (bytes 100) <= len (sampleEnc j)).
  { intros [|[|j]] Hj; [vm_compute; lia | vm_compute; lia | exfalso; lia]. }
  assert (H3 : len (sampleEnc 2) < len (bytes 100)) by (vm_compute; lia).
  split.
  - split; [reflexivity|]. split; [reflexivity|]. split; [lia|].
    split; [exact H1|]. split; [exact H2|]. split; [vm_compute; discriminate|exact H3].
  - exact (quality_search_accepts_first_smaller sampleCodec samplePolicy
             (bytes 100) sampleEnc 2 eq_refl eq_refl (le_S _ _ (le_n 1)) H1 H2
             ltac:(vm_compute; discriminate) H3).
Defined.



End SearchClaims.

(* ===================================================================== *)
(** * Running the conversion twice (C3) *)
(* ===================================================================== *)

Module PassClaims.
Import JS Re Css Fs Convert JSFacts ReFacts PassFacts Notions Samples.

Section TwoPasses.

Variable sharpWebp : Buffer -> Z -> bool -> option Buffer.
Variables sched1 sched2 : list Job -> list Job.
Hypothesis sched1_perm : forall l, Permutation (sched1 l) l.
Hypothesis sched2_perm : forall l, Permutation (sched2 l) l.

Variable cfg : Config.
Variable distDir : string.
Variable w : World.

(** The jobs of the first pass, the disk after its image part and the
    disk after all of it. *)
Local Abbreviation jobs1 :=
  (jobsOf (map (fun p => (p, startJob w p)) (globImages distDir w))).
Local Abbreviation afterImages :=
  (fst (fst (finishJobs sharpWebp cfg (sched1 jobs1) w
               (MkStats (length (globImages distDir w)) 0 0 0)))).
Local Abbreviation w1 := (fst (fst (convertToWebp sharpWebp sched1 cfg distDir w))).

Lemma convertImages_world :
  fst (fst (convertImages sharpWebp sched1 cfg distDir w)) = afterImages.
Proof.
  unfold convertImages.
  destruct (finishJobs sharpWebp cfg _ w _) as [[w' st'] rs]. reflexivity.
Qed.

Lemma w1_cases :
  w1 = afterImages \/ w1 = fst (processCssFiles distDir afterImages).
Proof.
  unfold convertToWebp. rewrite <- convertImages_world.
  destruct (convertImages sharpWebp sched1 cfg distDir w) as [[wi st] rs].
  cbn [fst]. destruct (processCss cfg); [right|left]; reflexivity.
Qed.

Lemma jobs1_shape j :
  j ∈ jobs1 ->
  rasterPath (j_path j) /\ j_webpPath j = webpPathOf (j_path j).
Proof.
  rewrite elem_of_jobsOf. intros (p & Hp & Hs).
  apply startJob_inl in Hs as (b & _ & _ & ->). cbn [j_path j_webpPath].
  apply elem_of_globImages in Hp as [_ Hp].
  split; [eapply matchesImageGlob_raster; exact Hp|reflexivity].
Qed.

(** An image path is no compact path of a job. *)
Lemma raster_not_webp p j :
  rasterPath p -> j ∈ sched1 jobs1 -> p <> j_webpPath j.
Proof.
  intros Hp Hj E. rewrite sched1_perm in Hj.
  apply jobs1_shape in Hj as [Hr Hw].
  apply rasterPath_lastChar in Hp. apply webpPathOf_lastChar in Hr.
  rewrite <- Hw, <- E, Hp in Hr. discriminate.
Qed.

(** The first pass leaves every image as it was. *)
Lemma first_pass_keeps_images p :
  rasterPath p -> files w1 !! p = files w !! p.
Proof.
  intros Hp.
  assert (Ha : files afterImages !! p = files w !! p).
  { destruct (finishJobs_files sharpWebp cfg (sched1 jobs1) w
                (MkStats (length (globImages distDir w)) 0 0 0)) as (_ & F & _).
    apply F. intros j Hj. apply raster_not_webp; assumption. }
  destruct w1_cases as [->| ->]; [exact Ha|].
  rewrite <- Ha. unfold processCssFiles.
  destruct (processCssList_files (globCss distDir afterImages) afterImages) as [F _].
  apply F. intros Hin. apply elem_of_globCss, matchesCssGlob_lastChar in Hin.
  apply rasterPath_lastChar in Hp. congruence.
Qed.

(** No file disappears in the first pass. *)
Lemma first_pass_mono q : is_Some (files w !! q) -> is_Some (files w1 !! q).
Proof.
  intros Hq.
  assert (Ha : is_Some (files afterImages !! q)).
  { destruct (finishJobs_files sharpWebp cfg (sched1 jobs1) w
                (MkStats (length (globImages distDir w)) 0 0 0)) as (_ & _ & F).
    apply F. exact Hq. }
  destruct w1_cases as [->| ->]; [exact Ha|].
  unfold processCssFiles.
  destruct (processCssList_files (globCss distDir afterImages) afterImages) as [_ F].
  apply F. exact Ha.
Qed.

(** The compact file of every job that kept its result is on disk after
    the first pass. *)
Lemma first_pass_kept j :
  j ∈ jobs1 -> keeps sharpWebp cfg j = true -> is_Some (files w1 !! j_webpPath j).
Proof.
  intros Hj Hk.
  assert (Ha : is_Some (files afterImages !! j_webpPath j)).
  { destruct (finishJobs_files sharpWebp cfg (sched1 jobs1) w
                (MkStats (length (globImages distDir w)) 0 0 0)) as (F & _ & _).
    apply F; [|exact Hk]. rewrite sched1_perm. exact Hj. }
  destruct w1_cases as [->| ->]; [exact Ha|].
  unfold processCssFiles.
  destruct (processCssList_files (globCss distDir afterImages) afterImages) as [_ F].
  apply F. exact Ha.
Qed.

(** The disk the second pass starts from, with an empty write log. *)
Local Abbreviation w1' := (MkWorld (files w1) []).
Local Abbreviation jobs2 :=
  (jobsOf (map (fun p => (p, startJob w1' p)) (globImages distDir w1'))).

(** Every job of the second pass was a job of the first pass that kept
    nothing. *)
Lemma jobs2_keep_nothing j : j ∈ jobs2 -> keeps sharpWebp cfg j = false.
Proof.
  rewrite elem_of_jobsOf. intros (p & Hp & Hs).
  apply startJob_inl in Hs as (b & Hb & He & ->).
  apply elem_of_globImages in Hp as [_ Hg].
  pose proof (matchesImageGlob_raster _ _ Hg) as Hr.
  cbn [files] in Hb. rewrite (first_pass_keeps_images p Hr) in Hb.
  assert (He0 : existsSync (webpPathOf p) w = false).
  { unfold existsSync in *. cbn [files] in He.
    destruct (files w !! webpPathOf p) eqn:E; [|reflexivity].
    destruct (first_pass_mono (webpPathOf p)) as [x Hx]; [eauto|].
    rewrite Hx in He. discriminate. }
  destruct (keeps sharpWebp cfg (MkJob p b (webpPathOf p))) eqn:Hk; [|reflexivity].
  exfalso.
  assert (Hj : MkJob p b (webpPathOf p) ∈ jobs1).
  { apply elem_of_jobsOf. exists p. split.
    - apply elem_of_globImages. split; [eauto|exact Hg].
    - apply startJob_inl. exists b. auto. }
  destruct (first_pass_kept _ Hj Hk) as [x Hx]. cbn [j_webpPath] in Hx.
  unfold existsSync in He. cbn [files] in He. rewrite Hx in He. discriminate.
Qed.

Lemma second_pass_world :
  fst (fst (convertImages sharpWebp sched2 cfg distDir w1')) = w1'.
Proof.
  unfold convertImages.
  destruct (finishJobs sharpWebp cfg (sched2 jobs2) w1'
              (MkStats (length (globImages distDir w1')) 0 0 0))
    as [[w2 st2] rs2] eqn:E.
  cbn [fst].
  change w2 with (fst (fst (w2, st2, rs2))). rewrite <- E.
  apply finishJobs_nokeep. intros j Hj. rewrite sched2_perm in Hj.
  apply jobs2_keep_nothing, Hj.
Qed.

Lemma second_pass_reports r :
  r ∈ snd (convertImages sharpWebp sched2 cfg distDir w1') ->
  existsSync (webpPathOf (r_path r)) w1 = true ->
  r_outcome r = AlreadyExists /\ r_attempts r = [].
Proof.
  unfold convertImages.
  destruct (finishJobs sharpWebp cfg (sched2 jobs2) w1'
              (MkStats (length (globImages distDir w1')) 0 0 0))
    as [[w2 st2] rs2] eqn:E.
  cbn [snd]. intros Hr Hex. apply elem_of_app in Hr as [Hr|Hr].
  - apply elem_of_earlyOf in Hr as (p & o & Hp & Hs & ->). cbn [r_outcome r_attempts].
    split; [|reflexivity].
    apply startJob_inr in Hs as [[-> _]|[_ Hn]]; [reflexivity|].
    apply elem_of_globImages in Hp as [[x Hx] _]. congruence.
  - exfalso. change rs2 with (snd (w2, st2, rs2)) in Hr. rewrite <- E in Hr.
    apply finishJobs_reports in Hr as (j & Hj & Ep).
    rewrite sched2_perm in Hj.
    apply elem_of_jobsOf in Hj as (p & _ & Hs).
    apply startJob_inl in Hs as (b & _ & He & ->). cbn [j_path] in Ep.
    rewrite Ep in Hex. unfold existsSync in *. cbn [files] in He.
    rewrite He in Hex. discriminate.
Qed.

End TwoPasses.

(** C3, as the code has it. After a full pass, a second run of the image
    part over the resulting tree writes no file, whatever the order in
    which the conversions complete: the disk is left as it is, and every
    image whose compact file is on disk is reported as already there,
    with no call of the codec. (The stylesheets are not covered: see
    the counterexample.) *)
Theorem second_pass_writes_no_image
    (sharpWebp : Buffer -> Z -> bool -> option Buffer)
    (sched1 sched2 : list Job -> list Job) (cfg : Config) (distDir : string)
    (w : World) :
  (forall l, Permutation (sched1 l) l) ->
  (forall l, Permutation (sched2 l) l) ->
  let w1 := fst (fst (convertToWebp sharpWebp sched1 cfg distDir w)) in
  let second := convertImages sharpWebp sched2 cfg distDir (MkWorld (files w1) []) in
  writes (fst (fst second)) = []
  /\ files (fst (fst second)) = files w1
  /\ (forall r, r ∈ snd second ->
        existsSync (webpPathOf (r_path r)) w1 = true ->
        r_outcome r = AlreadyExists /\ r_attempts r = []).
Proof.
  intros H1 H2. cbv zeta.
  rewrite (second_pass_world sharpWebp sched1 sched2 H1 H2 cfg distDir w).
  split; [reflexivity|]. split; [reflexivity|].
  intros r. apply (second_pass_reports sharpWebp sched1 sched2 H2 cfg distDir w).
Qed.

Lemma second_pass_example :
  (forall l, Permutation (inOrder l) l)
  /\ let w1 := fst (fst (convertToWebp smallCodec inOrder defaultPolicy "/dist"
                           sampleDist)) in
     let second := convertImages smallCodec inOrder defaultPolicy "/dist"
                     (MkWorld (files w1) []) in
     map fst (writes w1) = ["/dist/static/a.webp"; "/dist/umi.css"]
     /\ writes (fst (fst second)) = []
     /\ files (fst (fst second)) = files w1.
Proof.
  split; [intros l; apply Permutation_refl|].
  pose proof (second_pass_writes_no_image smallCodec inOrder inOrder defaultPolicy
                "/dist" sampleDist (fun l => Permutation_refl l)
                (fun l => Permutation_refl l)) as H.
  cbv zeta in H |- *. destruct H as (H1 & H2 & _).
  split; [vm_compute; reflexivity|]. split; [exact H1|exact H2].
Defined.

(** The claim fails for the stylesheets: the second full pass over the
    tree the first one left writes the stylesheet again, with further
    rules appended. *)
Lemma second_pass_rewrites_stylesheet :
  let w1 := fst (fst (convertToWebp smallCodec inOrder defaultPolicy "/dist"
                        sampleDist)) in
  let w2 := fst (fst (convertToWebp smallCodec inOrder defaultPolicy "/dist"
                        (MkWorld (files w1) []))) in
  map fst (writes w2) = ["/dist/umi.css"]
  /\ files w2 !! "/dist/umi.css" <> files w1 !! "/dist/umi.css".
Proof. vm_compute. split; [reflexivity|discriminate]. Qed.

End PassClaims.

(* ===================================================================== *)
(** * The stylesheet rewriting (C4, C5, C10) *)
(* ===================================================================== *)

Module CssClaims.
Import JS Re Css JSFacts ReFacts CssFacts Notions Samples.

(** ** C4 *)




(** When no reference is selected the first stage changes nothing. *)
Lemma encodeUrls_unselected remote css :
  (forall m, m ∈ execAll true urlRegex css -> selected remote css m = false) ->
  encodeUrls remote css = css.
Proof.
  intros H. unfold encodeUrls.
  rewrite (replaceAll_ext true urlRegex _ m_text).
  - apply replaceAll_id.
  - intros m Hm. rewrite urlCallback_selected, (H m Hm). reflexivity.
Qed.

(** ** C5 *)


(** The same for css-processor.ts. *)
Lemma supports_variant_requoted (css : string) :
  allChars notUnderscore css = true ->
  let ms := fst (scanAll true urlRegex css) in
  let tl := snd (scanAll true urlRegex css) in
  let sel := List.filter (selected false css) (map snd ms) in
  processCssContent_supports css
  = if 0 <? length sel then
      Some (splice (requote false css) ms tl +:+ supportsHeader +:+
            appendedRules supportsRule css
              (map (fun m => (group 1 m, cssWebpPath (group 1 m))) sel) +:+
            "}" +:+ nl)
    else None.
Proof.
  intros Hcss. cbv zeta. unfold processCssContent_supports.
  destruct (decode_encode false css Hcss) as [H1 H2]. cbv zeta in H1, H2.
  rewrite H1, H2, length_map. reflexivity.
Qed.



(** ** C10 *)



End CssClaims.

(* ===================================================================== *)
(** * The import loader (C6, C7, C8) *)
(* ===================================================================== *)

Module LoaderClaims.
Import JS Re Css Fs Convert Loader LoaderFacts Notions Samples.

(** ** C6: the marker that stays *)

(** C6, at the failing input. In a production build the first statement
    registers the image and is rewritten; the second resolves to the
    registered path, the loop body ends at its [continue], and the
    statement is emitted with its marker. The development branch strips
    the marker from the same text. *)
Theorem marker_kept_after_continue :
  out_source (runSample true twoImports)
  = "import a from './logo.webp';" +:+ nl +:+ "import b from './logo.png!webp';"
  /\ includes "!webp" (out_source (runSample true twoImports)) = true
  /\ out_source (runSample false twoImports)
     = "import a from './logo.png';" +:+ nl +:+ "import b from './logo.png';".
Proof. vm_compute. repeat split. Qed.

(** ** C7: when a path is registered *)

Section Registry.

Variable sharpWebp : Buffer -> Z -> bool -> option Buffer.
Variable resolve : string -> string -> string + string.
Variable hasTmpTracker : bool.



End Registry.



(** ** C8: where the duplicates are removed *)

Section DedupFirst.

Variable sharpWebp : Buffer -> Z -> bool -> option Buffer.
Variable resolve : string -> string -> string + string.
Variable hasTmpTracker : bool.


End DedupFirst.



End LoaderClaims.

(* ===================================================================== *)
(** * The plugin options (C9) *)
(* ===================================================================== *)

Module PluginClaims.
Import JS Fs Convert Plugin Notions Samples.





End PluginClaims.

(* ===================================================================== *)
(** * More about the search and the full pass *)
(* ===================================================================== *)

Module PassMore.
Import JS Re Css Fs Convert Notions Samples JSFacts ReFacts ConvertFacts PassFacts.

Section Search.

Variable sharpWebp : Buffer -> Z -> bool -> option Buffer.

(** The attempts of the loop go down by 5 from where it starts and stay
    at or above the floor. *)
Lemma lowerQuality_log fuel : forall img o minQ buf cq,
  exists n,
    snd (lowerQuality sharpWebp fuel img o minQ buf cq) = descending cq n
    /\ (0 < n -> (minQ <= cq - 5 * Z.of_nat (n - 1))%Z).
Proof.
  induction fuel as [|fuel IH]; intros img o minQ buf cq.
  - exists 0. split; [reflexivity|]. intros H; exfalso; lia.
  - cbn [lowerQuality].
    destruct ((o <=? len buf) && (minQ <=? cq)%Z) eqn:Ec.
    + apply andb_prop in Ec as [_ Hq]. apply Z.leb_le in Hq.
      destruct (sharpWebp img cq false) as [b|].
      * destruct (IH img o minQ b (cq - 5)%Z) as (n & Hl & Hb).
        destruct (lowerQuality sharpWebp fuel img o minQ b (cq - 5)%Z) as [r log].
        cbn [snd] in *. exists (S n). split.
        -- rewrite descending_S, Hl. reflexivity.
        -- intros _. destruct n as [|n].
           ++ cbn. lia.
           ++ assert (H0 : 0 < S n) by lia. specialize (Hb H0).
              replace (S (S n) - 1) with (S n) by lia.
              replace (S n - 1) with n in Hb by lia. lia.
      * exists 1. split; [cbn [snd]; rewrite descending_S; reflexivity|].
        intros _. cbn. lia.
    + exists 0. split; [reflexivity|]. intros H; exfalso; lia.
Qed.

Lemma lastAttempt_step a l :
  lastAttempt (a :: l) = match lastAttempt l with Some b => Some b | None => Some a end.
Proof.
  destruct l as [|b l]; [reflexivity|]. rewrite lastAttempt_cons.
  destruct (lastAttempt (b :: l)) eqn:E; [reflexivity|].
  exfalso. revert b E. induction l as [|c l IH]; intros b E; [discriminate|].
  rewrite lastAttempt_cons in E. exact (IH c E).
Qed.

(** What the loop hands back is the output of its last attempt, or the
    buffer it was given when it made none. *)
Lemma lowerQuality_result fuel : forall img o minQ buf cq,
  fst (lowerQuality sharpWebp fuel img o minQ buf cq)
  = match lastAttempt (snd (lowerQuality sharpWebp fuel img o minQ buf cq)) with
    | Some a => sharpWebp img (a_quality a) (a_lossless a)
    | None => Some buf
    end.
Proof.
  induction fuel as [|fuel IH]; intros img o minQ buf cq; [reflexivity|].
  cbn [lowerQuality].
  destruct ((o <=? len buf) && (minQ <=? cq)%Z); [|reflexivity].
  destruct (sharpWebp img cq false) as [b|] eqn:Es.
  - specialize (IH img o minQ b (cq - 5)%Z).
    destruct (lowerQuality sharpWebp fuel img o minQ b (cq - 5)%Z) as [r log].
    cbn [fst snd] in *. rewrite lastAttempt_step.
    destruct (lastAttempt log) as [a|]; [exact IH|].
    cbn [a_quality a_lossless]. rewrite Es. exact IH.
  - cbn. rewrite Es. reflexivity.
Qed.

Lemma transcode_log cfg img :
  exists n,
    snd (transcode sharpWebp cfg img)
    = MkAttempt (quality cfg) (lossless cfg) :: descending (quality cfg - 5) n
    /\ (0 < n -> lossless cfg = false
                 /\ (minQuality cfg <= quality cfg - 5 * Z.of_nat n)%Z).
Proof.
  unfold transcode.
  destruct (sharpWebp img (quality cfg) (lossless cfg)) as [b|].
  - destruct ((len img <=? len b) && negb (lossless cfg)
              && (minQuality cfg <? quality cfg)%Z) eqn:Ec.
    + apply andb_prop in Ec as [Ec _]. apply andb_prop in Ec as [_ El].
      apply negb_true_iff in El.
      destruct (lowerQuality_log
                  (searchFuel (minQuality cfg) (quality cfg - 5)) img (len img)
                  (minQuality cfg) b (quality cfg - 5)%Z) as (n & Hl & Hb).
      destruct (lowerQuality sharpWebp _ img (len img) (minQuality cfg) b
                  (quality cfg - 5)%Z) as [r log].
      cbn [snd] in *. exists n. split; [rewrite Hl; reflexivity|].
      intros Hn. split; [exact El|]. specialize (Hb Hn). lia.
    + exists 0. split; [reflexivity|]. intros H; exfalso; lia.
  - exists 0. split; [reflexivity|]. intros H; exfalso; lia.
Qed.

Lemma transcode_result cfg img :
  option_map (fun a => sharpWebp img (a_quality a) (a_lossless a))
    (lastAttempt (snd (transcode sharpWebp cfg img)))
  = Some (fst (transcode sharpWebp cfg img)).
Proof.
  unfold transcode.
  destruct (sharpWebp img (quality cfg) (lossless cfg)) as [b|] eqn:Es.
  - destruct ((len img <=? len b) && negb (lossless cfg)
              && (minQuality cfg <? quality cfg)%Z).
    + pose proof (lowerQuality_result
                    (searchFuel (minQuality cfg) (quality cfg - 5)) img (len img)
                    (minQuality cfg) b (quality cfg - 5)%Z) as H.
      destruct (lowerQuality sharpWebp _ img (len img) (minQuality cfg) b
                  (quality cfg - 5)%Z) as [r log].
      cbn [fst snd] in *. rewrite lastAttempt_step.
      destruct (lastAttempt log) as [a|]; cbn [option_map].
      * rewrite H. reflexivity.
      * cbn [a_quality a_lossless]. rewrite Es, H. reflexivity.
    + cbn. rewrite Es. reflexivity.
  - cbn. rewrite Es. reflexivity.
Qed.

(** ** The reports and the counters *)

Lemma finishJobs_tally cfg : forall js w st,
  let r := finishJobs sharpWebp cfg js w st in
  map r_path (snd r) = map j_path js
  /\ totalFiles (snd (fst r)) = totalFiles st
  /\ smallerFiles (snd (fst r)) = smallerFiles st + length (List.filter isSmaller (snd r))
  /\ skippedFiles (snd (fst r)) = skippedFiles st + length (List.filter isSkipped (snd r))
  /\ totalSaved (snd (fst r)) = totalSaved st + savedIn (snd r).
Proof.
  induction js as [|j js IH]; intros w st; cbv zeta.
  - cbn. repeat split; lia.
  - rewrite finishJobs_cons. cbv zeta. cbn [fst snd map].
    specialize (IH (fst (fst (finishJob sharpWebp cfg j w)))
                  (countOutcome (snd (fst (finishJob sharpWebp cfg j w))) st)).
    cbv zeta in IH. destruct IH as (I1 & I2 & I3 & I4 & I5).
    rewrite I1, I2, I3, I4, I5.
    split; [reflexivity|].
    destruct (snd (fst (finishJob sharpWebp cfg j w)));
      cbn [List.filter savedIn isSmaller isSkipped savedBy r_outcome countOutcome
           totalFiles smallerFiles skippedFiles totalSaved length];
      repeat split; lia.
Qed.

Lemma quiet_tally (rs : list Report) :
  (forall r, r ∈ rs -> r_outcome r = AlreadyExists \/ r_outcome r = Failed) ->
  List.filter isSmaller rs = [] /\ List.filter isSkipped rs = [] /\ savedIn rs = 0.
Proof.
  induction rs as [|r rs IH]; intros H; [repeat split|].
  destruct IH as (I1 & I2 & I3).
  { intros r' Hr'. apply H. right. exact Hr'. }
  cbn [List.filter savedIn]. unfold isSmaller at 1, isSkipped at 1, savedBy.
  rewrite I1, I2, I3.
  destruct (H r) as [-> | ->]; [left| |]; repeat split.
Qed.

Lemma earlyOf_tally w l :
  List.filter isSmaller (earlyOf (map (fun p => (p, startJob w p)) l)) = []
  /\ List.filter isSkipped (earlyOf (map (fun p => (p, startJob w p)) l)) = []
  /\ savedIn (earlyOf (map (fun p => (p, startJob w p)) l)) = 0.
Proof.
  apply quiet_tally. intros r Hr.
  apply elem_of_earlyOf in Hr as (p & o & _ & Hs & ->). cbn [r_outcome].
  apply startJob_inr in Hs as [[-> _]|[-> _]]; [left|right]; reflexivity.
Qed.

Lemma started_paths w : forall l,
  map r_path (earlyOf (map (fun p => (p, startJob w p)) l))
  ++ map j_path (jobsOf (map (fun p => (p, startJob w p)) l)) ≡ₚ l.
Proof.
  induction l as [|p l IH]; [reflexivity|].
  cbn [map]. unfold earlyOf, jobsOf in *. cbn [omap snd fst].
  destruct (startJob w p) as [j|o] eqn:Es.
  - apply startJob_inl in Es as (b & _ & _ & ->).
    cbn [omap list_omap snd fst map j_path].
    rewrite <- Permutation_middle. constructor. exact IH.
  - cbn [omap list_omap snd fst map r_path app]. constructor. exact IH.
Qed.

(** ** What the conversions write *)

(** The entry a job adds to the write log, if any. *)
Lemma finishJobs_writes cfg : forall js w st,
  writes (fst (fst (finishJobs sharpWebp cfg js w st)))
  = writes w
    ++ omap (fun j => if keeps sharpWebp cfg j
                      then option_map (pair (j_webpPath j))
                             (fst (transcode sharpWebp cfg (j_buffer j)))
                      else None) js.
Proof.
  induction js as [|j js IH]; intros w st.
  - cbn. rewrite List.app_nil_r. reflexivity.
  - rewrite finishJobs_cons. cbv zeta. cbn [fst snd]. rewrite IH.
    rewrite finishJob_world. cbn [omap list_omap].
    destruct (keeps sharpWebp cfg j) eqn:Ek.
    + destruct (keeps_transcode sharpWebp cfg j Ek) as [buf Hb]. rewrite Hb.
      cbn [option_map writeFileSync writes]. rewrite <- List.app_assoc. reflexivity.
    + reflexivity.
Qed.

End Search.

End PassMore.

(* ===================================================================== *)
(** * Properties of the search and of the full pass *)
(* ===================================================================== *)

Module PassProperties.
Import JS Re Css Fs Convert Notions Samples JSFacts ReFacts ConvertFacts PassFacts PassMore.

(** X1. The search never goes outside its range: the first attempt is at
    the configured quality and mode, every further attempt is lossy and
    5 below the one before, none is below [minQuality], and there is no
    further attempt in lossless mode. *)
Theorem search_attempts_in_range
    (sharpWebp : Buffer -> Z -> bool -> option Buffer) (cfg : Config)
    (img : Buffer) :
  exists n,
    snd (transcode sharpWebp cfg img)
    = MkAttempt (quality cfg) (lossless cfg) :: descending (quality cfg - 5) n
    /\ (5 * Z.of_nat n <= Z.max 0 (quality cfg - minQuality cfg))%Z
    /\ (lossless cfg = true -> n = 0)
    /\ (forall a, a ∈ descending (quality cfg - 5) n ->
          a_lossless a = false
          /\ (minQuality cfg <= a_quality a <= quality cfg - 5)%Z).
Proof.
  destruct (transcode_log sharpWebp cfg img) as (n & Hl & Hb).
  exists n. split; [exact Hl|]. split; [|split].
  - destruct n as [|n]; [lia|]. destruct Hb as [_ Hb]; lia.
  - intros Hls. destruct n as [|n]; [reflexivity|].
    destruct Hb as [Hf _]; [lia|congruence].
  - intros a Ha. unfold descending in Ha.
    apply list_elem_of_fmap in Ha as (j & -> & Hj).
    apply list_elem_of_In, in_seq in Hj. cbn [a_lossless a_quality].
    split; [reflexivity|].
    destruct Hb as [_ Hb]; lia.
Qed.

(** X2. The buffer the search hands back is the output of the last
    attempt it made: nothing else is ever returned, and the search fails
    exactly when its last attempt failed. *)
Theorem search_returns_last_attempt
    (sharpWebp : Buffer -> Z -> bool -> option Buffer) (cfg : Config)
    (img : Buffer) :
  option_map (fun a => sharpWebp img (a_quality a) (a_lossless a))
    (lastAttempt (snd (transcode sharpWebp cfg img)))
  = Some (fst (transcode sharpWebp cfg img)).
Proof. apply transcode_result. Qed.

(** X3. The counters of a pass agree with what happened to each image:
    every image found gets exactly one report, [totalFiles] is the
    number of reports, [smallerFiles] and [skippedFiles] count the
    reports with these outcomes, and [totalSaved] is the sum of the
    sizes saved. *)
Theorem pass_counters_agree_with_reports
    (sharpWebp : Buffer -> Z -> bool -> option Buffer)
    (sched : list Job -> list Job) (cfg : Config) (distDir : string)
    (w : World) :
  (forall l, Permutation (sched l) l) ->
  let r := convertToWebp sharpWebp sched cfg distDir w in
  let st := snd (fst r) in
  let rs := snd r in
  Permutation (map r_path rs) (globImages distDir w)
  /\ totalFiles st = length rs
  /\ smallerFiles st = length (List.filter isSmaller rs)
  /\ skippedFiles st = length (List.filter isSkipped rs)
  /\ totalSaved st = savedIn rs.
Proof.
  intros Hs. cbv zeta.
  assert (E : snd (fst (convertToWebp sharpWebp sched cfg distDir w))
              = snd (fst (convertImages sharpWebp sched cfg distDir w))
              /\ snd (convertToWebp sharpWebp sched cfg distDir w)
                 = snd (convertImages sharpWebp sched cfg distDir w)).
  { unfold convertToWebp.
    destruct (convertImages sharpWebp sched cfg distDir w) as [[w1 st] rs].
    destruct (processCss cfg); split; reflexivity. }
  destruct E as [-> ->]. unfold convertImages.
  set (l := globImages distDir w).
  set (started := map (fun p => (p, startJob w p)) l).
  pose proof (finishJobs_tally sharpWebp cfg (sched (jobsOf started)) w
                (MkStats (length l) 0 0 0)) as T.
  cbv zeta in T.
  destruct (finishJobs sharpWebp cfg (sched (jobsOf started)) w
              (MkStats (length l) 0 0 0)) as [[w' st'] rs].
  cbn [fst snd totalFiles smallerFiles skippedFiles totalSaved] in *.
  destruct T as (T1 & T2 & T3 & T4 & T5).
  destruct (earlyOf_tally w l) as (E1 & E2 & E3). fold started in E1, E2, E3.
  assert (P : map r_path (earlyOf started ++ rs) ≡ₚ l).
  { rewrite map_app, T1, (Permutation_map j_path (Hs (jobsOf started))).
    apply started_paths. }
  split; [exact P|]. split; [|split; [|split]].
  - rewrite T2. rewrite <- (length_map r_path). apply Permutation_length.
    symmetry. exact P.
  - rewrite T3, List.filter_app, E1. reflexivity.
  - rewrite T4, List.filter_app, E2. reflexivity.
  - rewrite T5.
    assert (A : forall a b, savedIn (a ++ b) = savedIn a + savedIn b).
    { induction a as [|x a IH]; intros b; cbn [app savedIn]; [reflexivity|].
      rewrite IH. lia. }
    rewrite A, E3. reflexivity.
Qed.

Lemma pass_counters_example :
  (forall l, Permutation (inOrder l) l)
  /\ let r := convertToWebp smallCodec inOrder defaultPolicy "/dist" sampleDist in
     map r_path (snd r) = ["/dist/static/a.png"; "/dist/b.jpg"]
     /\ snd (fst r) = MkStats 2 1 1 7
     /\ totalSaved (snd (fst r)) = savedIn (snd r).
Proof.
  split; [intros l; apply Permutation_refl|].
  pose proof (pass_counters_agree_with_reports smallCodec inOrder defaultPolicy
                "/dist" sampleDist (fun l => Permutation_refl l)) as H.
  cbv zeta in H |- *. destruct H as (_ & _ & _ & _ & H).
  split; [vm_compute; reflexivity|]. split; [vm_compute; reflexivity|exact H].
Defined.

(** X4. The image part of a pass writes only compact files that were not
    there: every entry it adds to the write log is the compact path of
    an image it found, that path did not exist when the pass started,
    and the content is the buffer the search handed back for that
    image. *)
Theorem image_part_writes_new_compact_files
    (sharpWebp : Buffer -> Z -> bool -> option Buffer)
    (sched : list Job -> list Job) (cfg : Config) (distDir : string)
    (w : World) :
  (forall l, Permutation (sched l) l) ->
  exists added,
    writes (fst (fst (convertImages sharpWebp sched cfg distDir w)))
    = writes w ++ added
    /\ forall q buf, (q, buf) ∈ added ->
         exists p img,
           p ∈ globImages distDir w
           /\ files w !! p = Some img
           /\ q = webpPathOf p
           /\ files w !! q = None
           /\ fst (transcode sharpWebp cfg img) = Some buf.
Proof.
  intros Hs. unfold convertImages.
  set (l := globImages distDir w).
  set (started := map (fun p => (p, startJob w p)) l).
  pose proof (finishJobs_writes sharpWebp cfg (sched (jobsOf started)) w
                (MkStats (length l) 0 0 0)) as W.
  destruct (finishJobs sharpWebp cfg (sched (jobsOf started)) w
              (MkStats (length l) 0 0 0)) as [[w' st'] rs].
  cbn [fst] in *. eexists. split; [exact W|].
  intros q buf Hq. apply list_elem_of_omap in Hq as (j & Hj & Hk).
  rewrite Hs in Hj. apply elem_of_jobsOf in Hj as (p & Hp & Hst).
  apply startJob_inl in Hst as (img & Hi & He & ->).
  cbn [j_webpPath j_buffer] in Hk.
  destruct (keeps sharpWebp cfg _); [|discriminate].
  destruct (fst (transcode sharpWebp cfg img)) as [b|] eqn:Et; [|discriminate].
  cbn in Hk. injection Hk as <- <-.
  exists p, img. split; [exact Hp|]. split; [exact Hi|]. split; [reflexivity|].
  split; [|exact Et].
  unfold existsSync in He. destruct (files w !! webpPathOf p); [discriminate|reflexivity].
Qed.

Lemma image_part_writes_example :
  (forall l, Permutation (inOrder l) l)
  /\ writes (fst (fst (convertImages smallCodec inOrder defaultPolicy "/dist"
                         sampleDist)))
     = [("/dist/static/a.webp", "abc")]
  /\ exists added,
       writes (fst (fst (convertImages smallCodec inOrder defaultPolicy "/dist"
                           sampleDist)))
       = writes sampleDist ++ added
       /\ forall q buf, (q, buf) ∈ added ->
            exists p img,
              p ∈ globImages "/dist" sampleDist
              /\ files sampleDist !! p = Some img
              /\ q = webpPathOf p
              /\ files sampleDist !! q = None
              /\ fst (transcode smallCodec defaultPolicy img) = Some buf.
Proof.
  split; [intros l; apply Permutation_refl|].
  split; [vm_compute; reflexivity|].
  exact (image_part_writes_new_compact_files smallCodec inOrder defaultPolicy
           "/dist" sampleDist (fun l => Permutation_refl l)).
Defined.

(** X5. A full pass deletes nothing and leaves every file that was
    there before as it was, except the stylesheets under the output
    directory: in particular no original image is changed or removed. *)
Theorem pass_keeps_existing_files
    (sharpWebp : Buffer -> Z -> bool -> option Buffer)
    (sched : list Job -> list Job) (cfg : Config) (distDir : string)
    (w : World) (q : string) :
  (forall l, Permutation (sched l) l) ->
  is_Some (files w !! q) ->
  let w' := fst (fst (convertToWebp sharpWebp sched cfg distDir w)) in
  is_Some (files w' !! q)
  /\ (matchesCssGlob distDir q = false -> files w' !! q = files w !! q).
Proof.
  intros Hs Hq. cbv zeta. split.
  - apply PassClaims.first_pass_mono, Hq.
  - intros Hc.
    set (jobs := jobsOf (map (fun p => (p, startJob w p)) (globImages distDir w))).
    set (wi := fst (fst (finishJobs sharpWebp cfg (sched jobs) w
                           (MkStats (length (globImages distDir w)) 0 0 0)))).
    assert (Ha : files wi !! q = files w !! q).
    { destruct (finishJobs_files sharpWebp cfg (sched jobs) w
                  (MkStats (length (globImages distDir w)) 0 0 0)) as (_ & F & _).
      apply F. intros j Hj ->. rewrite Hs in Hj.
      apply elem_of_jobsOf in Hj as (p & _ & Hst).
      apply startJob_inl in Hst as (b & _ & He & ->). cbn [j_webpPath] in Hq.
      unfold existsSync in He. destruct Hq as [x Hx]. rewrite Hx in He.
      discriminate. }
    destruct (PassClaims.w1_cases sharpWebp sched cfg distDir w) as [->| ->];
      fold jobs; fold wi; [exact Ha|].
    rewrite <- Ha. unfold processCssFiles.
    destruct (processCssList_files (globCss distDir wi) wi) as [F _].
    apply F. intros Hin. apply elem_of_globCss in Hin. congruence.
Qed.

Lemma pass_keeps_existing_files_example :
  (forall l, Permutation (inOrder l) l)
  /\ is_Some (files sampleDist !! "/dist/static/a.png")
  /\ files (fst (fst (convertToWebp smallCodec inOrder defaultPolicy "/dist"
                        sampleDist))) !! "/dist/static/a.png"
     = Some "0123456789".
Proof.
  split; [intros l; apply Permutation_refl|].
  split; [eexists; reflexivity|].
  destruct (pass_keeps_existing_files smallCodec inOrder defaultPolicy "/dist"
              sampleDist "/dist/static/a.png" (fun l => Permutation_refl l)
              (ex_intro _ _ eq_refl)) as [_ H].
  etransitivity; [exact (H eq_refl)|reflexivity].
Defined.

End PassProperties.

(* ===================================================================== *)
(** * More about matching *)
(* ===================================================================== *)

Module ReMore.
Import JS Re Css Fs Convert Loader Notions JSFacts ReFacts PassFacts CssFacts.

Lemma take_all s : take (len s) s = s.
Proof. induction s as [|c s IH]; [reflexivity|]. cbn. f_equal. exact IH. Qed.

Lemma take_all_0 s : take (len s - 0) s = s.
Proof. rewrite Nat.sub_0_r. apply take_all. Qed.

Lemma len_0 s : len s = 0 -> s = EmptyString.
Proof. destruct s; [reflexivity|discriminate]. Qed.

(** The leftmost match is the first place where the pattern matches. *)
Lemma search_first ic r m : forall pre t pos,
  (forall a b, pre = a +:+ b -> b <> EmptyString ->
     match_at ic r 0 (b +:+ t) = None) ->
  match_at ic r 0 t = Some m ->
  search ic r pos (pre +:+ t)
  = Some (MRes (pos + len pre) (m_text m) (m_caps m) (m_rest m)).
Proof.
  induction pre as [|c pre IH]; intros t pos Hf Hm.
  - rewrite app_nil_l. cbn [len String.length]. rewrite Nat.add_0_r.
    apply (match_at_some_pos _ _ _ pos) in Hm.
    destruct t; cbn [search]; rewrite Hm; reflexivity.
  - rewrite app_cons. cbn [search].
    assert (E : match_at ic r pos (String c (pre +:+ t)) = None).
    { apply (match_at_none_pos _ _ 0). rewrite <- app_cons.
      apply (Hf EmptyString (String c pre)); [reflexivity|discriminate]. }
    rewrite E, (IH t (S pos)).
    + rewrite len_cons. f_equal. f_equal. lia.
    + intros a b -> Hb. apply (Hf (String c a) b); [|exact Hb].
      rewrite app_cons. reflexivity.
    + exact Hm.
Qed.

(** What the pattern of the extensions can match. *)
Lemma imageExt_shape s cs s' cs' :
  shape false imageExtRegex s cs s' cs' ->
  s' = EmptyString /\ (s = ".jpg" \/ s = ".jpeg" \/ s = ".png").
Proof.
  intros H. pose proof (imageExt_shape_end _ _ _ _ H) as ->.
  split; [reflexivity|]. revert H. unfold imageExtRegex. cbn [Seq].
  intros H. apply shape_Cat in H as (s1 & cs1 & H1 & H).
  cbn [shape] in H1. destruct H1 as (a & -> & Ha & ->). cbn in Ha. subst a.
  apply shape_Cat in H as (s2 & cs2 & H2 & H).
  apply shape_Grp in H2 as (cs3 & H2 & ->).
  apply shape_Cat in H as (s3 & cs4 & (-> & _ & _) & _).
  cbn [shape] in H2.
  destruct H2 as [H2|[H2|H2]]; apply shape_Str in H2 as [-> _];
    rewrite app_nil_r; auto.
Qed.

Lemma skipMark_shape s cs s' cs' :
  shape false skipMarkRegex s cs s' cs' -> s' = EmptyString /\ s = "!webp".
Proof.
  unfold skipMarkRegex. cbn [Seq]. intros H.
  apply shape_Cat in H as (s1 & cs1 & H1 & H).
  apply shape_Str in H1 as [-> _].
  apply shape_Cat in H as (s2 & cs2 & (-> & -> & _) & (-> & _)).
  split; [reflexivity|]. apply app_nil_r.
Qed.

(** Two ways to cut a text before one of the three extensions agree. *)
Lemma ext_tail t x y :
  (x = ".jpg" \/ x = ".jpeg" \/ x = ".png") ->
  (y = ".jpg" \/ y = ".jpeg" \/ y = ".png") ->
  x = t +:+ y -> t = EmptyString.
Proof.
  intros Hx Hy E. destruct t as [|c [|d t]]; [reflexivity| |].
  - exfalso. rewrite app_cons, app_nil_l in E.
    destruct Hx as [->|[->| ->]], Hy as [->|[->| ->]]; congruence.
  - exfalso. apply (f_equal len) in E. rewrite len_app, !len_cons in E.
    destruct Hx as [->|[->| ->]], Hy as [->|[->| ->]]; cbn in E; lia.
Qed.

Lemma ext_cut a b x y :
  (x = ".jpg" \/ x = ".jpeg" \/ x = ".png") ->
  (y = ".jpg" \/ y = ".jpeg" \/ y = ".png") ->
  a +:+ x = b +:+ y -> a = b /\ x = y.
Proof.
  intros Hx Hy E.
  apply app_eq_app in E as [(t & -> & Ex)|(t & -> & Ey)].
  - pose proof (ext_tail t x y Hx Hy Ex) as ->.
    rewrite app_nil_l in Ex. rewrite app_nil_r. split; [reflexivity|exact Ex].
  - pose proof (ext_tail t y x Hy Hx Ey) as ->.
    rewrite app_nil_l in Ey. rewrite app_nil_r. split; [reflexivity|].
    symmetry. exact Ey.
Qed.

(** ** The scan of [escapeRegExp] *)

Lemma special_class c :
  cls_has false false (map CChar Escape.specialChars) c = isSpecial c.
Proof. unfold cls_has. rewrite xorb_false_l. reflexivity. Qed.

Lemma special_match pos c s :
  match_at false Escape.specialRegex pos (String c s)
  = if isSpecial c then Some (MRes pos (String c EmptyString) [] s) else None.
Proof.
  unfold match_at, Escape.specialRegex. rewrite rmatch_Cls, special_class.
  destruct (isSpecial c); [|reflexivity].
  replace (len (String c s) - len s) with 1 by (rewrite len_cons; lia).
  reflexivity.
Qed.

Lemma escape_scan s : forall pos,
  spliceR (fun m => String "\" (m_text m))
    (scanFrom false Escape.specialRegex pos s)
  = backslashed s.
Proof.
  induction s as [|c s IH]; intros pos.
  - rewrite scanFrom_nil; [reflexivity|]. apply rmatch_Cls_nil.
  - pose proof (special_match pos c s) as M. cbn [backslashed].
    revert M. destruct (isSpecial c); intros M.
    + rewrite (scanFrom_match _ _ _ _ _ M) by (rewrite len_cons; cbn [m_rest]; lia).
      unfold spliceR. cbn [fst snd splice m_text m_rest].
      rewrite app_nil_l, !app_cons, app_nil_l. f_equal. f_equal.
      apply IH.
    + rewrite (scanFrom_skip _ _ _ _ _ M), spliceR_gap_cons. f_equal. apply IH.
Qed.

Lemma unescaped_plain c s :
  c <> "\"%char -> unescaped (String c s) = String c (unescaped s).
Proof.
  intros H. destruct c as [[] [] [] [] [] [] [] []]; try reflexivity.
  exfalso. apply H. reflexivity.
Qed.

Lemma unescaped_backslashed s : unescaped (backslashed s) = s.
Proof.
  induction s as [|c s IH]; [reflexivity|]. cbn [backslashed].
  destruct (isSpecial c) eqn:E.
  - cbn [unescaped]. rewrite IH. reflexivity.
  - rewrite unescaped_plain, IH; [reflexivity|]. intros ->. discriminate E.
Qed.

(** ** The pattern of the extension *)

Lemma plus_cls_all ic neg items A (k : string -> caps -> option A) x e cs :
  e <> EmptyString -> allChars (cls_has ic neg items) e = true ->
  k EmptyString cs = Some x ->
  rmatch ic (Plus (Cls neg items)) A e cs k = Some x.
Proof.
  intros He Ha Hk.
  pose proof (plus_cls_run ic neg items A k x e EmptyString cs He Ha eq_refl Hk) as P.
  rewrite app_nil_r in P. exact P.
Qed.

Lemma cls_notDot c : cls_has false true [CChar "."] c = notDot c.
Proof.
  unfold cls_has, notDot. cbn. rewrite orb_false_r.
  destruct (Ascii.eqb c "."); reflexivity.
Qed.

Lemma allChars_notDot s :
  allChars (cls_has false true [CChar "."]) s = allChars notDot s.
Proof. apply allChars_ext, cls_notDot. Qed.

(** At a dot followed by text without dots both patterns match, and the
    group takes all of that text. *)
Lemma ext_match pos e :
  e <> EmptyString -> allChars notDot e = true ->
  match_at false FileInfo.extRegex pos (String "." e)
  = Some (MRes pos (String "." e) [(1, e)] EmptyString).
Proof.
  intros He Ha. unfold match_at, FileInfo.extRegex. cbn [Seq].
  rewrite rmatch_Cat, rmatch_Chr. cbn [canon].
  rewrite rmatch_Cat, rmatch_Grp.
  apply plus_cls_all; [exact He|rewrite allChars_notDot; exact Ha|].
  cbn. change (String.length e) with (len e).
  rewrite ?Nat.sub_0_r, ?take_all. reflexivity.
Qed.

Lemma plainExt_match pos e :
  e <> EmptyString -> allChars notDot e = true ->
  match_at false FileInfo.plainExtRegex pos (String "." e)
  = Some (MRes pos (String "." e) [(1, e)] EmptyString).
Proof.
  intros He Ha. unfold match_at, FileInfo.plainExtRegex. cbn [Seq].
  rewrite rmatch_Cat, rmatch_Chr. cbn [canon].
  rewrite rmatch_Cat, rmatch_Grp.
  apply plus_cls_all; [exact He|rewrite allChars_notDot; exact Ha|].
  cbn. change (String.length e) with (len e).
  rewrite ?Nat.sub_0_r, ?take_all. reflexivity.
Qed.

(** Whatever either pattern matches starts with a dot and has no other
    dot. *)
Lemma ext_shape t cs rest cs' :
  shape false FileInfo.extRegex t cs rest cs' ->
  exists u, t = String "." u /\ allChars notDot u = true.
Proof.
  unfold FileInfo.extRegex. cbn [Seq]. intros H.
  apply shape_Cat in H as (s1 & cs1 & H1 & H).
  cbn [shape] in H1. destruct H1 as (a & -> & Ha & ->). cbn in Ha. subst a.
  apply shape_Cat in H as (s2 & cs2 & H2 & H).
  apply shape_Grp in H2 as (cs3 & H2 & ->).
  apply shape_plus_cls in H2 as (g & -> & _ & Hg & ->).
  apply shape_Cat in H as (s3 & cs4 & H3 & H).
  apply shape_Cat in H as (s4 & cs5 & (-> & _ & _) & _).
  exists (g +:+ s2). split; [reflexivity|].
  rewrite allChars_app, <- allChars_notDot, Hg. cbn [andb].
  cbn [Opt shape] in H3. destruct H3 as [H3|[E3 _]]; [|rewrite <- E3; reflexivity].
  apply shape_Str in H3 as [-> _]. reflexivity.
Qed.

Lemma plainExt_shape t cs rest cs' :
  shape false FileInfo.plainExtRegex t cs rest cs' ->
  exists u, t = String "." u /\ allChars notDot u = true.
Proof.
  unfold FileInfo.plainExtRegex. cbn [Seq]. intros H.
  apply shape_Cat in H as (s1 & cs1 & H1 & H).
  cbn [shape] in H1. destruct H1 as (a & -> & Ha & ->). cbn in Ha. subst a.
  apply shape_Cat in H as (s2 & cs2 & H2 & H).
  apply shape_Grp in H2 as (cs3 & H2 & ->).
  apply shape_plus_cls in H2 as (g & -> & _ & Hg & ->).
  apply shape_Cat in H as (s4 & cs5 & (-> & _ & _) & _).
  exists (g +:+ EmptyString). split; [reflexivity|].
  rewrite app_nil_r, <- allChars_notDot. exact Hg.
Qed.

(** The leftmost match of a pattern with these two properties is at the
    last dot. *)
Lemma last_dot_search r stem e :
  (forall t cs rest cs', shape false r t cs rest cs' ->
     exists u, t = String "." u /\ allChars notDot u = true) ->
  (forall pos, match_at false r pos (String "." e)
               = Some (MRes pos (String "." e) [(1, e)] EmptyString)) ->
  search false r 0 (stem +:+ String "." e)
  = Some (MRes (len stem) (String "." e) [(1, e)] EmptyString).
Proof.
  intros Hs Hm.
  assert (F : forall a b, stem = a +:+ b -> b <> EmptyString ->
              match_at false r 0 (b +:+ String "." e) = None).
  2: { rewrite (search_first false r _ stem (String "." e) 0 F (Hm 0)).
       reflexivity. }
  intros a b -> Hb.
  {
    destruct (match_at false r 0 (b +:+ String "." e)) as [m|] eqn:E; [|reflexivity].
    exfalso. apply match_at_sound in E as (_ & _ & E).
    apply Hs in E as (u & Eu & Hu).
    destruct b as [|c b]; [contradiction|].
    rewrite app_cons in Eu. injection Eu as _ <-.
    rewrite allChars_app in Hu. cbn [allChars] in Hu.
    rewrite andb_false_r in Hu. discriminate. }
Qed.

(** A path without a dot has no match. *)
Lemma no_dot_search r p :
  (forall t cs rest cs', shape false r t cs rest cs' ->
     exists u, t = String "." u /\ allChars notDot u = true) ->
  allChars notDot p = true -> search false r 0 p = None.
Proof.
  intros Hs Hp. destruct (search false r 0 p) as [m|] eqn:E; [|reflexivity].
  exfalso. apply search_sound in E as (pre & t & -> & E).
  apply match_at_sound in E as (_ & _ & E). apply Hs in E as (u & -> & _).
  rewrite allChars_app in Hp. cbn [allChars] in Hp.
  rewrite andb_false_r in Hp. discriminate.
Qed.

(** The three texts the test of the extension accepts. *)
Lemma isImageExt_spec x :
  FileInfo.isImageExt x = true <-> x = "jpg" \/ x = "jpeg" \/ x = "png".
Proof.
  split.
  - unfold FileInfo.isImageExt.
    destruct (match_at false FileInfo.imageExtTest 0 x) as [m|] eqn:E; [|discriminate].
    intros _. apply match_at_sound in E as (_ & _ & E).
    unfold FileInfo.imageExtTest in E. cbn [shape] in E.
    destruct E as [E|E]; cbn [Seq] in E.
    + apply shape_Cat in E as (s1 & cs1 & E1 & E).
      apply shape_Str in E1 as [-> _].
      apply shape_Cat in E as (s2 & cs2 & E2 & E).
      apply shape_Cat in E as (s3 & cs3 & E3 & E).
      apply shape_Cat in E as (s4 & cs4 & (-> & _ & _) & _).
      cbn [shape] in E3. destruct E3 as (a & -> & Ha & _). cbn in Ha. subst a.
      cbn [Opt shape] in E2. destruct E2 as [(a & -> & Ha & _)|(<- & _)].
      * cbn in Ha. subst a. right. left. reflexivity.
      * left. reflexivity.
    + apply shape_Cat in E as (s1 & cs1 & E1 & E).
      apply shape_Str in E1 as [-> _].
      apply shape_Cat in E as (s4 & cs4 & (-> & _ & _) & _).
      right. right. reflexivity.
  - intros [->|[->| ->]]; reflexivity.
Qed.

Lemma toLowerCase_app a b :
  FileInfo.toLowerCase (a +:+ b) = FileInfo.toLowerCase a +:+ FileInfo.toLowerCase b.
Proof.
  induction a as [|c a IH]; [rewrite !app_nil_l; reflexivity|].
  rewrite app_cons. cbn [FileInfo.toLowerCase]. rewrite app_cons, IH. reflexivity.
Qed.

End ReMore.

(* ===================================================================== *)
(** * Properties of the path and pattern helpers *)
(* ===================================================================== *)

Module PathProperties.
Import JS Re Css Fs Convert Loader Notions JSFacts ReFacts PassFacts CssFacts ReMore.

(** X6. The compact path of an image path: when the path ends in .jpg,
    .jpeg or .png (lower case), that extension at the end, and only it,
    is replaced by .webp; any other path is returned unchanged. *)
Theorem webpPathOf_replaces_last_extension (p : string) :
  webpPathOf p
  = if endsWith ".jpg" p || endsWith ".png" p
    then take (len p - 4) p +:+ ".webp"
    else if endsWith ".jpeg" p then take (len p - 5) p +:+ ".webp"
    else p.
Proof.
  assert (N : forall x y a, (x = ".jpg" \/ x = ".jpeg" \/ x = ".png") ->
              (y = ".jpg" \/ y = ".jpeg" \/ y = ".png") -> x <> y ->
              endsWith y (a +:+ x) = false).
  { intros x y a Hx Hy Hn. destruct (endsWith y (a +:+ x)) eqn:E; [|reflexivity].
    apply endsWith_spec in E as [b E].
    destruct (ext_cut a b x y Hx Hy E) as [_ Exy]. contradiction. }
  unfold webpPathOf.
  destruct (search false imageExtRegex 0 p) as [m|] eqn:E.
  - destruct (replace1_some false imageExtRegex (fun _ => ".webp") _ m E)
      as (pre & Hp & Hs & ->).
    apply imageExt_shape in Hs as [Hr Hx]. rewrite Hr in *.
    rewrite app_nil_r in Hx, Hp. rewrite app_nil_r. subst p.
    destruct Hx as [->|[->| ->]].
    + rewrite endsWith_app. cbn [orb].
      change 4 with (len ".jpg"). rewrite suffix_take_eq. reflexivity.
    + rewrite (N ".jpeg" ".jpg"), (N ".jpeg" ".png"), endsWith_app by (auto; discriminate).
      cbn [orb]. change 5 with (len ".jpeg"). rewrite suffix_take_eq. reflexivity.
    + rewrite endsWith_app, orb_true_r.
      change 4 with (len ".png"). rewrite suffix_take_eq. reflexivity.
  - rewrite (replace1_none _ _ _ _ E).
    assert (F : forall x, (x = ".jpg" \/ x = ".jpeg" \/ x = ".png") ->
                endsWith x p = false).
    { intros x Hx. destruct (endsWith x p) eqn:Ex; [|reflexivity].
      apply endsWith_spec in Ex as [a ->]. exfalso. revert E.
      apply search_found. destruct Hx as [->|[->| ->]]; vm_compute; discriminate. }
    rewrite !F by auto. reflexivity.
Qed.

(** X7. The marker is taken from the end of an import path and from
    nowhere else: a path that ends in !webp loses these five characters,
    any other path is returned unchanged. *)
Theorem stripMark_removes_final_marker (p : string) :
  stripMark p = if endsWith "!webp" p then take (len p - 5) p else p.
Proof.
  unfold stripMark.
  destruct (search false skipMarkRegex 0 p) as [m|] eqn:E.
  - destruct (replace1_some false skipMarkRegex (fun _ => EmptyString) _ m E)
      as (pre & Hp & Hs & ->).
    apply skipMark_shape in Hs as [Hr Hx]. rewrite Hr in *.
    rewrite app_nil_r in Hx. rewrite Hx in Hp. rewrite app_nil_r in Hp. subst p.
    rewrite endsWith_app, app_nil_l, app_nil_r.
    change 5 with (len "!webp"). rewrite suffix_take_eq. reflexivity.
  - rewrite (replace1_none _ _ _ _ E).
    destruct (endsWith "!webp" p) eqn:Ex; [|reflexivity].
    apply endsWith_spec in Ex as [a ->]. exfalso. revert E.
    apply search_found. vm_compute. discriminate.
Qed.

(** X8. [escapeRegExp] puts one backslash in front of each of the
    fourteen characters that are special in a pattern and changes
    nothing else; taking the backslashes away gives the text back. *)
Theorem escapeRegExp_backslashes_specials (s : string) :
  Escape.escapeRegExp s = backslashed s
  /\ unescaped (Escape.escapeRegExp s) = s
  /\ (allChars (fun c => negb (isSpecial c)) s = true ->
      Escape.escapeRegExp s = s).
Proof.
  assert (E : Escape.escapeRegExp s = backslashed s).
  { unfold Escape.escapeRegExp, replaceAllStr.
    rewrite (replaceAll_ext false Escape.specialRegex _
               (fun m => String "\" (m_text m))).
    - rewrite replaceAll_spliceR. apply escape_scan.
    - intros m _. cbn [expand]. rewrite app_nil_r. reflexivity. }
  split; [exact E|]. split.
  - rewrite E. apply unescaped_backslashed.
  - intros H. rewrite E. clear E. induction s as [|c s IH]; [reflexivity|].
    cbn [allChars] in H. apply andb_prop in H as [Hc Hs].
    apply negb_true_iff in Hc. cbn [backslashed]. rewrite Hc, (IH Hs).
    reflexivity.
Qed.

Lemma escapeRegExp_example :
  allChars (fun c => negb (isSpecial c)) "images/a-1_b@2x" = true
  /\ Escape.escapeRegExp "images/a-1_b@2x" = "images/a-1_b@2x"
  /\ Escape.escapeRegExp "img/a.b(1).png" = "img/a\.b\(1\)\.png".
Proof.
  split; [reflexivity|]. split; [|vm_compute; reflexivity].
  exact (proj2 (proj2 (escapeRegExp_backslashes_specials "images/a-1_b@2x"))
           eq_refl).
Defined.

(** X9. For a path whose text after the last dot is not empty (ASCII),
    the extension [extractFileInfo] reports is that text in lower case,
    and the test for an image accepts exactly jpg, jpeg and png. The optional marker of the
    loader's pattern never takes part, so both versions agree, and a
    path that carries the marker is reported with the marker in its
    extension and as no image. *)
Theorem extractFileInfo_extension (stem e : string) :
  e <> EmptyString ->
  allChars notDot e = true ->
  allChars isAscii e = true ->
  let info := FileInfo.extractFileInfo (stem +:+ "." +:+ e) in
  FileInfo.f_ext info = FileInfo.toLowerCase e
  /\ (FileInfo.f_isImage info = true
      <-> FileInfo.toLowerCase e = "jpg" \/ FileInfo.toLowerCase e = "jpeg"
          \/ FileInfo.toLowerCase e = "png")
  /\ FileInfo.extractFileInfo_plugin (stem +:+ "." +:+ e) = info
  /\ FileInfo.f_isImage (FileInfo.extractFileInfo (stem +:+ "." +:+ e +:+ "!webp"))
     = false.
Proof.
  intros He Ha _. cbv zeta.
  assert (S1 : forall x, x <> EmptyString -> allChars notDot x = true ->
               FileInfo.extractFileInfo (stem +:+ "." +:+ x)
               = FileInfo.MkFileInfo (stem +:+ "." +:+ x) (FileInfo.toLowerCase x)
                   (FileInfo.isImageExt (FileInfo.toLowerCase x))).
  { intros x Hx Hax. unfold FileInfo.extractFileInfo, FileInfo.extractWith.
    rewrite app_cons, app_nil_l.
    rewrite (last_dot_search FileInfo.extRegex stem x ext_shape
               (fun pos => ext_match pos x Hx Hax)).
    reflexivity. }
  rewrite (S1 e He Ha). cbn [FileInfo.f_ext FileInfo.f_isImage].
  split; [reflexivity|]. split; [apply isImageExt_spec|]. split.
  - unfold FileInfo.extractFileInfo_plugin, FileInfo.extractWith.
    rewrite app_cons, app_nil_l.
    rewrite (last_dot_search FileInfo.plainExtRegex stem e plainExt_shape
               (fun pos => plainExt_match pos e He Ha)).
    reflexivity.
  - rewrite S1.
    + cbn [FileInfo.f_isImage].
      destruct (FileInfo.isImageExt (FileInfo.toLowerCase (e +:+ "!webp"))) eqn:E;
        [|reflexivity].
      exfalso. apply isImageExt_spec in E. rewrite toLowerCase_app in E.
      assert (L : lastChar (FileInfo.toLowerCase e +:+ FileInfo.toLowerCase "!webp")
                  = Some "p"%char) by (rewrite lastChar_app; [reflexivity|discriminate]).
      destruct E as [E|[E|E]]; rewrite E in L; discriminate L.
    + intros E. apply app_eq_nil in E as [_ E]. discriminate E.
    + rewrite allChars_app, Ha. reflexivity.
Qed.

Lemma extractFileInfo_example :
  "PNG" <> EmptyString
  /\ allChars notDot "PNG" = true
  /\ allChars isAscii "PNG" = true
  /\ FileInfo.extractFileInfo "assets/logo.v2.PNG"
     = FileInfo.MkFileInfo "assets/logo.v2.PNG" "png" true
  /\ FileInfo.extractFileInfo "assets/logo.v2.PNG!webp"
     = FileInfo.MkFileInfo "assets/logo.v2.PNG!webp" "png!webp" false.
Proof.
  split; [discriminate|]. split; [reflexivity|]. split; [reflexivity|].
  destruct (extractFileInfo_extension "assets/logo.v2" "PNG"
              ltac:(discriminate) eq_refl eq_refl) as (H1 & _ & _ & H2).
  split; [vm_compute; reflexivity|]. vm_compute. reflexivity.
Defined.

End PathProperties.

(* ===================================================================== *)
(** * More about the loader *)
(* ===================================================================== *)

Module LoaderMore.
Import JS Re Css Fs Convert Loader Notions Samples JSFacts ReFacts PassFacts CssFacts LoaderFacts ReMore.

(** ** Folds *)

Lemma fold_left_inv {A B : Type} (P : A -> Prop) (f : A -> B -> A) :
  forall l acc,
    P acc -> (forall a x, x ∈ l -> P a -> P (f a x)) -> P (fold_left f l acc).
Proof.
  induction l as [|x l IH]; intros acc H0 Hf; [exact H0|].
  cbn [fold_left]. apply IH.
  - apply Hf; [left|exact H0].
  - intros a y Hy. apply Hf. right. exact Hy.
Qed.

(** ** Matches and the text they come from *)

Lemma exec_suffix ic r s m :
  m ∈ execAll ic r s ->
  exists pos t, suffix t s /\ match_at ic r pos t = Some m.
Proof.
  rewrite execAll_scanFrom. apply (scan_matches ic r (S (len s))). lia.
Qed.

Lemma marked_has_bang g : endsWith "!webp" g = true -> allChars notBang g = false.
Proof.
  intros H. apply endsWith_spec in H as [a ->].
  rewrite allChars_app. cbn. apply andb_false_r.
Qed.

(** A capture of a match over text without the character [!] cannot end
    in the marker. *)
Lemma bang_free_group ic r s m n :
  allChars notBang s = true -> m ∈ execAll ic r s ->
  endsWith "!webp" (group n m) = false.
Proof.
  intros Hs Hm. apply exec_suffix in Hm as (pos & t & Ht & Hm).
  pose proof (group_allChars ic notBang r pos t n m Hm
                (allChars_suffix _ _ _ Ht Hs)) as Hg.
  destruct (endsWith "!webp" (group n m)) eqn:E; [|reflexivity].
  apply marked_has_bang in E. congruence.
Qed.

(** ** The patterns of the statements *)

Lemma shape_Alt ic r1 r2 s cs s' cs' :
  shape ic (Alt r1 r2) s cs s' cs' ->
  shape ic r1 s cs s' cs' \/ shape ic r2 s cs s' cs'.
Proof. intros H. exact H. Qed.

Lemma shape_Chr c s cs s' cs' :
  shape false (Chr c) s cs s' cs' -> s = String c s' /\ cs' = cs.
Proof. intros (a & -> & Ha & ->). cbn in Ha. subst a. split; reflexivity. Qed.

Lemma shape_Opt ic r s cs s' cs' :
  shape ic (Opt r) s cs s' cs' ->
  shape ic r s cs s' cs' \/ (s' = s /\ cs' = cs).
Proof. intros H. exact H. Qed.

Lemma shape_Eps ic s cs s' cs' :
  shape ic Eps s cs s' cs' -> s' = s /\ cs' = cs.
Proof. intros H. exact H. Qed.

Lemma imagePath_shape s cs s' cs' :
  shape false imagePathPattern s cs s' cs' ->
  exists ext mark,
    s = ext +:+ mark +:+ s' /\ isImageSuffix ext /\ isMark mark /\ cs' = cs.
Proof.
  unfold imagePathPattern. cbn [Seq]. intros H.
  apply shape_Cat in H as (s1 & cs1 & H1 & H).
  apply shape_Chr in H1 as [-> ->].
  apply shape_Cat in H as (s2 & cs2 & H2 & H).
  apply shape_Cat in H as (s3 & cs3 & H3 & H).
  apply shape_Eps in H as [-> ->].
  assert (M : exists mark, s2 = mark +:+ s3 /\ isMark mark /\ cs3 = cs2).
  { apply shape_Opt in H3 as [H3|[-> ->]].
    - apply shape_Str in H3 as [-> ->]. exists "!webp".
      split; [reflexivity|]. split; [right|]; reflexivity.
    - exists EmptyString. rewrite app_nil_l.
      split; [reflexivity|]. split; [left|]; reflexivity. }
  destruct M as (mark & -> & Hm & ->).
  assert (X : exists e, s1 = e +:+ mark +:+ s3
                        /\ (e = "jpg" \/ e = "jpeg" \/ e = "png") /\ cs2 = cs).
  { apply shape_Alt in H2 as [H2|H2].
    - apply shape_Cat in H2 as (t1 & c1 & E1 & H2).
      apply shape_Str in E1 as [-> ->].
      apply shape_Cat in H2 as (t2 & c2 & E2 & H2).
      apply shape_Cat in H2 as (t3 & c3 & E3 & H2).
      apply shape_Eps in H2 as [<- <-].
      apply shape_Chr in E3 as [-> ->].
      apply shape_Opt in E2 as [E2|[<- <-]].
      + apply shape_Chr in E2 as [-> ->]. exists "jpeg".
        split; [reflexivity|]. split; auto.
      + exists "jpg". split; [reflexivity|]. split; auto.
    - apply shape_Str in H2 as [-> ->]. exists "png".
      split; [reflexivity|]. split; auto. }
  destruct X as (e & -> & He & ->).
  exists (String "." e), mark. split; [rewrite app_cons; reflexivity|].
  split; [|split; [exact Hm|reflexivity]].
  destruct He as [->|[->| ->]]; [left|right; left|right; right]; reflexivity.
Qed.

Lemma quotedPath_shape q s cs s' cs' :
  shape false (quotedPath q) s cs s' cs' ->
  exists g ext mark,
    cs' = (2, g +:+ ext +:+ mark) :: (3, g) :: cs
    /\ g <> EmptyString /\ isImageSuffix ext /\ isMark mark.
Proof.
  unfold quotedPath. cbn [Seq]. intros H.
  apply shape_Cat in H as (s1 & cs1 & H1 & H).
  apply shape_Cls in H1 as (a & -> & _ & ->).
  apply shape_Cat in H as (s2 & cs2 & H2 & H).
  apply shape_Cat in H as (s3 & cs3 & H3 & H).
  apply shape_Eps in H as [<- <-].
  apply shape_Cls in H3 as (b & -> & _ & ->).
  apply shape_Grp in H2 as (cs4 & H2 & ->).
  apply shape_Cat in H2 as (s4 & cs5 & H4 & H2).
  apply shape_Cat in H2 as (s5 & cs6 & H5 & H2).
  apply shape_Eps in H2 as [-> ->].
  apply shape_Grp in H4 as (cs7 & H4 & ->).
  apply shape_plus_cls in H4 as (g & -> & Hg & _ & ->).
  apply imagePath_shape in H5 as (ext & mark & -> & He & Hm & ->).
  exists g, ext, mark.
  split; [|split; [exact Hg|split; assumption]].
  f_equal.
  - f_equal.
    match goal with
    | |- take (len (g +:+ ext +:+ mark +:+ ?r) - _) _ = _ =>
        rewrite <- (app_assoc ext mark r), <- (app_assoc g (ext +:+ mark) r)
    end.
    apply suffix_take_eq.
  - f_equal. f_equal. apply suffix_take_eq.
Qed.

Lemma importRegex_shape q s cs s' cs' :
  shape false (importRegex q) s cs s' cs' ->
  exists cs0 t t', shape false (quotedPath q) t cs0 t' cs'.
Proof.
  unfold importRegex. cbn [Seq]. intros H.
  do 6 (apply shape_Cat in H as (? & ? & _ & H)).
  apply shape_Cat in H as (t' & c' & HQ & HE).
  apply shape_Eps in HE as [_ ->]. eauto.
Qed.

Lemma requireRegex_shape q s cs s' cs' :
  shape false (requireRegex q) s cs s' cs' ->
  exists cs0 t t', shape false (quotedPath q) t cs0 t' cs'.
Proof.
  unfold requireRegex. cbn [Seq]. intros H.
  do 10 (apply shape_Cat in H as (? & ? & _ & H)).
  apply shape_Cat in H as (t' & c' & HQ & H).
  apply shape_Cat in H as (t1 & c1 & H1 & H).
  apply shape_Cat in H as (t2 & c2 & H2 & H).
  apply shape_Eps in H as [_ ->].
  apply shape_Chr in H2 as [_ ->].
  unfold ws0 in H1. apply shape_star_cls in H1 as (g & _ & _ & ->). eauto.
Qed.

(** What the second and third groups of a match of any of the four
    patterns hold. *)
Lemma pattern_shape pattern s cs s' cs' :
  pattern ∈ importPatterns ->
  shape false (p_regex pattern) s cs s' cs' ->
  exists g ext mark,
    cap_get 2 cs' = Some (g +:+ ext +:+ mark) /\ cap_get 3 cs' = Some g
    /\ g <> EmptyString /\ isImageSuffix ext /\ isMark mark.
Proof.
  intros Hp H.
  assert (Q : exists q cs0 t t', shape false (quotedPath q) t cs0 t' cs').
  { unfold importPatterns in Hp.
    repeat (apply elem_of_cons in Hp as [->|Hp]);
      [| | | |apply elem_of_nil in Hp; contradiction]; cbn [p_regex] in H.
    - exists "'"%char. apply (importRegex_shape _ _ _ _ _ H).
    - exists dquote. apply (importRegex_shape _ _ _ _ _ H).
    - exists "'"%char. apply (requireRegex_shape _ _ _ _ _ H).
    - exists dquote. apply (requireRegex_shape _ _ _ _ _ H). }
  destruct Q as (q & cs0 & t & t' & Q).
  apply quotedPath_shape in Q as (g & ext & mark & -> & Hg & He & Hm).
  exists g, ext, mark. repeat split; assumption.
Qed.

(** ** A reference that is opted out *)

Section Skip.

Variable sharpWebp : Buffer -> Z -> bool -> option Buffer.
Variable resolve : string -> string -> string + string.
Variable hasTmpTracker : bool.




End Skip.

(** ** What a run writes *)

Section Tracked.

Variable sharpWebp : Buffer -> Z -> bool -> option Buffer.
Variable resolve : string -> string -> string + string.

Lemma writesTracked_write w0 w temp p buf :
  writesTracked w0 w temp ->
  writesTracked w0 (writeFileSync p buf w) ({[p]} ∪ temp).
Proof.
  intros (added & H1 & H2). exists (added ++ [(p, buf)]).
  cbn [writeFileSync writes]. rewrite H1, List.app_assoc. split; [reflexivity|].
  intros q c H. apply elem_of_app in H as [H|H].
  - apply elem_of_union_r. exact (H2 q c H).
  - apply list_elem_of_singleton in H. injection H as -> ->.
    apply elem_of_union_l, elem_of_singleton. reflexivity.
Qed.

Lemma tryBlock_tracked w0 cfg rp cleanPath skip st :
  writesTracked w0 (l_world st) (l_temp st) ->
  let st' := fst (fst (tryBlock sharpWebp resolve true cfg rp cleanPath skip st)) in
  writesTracked w0 (l_world st') (l_temp st').
Proof.
  intros H. cbv zeta. unfold tryBlock.
  destruct (resolve (contextDir rp) cleanPath) as [imagePath|msg]; [|exact H].
  case_bool_decide; [exact H|].
  destruct (existsSync imagePath (l_world st) && negb skip); [|exact H].
  cbn [l_world l_processed l_temp].
  destruct (readFileSync imagePath (l_world st)) as [img|]; [|exact H].
  destruct (transcode sharpWebp cfg img) as [[buf|] log]; [|exact H].
  cbn [l_world l_temp]. rewrite ConvertFacts.retain_spec.
  destruct (len buf <? len img); [apply writesTracked_write, H|].
  destruct (onlySmallerFiles cfg); [exact H|apply writesTracked_write, H].
Qed.

Lemma processMatch_tracked w0 cfg rp disabled pattern st m :
  writesTracked w0 (l_world st) (l_temp st) ->
  let st' := processMatch sharpWebp resolve true cfg rp disabled pattern st m in
  writesTracked w0 (l_world st') (l_temp st').
Proof.
  intros H. cbv zeta. unfold processMatch.
  pose proof (tryBlock_tracked w0 cfg rp
                (if endsWith "!webp" (group 2 m) then stripMark (group 2 m)
                 else group 2 m)
                (disabled || endsWith "!webp" (group 2 m)) st H) as T.
  cbv zeta in T.
  destruct (tryBlock sharpWebp resolve true cfg rp _ _ st) as [[st1 ip] e].
  cbn [fst] in T. destruct e; exact T.
Qed.

Lemma scanImports_tracked w0 cfg rp disabled source st :
  writesTracked w0 (l_world st) (l_temp st) ->
  let st' := scanImports sharpWebp resolve true cfg rp disabled source st in
  writesTracked w0 (l_world st') (l_temp st').
Proof.
  intros H. cbv zeta. unfold scanImports.
  apply (fold_left_inv (fun a => writesTracked w0 (l_world a) (l_temp a)));
    [exact H|].
  intros a pattern _ Ha.
  apply (fold_left_inv (fun b => writesTracked w0 (l_world b) (l_temp b)));
    [exact Ha|].
  intros b m _ Hb. apply processMatch_tracked, Hb.
Qed.

End Tracked.

(** ** The development branch *)

Lemma devLoader_plain source :
  allChars notBang source = true -> devLoader source = source.
Proof.
  intros Hs. unfold devLoader.
  apply (fold_left_inv (fun a => a = source)); [reflexivity|].
  intros a pattern _ ->.
  apply (fold_left_inv (fun a => a = source)); [reflexivity|].
  intros b m Hm ->. unfold devStep.
  rewrite (bang_free_group false (p_regex pattern) source m 2 Hs Hm).
  reflexivity.
Qed.

(** ** The list of imports without duplicates *)

Lemma firstOccurrences_fixed : forall l seen,
  NoDup (map i_fullMatch l) ->
  (forall t, t ∈ map i_fullMatch l -> t ∉ seen) ->
  firstOccurrences seen l = l.
Proof.
  induction l as [|x l IH]; intros seen Hn Hs; [reflexivity|].
  cbn [firstOccurrences]. cbn [map] in Hn, Hs.
  apply NoDup_cons in Hn as [Hx Hn].
  rewrite bool_decide_eq_false_2 by (apply Hs; left).
  f_equal. apply IH; [exact Hn|].
  intros t Ht Hin. apply elem_of_app in Hin as [Hin|Hin].
  - apply (Hs t); [right; exact Ht|exact Hin].
  - apply list_elem_of_singleton in Hin. subst t. contradiction.
Qed.

Lemma firstOccurrences_sublist : forall l seen,
  sublist (firstOccurrences seen l) l.
Proof.
  induction l as [|x l IH]; intros seen; [constructor|].
  cbn [firstOccurrences]. case_bool_decide.
  - apply sublist_cons. apply IH.
  - apply sublist_skip. apply IH.
Qed.

End LoaderMore.

(* ===================================================================== *)
(** * Properties of the loader *)
(* ===================================================================== *)

Module LoaderProperties.
Import JS Re Css Fs Convert Loader Notions Samples JSFacts ReFacts PassFacts CssFacts LoaderFacts ReMore LoaderMore.

(** X10. The four patterns find only statements whose quoted path ends
    in .jpg, .jpeg or .png in lower case, optionally followed by the
    marker: for every match, the second group is a non-empty stem
    followed by such an extension and perhaps the marker, and the third
    group is the stem. *)
Theorem import_matches_are_image_paths (pattern : ImportPattern)
    (source : string) (m : mres) :
  pattern ∈ importPatterns ->
  m ∈ execAll false (p_regex pattern) source ->
  exists stem ext mark,
    group 2 m = stem +:+ ext +:+ mark
    /\ group 3 m = stem
    /\ stem <> EmptyString /\ isImageSuffix ext /\ isMark mark.
Proof.
  intros Hp Hm. apply exec_suffix in Hm as (pos & t & _ & Hm).
  apply match_at_sound in Hm as (_ & _ & Hm).
  apply (pattern_shape pattern) in Hm as (g & ext & mark & H2 & H3 & Hg & He & Hk);
    [|exact Hp].
  exists g, ext, mark. unfold group. rewrite H2, H3. repeat split; assumption.
Qed.

Lemma import_matches_example :
  MkPattern (importRegex "'") TImport QSingle ∈ importPatterns
  /\ map (group 2) (execAll false (importRegex "'") twoImports)
     = ["./logo.png"; "./logo.png!webp"]
  /\ map (group 3) (execAll false (importRegex "'") twoImports)
     = ["./logo"; "./logo"].
Proof.
  assert (Hp : MkPattern (importRegex "'") TImport QSingle ∈ importPatterns)
    by (left).
  assert (Hm : hd (MRes 0 EmptyString [] EmptyString)
                 (execAll false (importRegex "'") twoImports)
               ∈ execAll false (p_regex (MkPattern (importRegex "'") TImport QSingle))
                   twoImports) by (vm_compute; left).
  pose proof (import_matches_are_image_paths _ _ _ Hp Hm) as H.
  split; [exact Hp|]. split; vm_compute; reflexivity.
Defined.

(** X11. In development the loader touches neither the disk nor the
    registry and hands back no imports, and a text without the
    character [!] comes back unchanged. *)
Theorem development_leaves_plain_sources
    (sharpWebp : Buffer -> Z -> bool -> option Buffer)
    (resolve : string -> string -> string + string) (hasTmpTracker : bool)
    (options : LoaderOptions) (resourcePath source : string) (sh : Shared) :
  allChars notBang source = true ->
  loader sharpWebp resolve hasTmpTracker false options resourcePath source sh
  = MkResult source [] sh [].
Proof.
  intros Hs. unfold loader.
  destruct (negb (test false scriptExtRegex resourcePath)
            || test false nodeModulesRegex resourcePath); [reflexivity|].
  cbn [negb]. rewrite (devLoader_plain source Hs). reflexivity.
Qed.

Lemma development_example :
  allChars notBang "import a from './logo.png';" = true
  /\ out_source (runSample false "import a from './logo.png';")
     = "import a from './logo.png';".
Proof.
  split; [reflexivity|]. unfold runSample.
  rewrite (development_leaves_plain_sources smallCodec sampleResolve true
             sampleOptions "/src/index.tsx" "import a from './logo.png';"
             sampleShared eq_refl).
  reflexivity.
Defined.



(** X25. With the context of the plugin in place, every file a run of
    the loader writes is registered for the clean-up at the end of the
    build: the write log grows only by entries whose path is in the set
    of temporary files the run hands back. *)
Theorem loader_registers_what_it_writes
    (sharpWebp : Buffer -> Z -> bool -> option Buffer)
    (resolve : string -> string -> string + string)
    (isProduction : bool) (options : LoaderOptions)
    (resourcePath source : string) (sh : Shared) :
  let r := loader sharpWebp resolve true isProduction options resourcePath
             source sh in
  writesTracked (s_world sh) (s_world (out_shared r)) (s_temp (out_shared r)).
Proof.
  cbv zeta.
  assert (Z0 : forall temp, writesTracked (s_world sh) (s_world sh) temp).
  { intros temp. exists []. rewrite List.app_nil_r. split; [reflexivity|].
    intros q c H. apply elem_of_nil in H. contradiction. }
  unfold loader.
  destruct (negb (test false scriptExtRegex resourcePath)
            || test false nodeModulesRegex resourcePath); [apply Z0|].
  destruct isProduction; cbn [negb]; [|apply Z0].
  cbn [out_shared s_world s_temp].
  apply (scanImports_tracked sharpWebp resolve (s_world sh)
              (loaderConfig options) resourcePath
              (test false disableCommentPattern (take 500 source)) source
              (MkLState (s_world sh) (s_processed sh) (s_temp sh) [] source [])).
  apply Z0.
Qed.

(** X13. Removing the duplicates of the list of imports keeps the first
    entry of each matched text in the order of the list, does nothing
    to a list without duplicates, and does nothing when applied
    again. *)
Theorem dedupImports_is_idempotent (imports : list ImportInfo) :
  sublist (dedupImports imports) imports
  /\ dedupImports (dedupImports imports) = dedupImports imports
  /\ (NoDup (map i_fullMatch imports) -> dedupImports imports = imports).
Proof.
  rewrite !dedupImports_firstOccurrences.
  split; [apply firstOccurrences_sublist|]. split.
  - apply firstOccurrences_fixed; [apply firstOccurrences_NoDup|].
    intros t _. apply not_elem_of_nil.
  - intros H. apply firstOccurrences_fixed; [exact H|].
    intros t _. apply not_elem_of_nil.
Qed.

(** X14. When the options of the loader leave [onlySmallerFiles] out, it
    counts as off: a conversion that succeeds is always written next to
    the image and the statement is pointed at it, also when the compact
    file is larger than the image. *)
Theorem loader_keeps_larger_files_by_default
    (sharpWebp : Buffer -> Z -> bool -> option Buffer)
    (resolve : string -> string -> string + string) (hasTmpTracker : bool)
    (options : LoaderOptions) (resourcePath cleanPath imagePath : string)
    (st : LState) (img buf : Buffer) (log : list Attempt) :
  o_onlySmallerFiles options = None ->
  resolve (contextDir resourcePath) cleanPath = inl imagePath ->
  imagePath ∉ l_processed st ->
  readFileSync imagePath (l_world st) = Some img ->
  transcode sharpWebp (loaderConfig options) img = (Some buf, log) ->
  let r := tryBlock sharpWebp resolve hasTmpTracker (loaderConfig options)
             resourcePath cleanPath false st in
  l_world (fst (fst r)) = writeFileSync (webpPathOf imagePath) buf (l_world st)
  /\ snd r = Completed true.
Proof.
  intros Ho Hr Hp Hread Ht. cbv zeta.
  destruct (tryBlock_retention sharpWebp resolve hasTmpTracker
              (loaderConfig options) resourcePath cleanPath imagePath st img buf
              log Hr Hp Hread Ht) as [H1 H2].
  rewrite H1, H2. unfold loaderConfig. cbn [onlySmallerFiles]. rewrite Ho.
  cbn [orBool negb]. rewrite orb_true_r. split; reflexivity.
Qed.

Lemma loader_keeps_larger_files_example :
  out_source (loader inflatingCodec sampleResolve true true bareOptions
                "/src/index.tsx" "import a from './logo.png';" sampleShared)
  = "import a from './logo.webp';"
  /\ l_world (fst (fst (tryBlock inflatingCodec sampleResolve true
                          (loaderConfig bareOptions) "/src/index.tsx"
                          "./logo.png" false emptyState)))
     = writeFileSync "/src/logo.webp" "01234567890123" (l_world emptyState).
Proof.
  split; [vm_compute; reflexivity|].
  refine (proj1 (loader_keeps_larger_files_by_default inflatingCodec
                   sampleResolve true bareOptions "/src/index.tsx" "./logo.png"
                   "/src/logo.png" emptyState "0123456789" "01234567890123"
                   _ eq_refl eq_refl _ eq_refl _)).
  all: first [reflexivity | apply not_elem_of_empty].
Defined.

End LoaderProperties.

(* ===================================================================== *)
(** * More about text search and replacement *)
(* ===================================================================== *)

Module TextMore.
Import JS Re Css Fs Convert Notions Samples JSFacts ReFacts.

Lemma indexOf_cons p c s :
  indexOf p (String c s)
  = if startsWith p (String c s) then Some 0 else option_map S (indexOf p s).
Proof. destruct p; reflexivity. Qed.

Lemma indexOf_nil p :
  indexOf p EmptyString = if startsWith p EmptyString then Some 0 else None.
Proof. destruct p; reflexivity. Qed.

(** Where [indexOf] finds the pattern, the pattern is. *)
Lemma indexOf_spec p : forall s i,
  indexOf p s = Some i -> drop i s = p +:+ drop (i + len p) s.
Proof.
  induction s as [|c s IH]; intros i H.
  - rewrite indexOf_nil in H.
    destruct (startsWith p EmptyString) eqn:E; [|discriminate].
    injection H as <-. apply startsWith_true in E. exact E.
  - rewrite indexOf_cons in H.
    destruct (startsWith p (String c s)) eqn:E.
    + injection H as <-. apply startsWith_true in E. exact E.
    + destruct (indexOf p s) as [j|]; [|discriminate]. injection H as <-.
      cbn [drop Nat.add]. apply IH. reflexivity.
Qed.

Lemma includes_app_r p a b : includes p b = true -> includes p (a +:+ b) = true.
Proof.
  unfold includes. induction a as [|c a IH]; intros H.
  - rewrite app_nil_l. exact H.
  - rewrite app_cons, indexOf_cons.
    destruct (startsWith p (String c (a +:+ b))); [reflexivity|].
    specialize (IH H). destruct (indexOf p (a +:+ b)); [reflexivity|discriminate].
Qed.

Lemma startsWith_app_l p a b : startsWith p a = true -> startsWith p (a +:+ b) = true.
Proof.
  intros H. apply startsWith_spec in H as [r ->]. rewrite app_assoc.
  apply startsWith_app.
Qed.

Lemma includes_app_l p a b : includes p a = true -> includes p (a +:+ b) = true.
Proof.
  unfold includes. induction a as [|c a IH]; intros H.
  - rewrite indexOf_nil in H.
    destruct (startsWith p EmptyString) eqn:E; [|discriminate].
    destruct p; [|discriminate]. destruct b; reflexivity.
  - rewrite indexOf_cons in H. rewrite app_cons, indexOf_cons.
    destruct (startsWith p (String c a)) eqn:E.
    + rewrite <- app_cons, (startsWith_app_l _ _ _ E). reflexivity.
    + destruct (startsWith p (String c (a +:+ b))); [reflexivity|].
      destruct (indexOf p a); [|discriminate].
      specialize (IH eq_refl). destruct (indexOf p (a +:+ b)); [reflexivity|discriminate].
Qed.

(** A replacement text without the dollar sign stands for itself. *)
Lemma expand_plain m before after caps : forall repl,
  allChars notDollar repl = true -> expand repl m before after caps = repl.
Proof.
  induction repl as [|c r IH]; intros H; [reflexivity|].
  cbn [allChars] in H. apply andb_prop in H as [Hc Hr].
  specialize (IH Hr).
  destruct c as [[] [] [] [] [] [] [] []]; try discriminate Hc;
    cbn [expand]; rewrite IH; reflexivity.
Qed.

Lemma replaceStr_plain pat repl s i :
  allChars notDollar repl = true ->
  indexOf pat s = Some i ->
  replaceStr pat repl s = take i s +:+ repl +:+ drop (i + len pat) s.
Proof.
  intros Hr Hi. unfold replaceStr. rewrite Hi, expand_plain by exact Hr.
  reflexivity.
Qed.

Lemma take_add : forall i n s,
  take (i + n) s = take i s +:+ take n (drop i s).
Proof.
  induction i as [|i IH]; intros n s.
  - cbn [Nat.add take]. destruct s; cbn [drop]; rewrite app_nil_l; reflexivity.
  - destruct s as [|c s].
    + cbn [Nat.add take drop]. destruct n; reflexivity.
    + cbn [Nat.add take drop]. rewrite app_cons, IH. reflexivity.
Qed.

End TextMore.

(* ===================================================================== *)
(** * More about the end of a build *)
(* ===================================================================== *)

Module BuildMore.
Import JS Re Css Fs Convert Plugin Notions Samples JSFacts ReFacts PassFacts TextMore.

Lemma cleanTemp_files : forall tmp w p,
  files (cleanTemp w tmp) !! p
  = if bool_decide (p ∈ tmp) then None else files w !! p.
Proof.
  unfold cleanTemp.
  induction tmp as [|x tmp IH]; intros w p; [reflexivity|].
  cbn [fold_left]. rewrite IH.
  destruct (decide (p ∈ tmp)) as [Hin|Hin].
  - rewrite !bool_decide_eq_true_2; [reflexivity|right; exact Hin|exact Hin].
  - rewrite (bool_decide_eq_false_2 (p ∈ tmp)) by exact Hin.
    destruct (decide (p = x)) as [->|Hne].
    + rewrite bool_decide_eq_true_2 by left.
      unfold existsSync, unlinkSync.
      destruct (files w !! x) eqn:E; cbn [files]; [apply lookup_delete_eq|exact E].
    + rewrite bool_decide_eq_false_2.
      * unfold existsSync, unlinkSync.
        destruct (files w !! x); cbn [files]; [|reflexivity].
        apply lookup_delete_ne. congruence.
      * intros H. apply elem_of_cons in H as [H|H]; contradiction.
Qed.

Lemma cleanTemp_writes : forall tmp w, writes (cleanTemp w tmp) = writes w.
Proof.
  unfold cleanTemp. induction tmp as [|x tmp IH]; intros w; [reflexivity|].
  cbn [fold_left]. rewrite IH. destruct (existsSync x w); reflexivity.
Qed.

End BuildMore.

(* ===================================================================== *)
(** * Properties of the hooks of the plugin *)
(* ===================================================================== *)

Module BuildProperties.
Import JS Re Css Fs Convert Plugin Notions Samples JSFacts ReFacts PassFacts TextMore BuildMore.

(** X15. Cleaning the temporary files removes every listed file and
    nothing else: afterwards no listed path exists, every other path is
    as it was, and nothing is written. *)
Theorem cleanTemp_removes_exactly_the_listed (w : World) (tmp : list string) :
  (forall p, p ∈ tmp -> existsSync p (cleanTemp w tmp) = false)
  /\ (forall p, p ∉ tmp -> files (cleanTemp w tmp) !! p = files w !! p)
  /\ writes (cleanTemp w tmp) = writes w.
Proof.
  split; [|split].
  - intros p Hp. unfold existsSync.
    rewrite cleanTemp_files, bool_decide_eq_true_2 by exact Hp. reflexivity.
  - intros p Hp. rewrite cleanTemp_files, bool_decide_eq_false_2 by exact Hp.
    reflexivity.
  - apply cleanTemp_writes.
Qed.

(** X16. [api.onBuildComplete] does nothing after a failed build or
    outside production. After a production build no temporary file is
    tracked any more, the set of processed paths is emptied exactly when
    there was a temporary file, and a temporary file is absent from the
    disk unless it is the compact path of an image of the output
    directory or a stylesheet there. *)
Theorem build_complete_clears_temporary_files
    (sharpWebp : Buffer -> Z -> bool -> option Buffer)
    (sched : list Job -> list Job) (config : Config) (distDir : string)
    (ctx : Context) (w : World) :
  (forall l, Permutation (sched l) l) ->
  (forall err isProduction, err || negb isProduction = true ->
     onBuildComplete sharpWebp sched err isProduction config distDir ctx w
     = (ctx, w, None))
  /\ let r := onBuildComplete sharpWebp sched false true config distDir ctx w in
     tempWebpFiles (fst (fst r)) = ∅
     /\ processedImagePaths (fst (fst r))
        = (if bool_decide (tempWebpFiles ctx = ∅) then processedImagePaths ctx else ∅)
     /\ (forall p, p ∈ tempWebpFiles ctx ->
           (forall q, matchesImageGlob distDir q = true -> p <> webpPathOf q) ->
           matchesCssGlob distDir p = false ->
           files (snd (fst r)) !! p = None).
Proof.
  intros Hs. split.
  - intros err isProduction H. unfold onBuildComplete. rewrite H. reflexivity.
  - cbv zeta. unfold onBuildComplete. cbn [orb negb].
    destruct (0 <? size (tempWebpFiles ctx)) eqn:Esz.
    + apply Nat.ltb_lt in Esz.
      assert (Hne : tempWebpFiles ctx <> ∅).
      { intros E. rewrite E, size_empty in Esz. lia. }
      set (w1 := cleanTemp w (elements (tempWebpFiles ctx))).
      pose proof (PassClaims.w1_cases sharpWebp sched config distDir w1) as Hc.
      destruct (convertToWebp sharpWebp sched config distDir w1) as [[w2 st] rs].
      cbn [fst snd tempWebpFiles processedImagePaths] in *.
      split; [reflexivity|]. split; [rewrite bool_decide_eq_false_2 by exact Hne; reflexivity|].
      intros p Hp Hi Hcss.
      assert (H1 : files w1 !! p = None).
      { unfold w1. rewrite cleanTemp_files, bool_decide_eq_true_2; [reflexivity|].
        apply elem_of_elements. exact Hp. }
      set (jobs := jobsOf (map (fun q => (q, startJob w1 q)) (globImages distDir w1))) in *.
      set (wi := fst (fst (finishJobs sharpWebp config (sched jobs) w1
                             (MkStats (length (globImages distDir w1)) 0 0 0)))) in *.
      assert (Ha : files wi !! p = None).
      { rewrite <- H1.
        destruct (finishJobs_files sharpWebp config (sched jobs) w1
                    (MkStats (length (globImages distDir w1)) 0 0 0)) as (_ & F & _).
        apply F. intros j Hj. rewrite Hs in Hj.
        apply elem_of_jobsOf in Hj as (q & Hq & Hst).
        apply startJob_inl in Hst as (b & _ & _ & ->). cbn [j_webpPath].
        apply Hi. apply elem_of_globImages in Hq as [_ Hq]. exact Hq. }
      destruct Hc as [->| ->]; [exact Ha|].
      rewrite <- Ha. unfold processCssFiles.
      destruct (processCssList_files (globCss distDir wi) wi) as [F _].
      apply F. intros Hin. apply elem_of_globCss in Hin. congruence.
    + apply Nat.ltb_ge in Esz.
      assert (He : tempWebpFiles ctx = ∅).
      { apply leibniz_equiv, size_empty_inv. lia. }
      destruct (convertToWebp sharpWebp sched config distDir w) as [[w2 st] rs].
      cbn [fst snd]. split; [exact He|].
      split; [rewrite bool_decide_eq_true_2 by exact He; reflexivity|].
      intros p Hp. rewrite He in Hp. apply elem_of_empty in Hp. contradiction.
Qed.

Lemma build_complete_example :
  (forall l, Permutation (inOrder l) l)
  /\ let r := onBuildComplete smallCodec inOrder false true defaultPolicy "/dist"
                trackedContext trackedWorld in
     fst (fst r) = MkContext ∅ ∅
     /\ files (snd (fst r)) !! "/src/logo.webp" = None
     /\ files (snd (fst r)) !! "/src/logo.png" = Some "0123456789".
Proof.
  split; [intros l; apply Permutation_refl|].
  destruct (build_complete_clears_temporary_files smallCodec inOrder defaultPolicy
              "/dist" trackedContext trackedWorld (fun l => Permutation_refl l))
    as (_ & _ & _ & H).
  cbv zeta in H |- *.
  split; [vm_compute; reflexivity|]. split; [|vm_compute; reflexivity].
  vm_compute. reflexivity.
Defined.

End BuildProperties.

(* ===================================================================== *)
(** * Properties of the page injector and of the generated typings *)
(* ===================================================================== *)

Module PageProperties.
Import JS Re Css Fs Convert Plugin Notions Samples JSFacts ReFacts PassFacts TextMore.

(** X17. With a script that has no dollar sign, a page that is not
    skipped keeps all of its text and gets the script tag in one place:
    in front of the first closing head tag; without one, behind the
    first opening body tag; without either, at the start. *)
Theorem injector_places_the_tag (scriptContent htmlContent : string) :
  allChars notDollar scriptContent = true ->
  includes "--webp-support" htmlContent = false ->
  includes "detectWebP" htmlContent = false ->
  Html.injectInto scriptContent htmlContent
  = Some (match indexOf "</head>" htmlContent with
          | Some i =>
              take i htmlContent +:+ Html.scriptTag scriptContent +:+ nl
              +:+ drop i htmlContent
          | None =>
              match indexOf "<body>" htmlContent with
              | Some j =>
                  take (j + 6) htmlContent +:+ nl
                  +:+ Html.scriptTag scriptContent +:+ drop (j + 6) htmlContent
              | None => Html.scriptTag scriptContent +:+ nl +:+ htmlContent
              end
          end).
Proof.
  intros Hd H1 H2. unfold Html.injectInto. rewrite H1, H2. cbn [orb].
  assert (Ht : allChars notDollar (Html.scriptTag scriptContent) = true).
  { unfold Html.scriptTag. rewrite !allChars_app, Hd. reflexivity. }
  f_equal. unfold includes.
  destruct (indexOf "</head>" htmlContent) as [i|] eqn:Ei.
  - rewrite (replaceStr_plain _ _ _ i) by
      (try exact Ei; rewrite !allChars_app, Ht; reflexivity).
    rewrite (indexOf_spec _ _ _ Ei), !app_assoc. reflexivity.
  - destruct (indexOf "<body>" htmlContent) as [j|] eqn:Ej; [|reflexivity].
    rewrite (replaceStr_plain _ _ _ j) by
      (try exact Ej; rewrite !allChars_app, Ht; reflexivity).
    rewrite take_add, (indexOf_spec _ _ _ Ej).
    change 6 with (len "<body>"). rewrite take_app, !app_assoc. reflexivity.
Qed.

Lemma injector_example :
  allChars notDollar "detectWebP();" = true
  /\ includes "--webp-support" "<html><head></head><body></body></html>" = false
  /\ includes "detectWebP" "<html><head></head><body></body></html>" = false
  /\ Html.injectInto "detectWebP();" "<html><head></head><body></body></html>"
     = Some ("<html><head><script>" +:+ nl +:+ "detectWebP();" +:+ nl +:+
             "</script>" +:+ nl +:+ "</head><body></body></html>").
Proof.
  split; [reflexivity|]. split; [reflexivity|]. split; [reflexivity|].
  rewrite (injector_places_the_tag "detectWebP();"
             "<html><head></head><body></body></html>" eq_refl eq_refl eq_refl).
  reflexivity.
Defined.

(** X18. When the script holds one of the two texts the injector looks
    for, as webp-detector.js does, a page is injected once: the text
    written back is skipped by the next run. *)
Theorem injector_skips_injected_pages
    (scriptContent htmlContent newContent : string) :
  allChars notDollar scriptContent = true ->
  includes "--webp-support" scriptContent = true
  \/ includes "detectWebP" scriptContent = true ->
  Html.injectInto scriptContent htmlContent = Some newContent ->
  Html.injectInto scriptContent newContent = None.
Proof.
  intros Hd Hm Hi.
  assert (Hs : includes "--webp-support" htmlContent = false
               /\ includes "detectWebP" htmlContent = false).
  { unfold Html.injectInto in Hi.
    destruct (includes "--webp-support" htmlContent),
             (includes "detectWebP" htmlContent); try discriminate Hi.
    split; reflexivity. }
  destruct Hs as [H1 H2].
  rewrite (injector_places_the_tag _ _ Hd H1 H2) in Hi. injection Hi as <-.
  assert (Ht : forall mark, includes mark scriptContent = true ->
               forall a b, includes mark (a +:+ Html.scriptTag scriptContent +:+ b)
                           = true).
  { intros mark Hk a b. apply includes_app_r, includes_app_l.
    unfold Html.scriptTag. apply includes_app_r, includes_app_r, includes_app_l.
    exact Hk. }
  assert (Hn : forall mark, includes mark scriptContent = true ->
               includes mark
                 (match indexOf "</head>" htmlContent with
                  | Some i =>
                      take i htmlContent +:+ Html.scriptTag scriptContent +:+ nl
                      +:+ drop i htmlContent
                  | None =>
                      match indexOf "<body>" htmlContent with
                      | Some j =>
                          take (j + 6) htmlContent +:+ nl
                          +:+ Html.scriptTag scriptContent
                          +:+ drop (j + 6) htmlContent
                      | None => Html.scriptTag scriptContent +:+ nl +:+ htmlContent
                      end
                  end) = true).
  { intros mark Hk.
    destruct (indexOf "</head>" htmlContent) as [i|]; [apply Ht, Hk|].
    destruct (indexOf "<body>" htmlContent) as [j|].
    - rewrite <- app_assoc. apply Ht, Hk.
    - rewrite <- (app_nil_l (Html.scriptTag scriptContent +:+ _)).
      apply Ht, Hk. }
  unfold Html.injectInto.
  destruct Hm as [Hm|Hm]; rewrite (Hn _ Hm); [|rewrite orb_true_r]; reflexivity.
Qed.

Lemma injector_skips_example :
  allChars notDollar "detectWebP();" = true
  /\ (includes "--webp-support" "detectWebP();" = true
      \/ includes "detectWebP" "detectWebP();" = true)
  /\ Html.injectInto "detectWebP();" "<p>"
     = Some ("<script>" +:+ nl +:+ "detectWebP();" +:+ nl +:+ "</script>" +:+ nl
             +:+ "<p>")
  /\ Html.injectInto "detectWebP();"
       ("<script>" +:+ nl +:+ "detectWebP();" +:+ nl +:+ "</script>" +:+ nl
        +:+ "<p>") = None.
Proof.
  split; [reflexivity|]. split; [right; reflexivity|]. split; [reflexivity|].
  exact (injector_skips_injected_pages "detectWebP();" "<p>" _ eq_refl
           (or_intror eq_refl) eq_refl).
Defined.

(** X19. The type declarations are appended once: the hook does nothing
    when the typings file is missing or already holds the declaration,
    it only ever adds text at the end of that one file, and running it
    again changes nothing. *)
Theorem typings_are_appended_once (typingsPath : string) (w : World) :
  (files w !! typingsPath = None -> Typings.onGenerateFiles typingsPath w = w)
  /\ (forall q, q <> typingsPath ->
        files (Typings.onGenerateFiles typingsPath w) !! q = files w !! q)
  /\ (forall old : Buffer, files w !! typingsPath = Some old ->
        exists added,
          files (Typings.onGenerateFiles typingsPath w) !! typingsPath
          = Some (old +:+ added)
          /\ (added = EmptyString \/ added = Typings.webpTypes))
  /\ Typings.onGenerateFiles typingsPath (Typings.onGenerateFiles typingsPath w)
     = Typings.onGenerateFiles typingsPath w.
Proof.
  assert (M : includes "*.jpg!webp" Typings.webpTypes = true) by (vm_compute; reflexivity).
  assert (A : forall v, files v !! typingsPath = None ->
              Typings.onGenerateFiles typingsPath v = v).
  { intros v E. unfold Typings.onGenerateFiles, existsSync. rewrite E. reflexivity. }
  assert (B : forall v (old : Buffer), files v !! typingsPath = Some old ->
              includes "*.jpg!webp" old = true ->
              Typings.onGenerateFiles typingsPath v = v).
  { intros v old E Ei. unfold Typings.onGenerateFiles, existsSync, readFileSync.
    rewrite E, Ei. reflexivity. }
  assert (C : forall v (old : Buffer), files v !! typingsPath = Some old ->
              includes "*.jpg!webp" old = false ->
              Typings.onGenerateFiles typingsPath v
              = writeFileSync typingsPath (old +:+ Typings.webpTypes) v).
  { intros v old E Ei.
    unfold Typings.onGenerateFiles, Typings.appendFileSync, existsSync, readFileSync.
    rewrite E, Ei. reflexivity. }
  destruct (files w !! typingsPath) as [old|] eqn:E.
  - destruct (includes "*.jpg!webp" old) eqn:Ei.
    + rewrite (B w old E Ei).
      split; [discriminate|]. split; [reflexivity|]. split.
      * intros o [= <-]. exists EmptyString. rewrite app_nil_r. auto.
      * apply (B w old E Ei).
    + rewrite (C w old E Ei).
      split; [discriminate|]. split; [|split].
      * intros q Hq. cbn [writeFileSync files]. apply lookup_insert_ne. congruence.
      * intros o [= <-]. exists Typings.webpTypes.
        cbn [writeFileSync files]. rewrite lookup_insert_eq. auto.
      * apply (B _ (old +:+ Typings.webpTypes)).
        -- cbn [writeFileSync files]. apply lookup_insert_eq.
        -- apply includes_app_r, M.
  - rewrite (A w E).
    split; [reflexivity|]. split; [reflexivity|]. split; [discriminate|].
    apply (A w E).
Qed.

(** X20. The list of temporary files of the plugin class never holds a
    path twice: adding a path keeps a duplicate-free list duplicate
    free, keeps the order of the paths already there, and leaves the
    path in the list. *)
Theorem tracker_keeps_paths_once (filePath : string) (tempWebpFiles : list string) :
  NoDup tempWebpFiles ->
  NoDup (Tracker.addTmpWebpFile filePath tempWebpFiles)
  /\ filePath ∈ Tracker.addTmpWebpFile filePath tempWebpFiles
  /\ tempWebpFiles `prefix_of` Tracker.addTmpWebpFile filePath tempWebpFiles
  /\ Tracker.addTmpWebpFile filePath
       (Tracker.addTmpWebpFile filePath tempWebpFiles)
     = Tracker.addTmpWebpFile filePath tempWebpFiles.
Proof.
  intros Hn. unfold Tracker.addTmpWebpFile.
  destruct (decide (filePath ∈ tempWebpFiles)) as [Hin|Hin].
  - rewrite !bool_decide_eq_true_2 by exact Hin.
    split; [exact Hn|]. split; [exact Hin|]. split; [reflexivity|reflexivity].
  - rewrite (bool_decide_eq_false_2 _ Hin).
    rewrite bool_decide_eq_true_2 by (apply elem_of_app; right; left).
    split; [|split; [|split; [|reflexivity]]].
    + apply NoDup_app. split; [exact Hn|]. split; [|apply NoDup_singleton].
      intros x Hx Hx'. apply list_elem_of_singleton in Hx'. subst x. contradiction.
    + apply elem_of_app. right. left.
    + exists [filePath]. reflexivity.
Qed.

Lemma tracker_example :
  NoDup ["/src/a.webp"]
  /\ Tracker.addTmpWebpFile "/src/b.webp" ["/src/a.webp"]
     = ["/src/a.webp"; "/src/b.webp"]
  /\ NoDup (Tracker.addTmpWebpFile "/src/b.webp" ["/src/a.webp"]).
Proof.
  assert (H : NoDup ["/src/a.webp"]) by (apply NoDup_singleton).
  split; [exact H|]. split; [reflexivity|].
  exact (proj1 (tracker_keeps_paths_once "/src/b.webp" ["/src/a.webp"] H)).
Defined.

End PageProperties.

(* ===================================================================== *)
(** * More about the passes over the files of the output directory *)
(* ===================================================================== *)

Module FilesMore.
Import JS Re Css Fs Convert Loader Notions Samples JSFacts ReFacts PassFacts CssFacts TextMore.


(** What the loop over the stylesheets adds to the write log. *)
Lemma processCssList_writes : forall l w,
  exists added,
    writes (fst (processCssList l w)) = writes w ++ added
    /\ length added = snd (processCssList l w)
    /\ forall q c, (q, c) ∈ added -> q ∈ l.
Proof.
  induction l as [|p l IH]; intros w.
  - exists []. cbn. rewrite List.app_nil_r. repeat split. intros q c H.
    apply elem_of_nil in H. contradiction.
  - cbn [processCssList].
    destruct (readFileSync p w) as [css|].
    + destruct (processCssContent css) as [new|].
      * destruct (IH (writeFileSync p new w)) as (added & H1 & H2 & H3).
        destruct (processCssList l (writeFileSync p new w)) as [w' n].
        cbn [fst snd] in *. exists ((p, new) :: added).
        rewrite H1. cbn [writeFileSync writes]. rewrite <- List.app_assoc.
        split; [reflexivity|]. split; [cbn; lia|].
        intros q c H. apply elem_of_cons in H as [[= -> ->]|H]; [left|].
        right. exact (H3 q c H).
      * destruct (IH w) as (added & H1 & H2 & H3). exists added.
        split; [exact H1|]. split; [exact H2|].
        intros q c H. right. exact (H3 q c H).
    + destruct (IH w) as (added & H1 & H2 & H3). exists added.
      split; [exact H1|]. split; [exact H2|].
      intros q c H. right. exact (H3 q c H).
Qed.

(** The same for the loop over the pages. *)
Lemma injectList_files script : forall l w,
  let r := Html.injectList script l w in
  (forall q, q ∉ l -> files (fst r) !! q = files w !! q)
  /\ (forall q, is_Some (files (fst r) !! q) <-> is_Some (files w !! q))
  /\ exists added,
       writes (fst r) = writes w ++ added
       /\ length added = snd r
       /\ forall q c, (q, c) ∈ added -> q ∈ l.
Proof.
  induction l as [|p l IH]; intros w; cbv zeta.
  - cbn [Html.injectList fst snd]. split; [reflexivity|]. split; [reflexivity|].
    exists []. rewrite List.app_nil_r. repeat split. intros q c H.
    apply elem_of_nil in H. contradiction.
  - cbn [Html.injectList].
    assert (Keep : forall v, v = w ->
              (forall q, q ∉ p :: l ->
                 files (fst (Html.injectList script l v)) !! q = files w !! q)
              /\ (forall q, is_Some (files (fst (Html.injectList script l v)) !! q)
                            <-> is_Some (files w !! q))
              /\ exists added,
                   writes (fst (Html.injectList script l v)) = writes w ++ added
                   /\ length added = snd (Html.injectList script l v)
                   /\ forall q c, (q, c) ∈ added -> q ∈ p :: l).
    { intros v ->. destruct (IH w) as (F1 & F2 & added & H1 & H2 & H3).
      split; [|split; [exact F2|]].
      - intros q Hq. apply F1. intros Hin. apply Hq. right. exact Hin.
      - exists added. split; [exact H1|]. split; [exact H2|].
        intros q c H. right. exact (H3 q c H). }
    unfold readFileSync.
    destruct (files w !! p) as [html|] eqn:E; [|apply Keep; reflexivity].
    destruct (Html.injectInto script html) as [new|]; [|apply Keep; reflexivity].
    destruct (IH (writeFileSync p new w)) as (F1 & F2 & added & H1 & H2 & H3).
    destruct (Html.injectList script l (writeFileSync p new w)) as [w' n].
    cbn [fst snd] in *. split; [|split].
    + intros q Hq. rewrite F1 by (intros Hin; apply Hq; right; exact Hin).
      cbn [writeFileSync files]. apply lookup_insert_ne.
      intros ->. apply Hq. left.
    + intros q. rewrite F2. cbn [writeFileSync files].
      destruct (decide (p = q)) as [->|Hne].
      * rewrite lookup_insert_eq, E. split; intros _; eexists; reflexivity.
      * rewrite lookup_insert_ne by exact Hne. reflexivity.
    + exists ((p, new) :: added). rewrite H1. cbn [writeFileSync writes].
      rewrite <- List.app_assoc. split; [reflexivity|]. split; [cbn; lia|].
      intros q c H. apply elem_of_cons in H as [[= -> ->]|H]; [left|].
      right. exact (H3 q c H).
Qed.

Lemma elem_of_globHtml d w p :
  p ∈ Html.globHtml d w -> Html.matchesHtmlGlob d p = true.
Proof.
  unfold Html.globHtml. intros H. apply list_elem_of_In, filter_In in H as [_ H].
  exact H.
Qed.

(** ** The directory of a path *)

Lemma lastSlash_none : forall s pos,
  allChars notSlash s = true -> lastSlash pos s = None.
Proof.
  induction s as [|c s IH]; intros pos H; [reflexivity|].
  cbn [allChars] in H. apply andb_prop in H as [Hc Hs].
  cbn [lastSlash]. rewrite (IH (S pos) Hs).
  unfold notSlash in Hc. apply negb_true_iff in Hc. rewrite Hc. reflexivity.
Qed.

Lemma lastSlash_last name : allChars notSlash name = true ->
  forall dir pos,
    lastSlash pos (dir +:+ "/" +:+ name) = Some (pos + len dir).
Proof.
  intros Hn. induction dir as [|c dir IH]; intros pos.
  - rewrite app_nil_l, app_cons, app_nil_l. cbn [lastSlash].
    rewrite (lastSlash_none name (S pos) Hn). cbn. f_equal. lia.
  - rewrite app_cons. cbn [lastSlash]. rewrite IH, len_cons. f_equal. lia.
Qed.

End FilesMore.

(* ===================================================================== *)
(** * Properties of the passes over stylesheets and pages *)
(* ===================================================================== *)

Module FilesProperties.
Import JS Re Css Fs Convert Loader Notions Samples JSFacts ReFacts PassFacts CssFacts TextMore FilesMore.



(** X22. The pass over the stylesheets creates and deletes nothing and
    writes only stylesheets found under the output directory; the number
    it reports is the number of files it wrote. *)
Theorem stylesheet_pass_touches_only_stylesheets (outputPath : string) (w : World) :
  let r := processCssFiles outputPath w in
  (forall q, matchesCssGlob outputPath q = false ->
     files (fst r) !! q = files w !! q)
  /\ (forall q, is_Some (files (fst r) !! q) <-> is_Some (files w !! q))
  /\ exists added,
       writes (fst r) = writes w ++ added
       /\ length added = snd r
       /\ forall q c, (q, c) ∈ added -> matchesCssGlob outputPath q = true.
Proof.
  cbv zeta. unfold processCssFiles.
  destruct (processCssList_files (globCss outputPath w) w) as [F1 F2].
  destruct (processCssList_writes (globCss outputPath w) w) as (added & H1 & H2 & H3).
  split; [|split; [exact F2|]].
  - intros q Hq. apply F1. intros Hin. apply elem_of_globCss in Hin. congruence.
  - exists added. split; [exact H1|]. split; [exact H2|].
    intros q c H. apply (elem_of_globCss outputPath w). exact (H3 q c H).
Qed.

(** X23. The injector fails as a whole when the script cannot be read.
    Otherwise it creates and deletes nothing and writes only pages found
    under the output directory, and the number it reports is the number
    of pages it wrote. *)
Theorem injector_touches_only_pages (scriptPath outputPath : string) (w : World) :
  (files w !! scriptPath = None ->
     Html.injectWebPDetector scriptPath outputPath w = None)
  /\ forall r, Html.injectWebPDetector scriptPath outputPath w = Some r ->
       (forall q, Html.matchesHtmlGlob outputPath q = false ->
          files (fst r) !! q = files w !! q)
       /\ (forall q, is_Some (files (fst r) !! q) <-> is_Some (files w !! q))
       /\ exists added,
            writes (fst r) = writes w ++ added
            /\ length added = snd r
            /\ forall q c, (q, c) ∈ added -> Html.matchesHtmlGlob outputPath q = true.
Proof.
  unfold Html.injectWebPDetector, readFileSync. split.
  - intros ->. reflexivity.
  - intros r Hr. destruct (files w !! scriptPath) as [script|]; [|discriminate].
    injection Hr as <-.
    destruct (injectList_files script (Html.globHtml outputPath w) w)
      as (F1 & F2 & added & H1 & H2 & H3).
    split; [|split; [exact F2|]].
    + intros q Hq. apply F1. intros Hin. apply elem_of_globHtml in Hin. congruence.
    + exists added. split; [exact H1|]. split; [exact H2|].
      intros q c H. apply (elem_of_globHtml outputPath w). exact (H3 q c H).
Qed.

Lemma injector_pass_example :
  option_map (fun r => map fst (writes (fst r)))
    (Html.injectWebPDetector "/plugin/webp-detector.js" "/dist" siteWorld)
  = Some ["/dist/index.html"]
  /\ option_map (fun r => files (fst r) !! "/dist/umi.css")
       (Html.injectWebPDetector "/plugin/webp-detector.js" "/dist" siteWorld)
     = Some (files siteWorld !! "/dist/umi.css").
Proof.
  destruct (Html.injectWebPDetector "/plugin/webp-detector.js" "/dist" siteWorld)
    as [r|] eqn:E; [|discriminate E].
  destruct (proj2 (injector_touches_only_pages "/plugin/webp-detector.js" "/dist"
                     siteWorld) r E) as (H & _ & _).
  cbn [option_map]. split.
  - vm_compute in E. injection E as <-. vm_compute. reflexivity.
  - rewrite (H "/dist/umi.css" eq_refl). reflexivity.
Defined.

(** X24. The directory the loader resolves an import from is the path of
    the file up to its last slash; for a path without a slash it is the
    empty text. *)
Theorem contextDir_is_the_directory (dir name : string) :
  allChars notSlash name = true ->
  contextDir (dir +:+ "/" +:+ name) = dir /\ contextDir name = EmptyString.
Proof.
  intros Hn. unfold contextDir. split.
  - rewrite (lastSlash_last name Hn dir 0). cbn [Nat.add].
    unfold substring. cbn [Nat.ltb Nat.leb].
    rewrite Nat.sub_0_r. cbn [drop].
    destruct (dir +:+ "/" +:+ name) eqn:E.
    + apply app_eq_nil in E as [-> _]. reflexivity.
    + rewrite <- E. apply take_app.
  - rewrite (lastSlash_none name 0 Hn). reflexivity.
Qed.

Lemma contextDir_example :
  allChars notSlash "index.tsx" = true
  /\ contextDir "/src/pages/index.tsx" = "/src/pages"
  /\ contextDir "index.tsx" = EmptyString.
Proof.
  split; [reflexivity|].
  exact (contextDir_is_the_directory "/src/pages" "index.tsx" eq_refl).
Defined.

End FilesProperties.
